(** * refyne-sdk-go: the request pipeline, its cache, retry policy,
    error classifier and API-version check, embedded in Rocq.

    Sources embedded here:
    - cache.go    (ParseCacheControl, CreateCacheEntry, MemoryCache)
    - version.go  (ParseVersion, CompareVersions, CheckAPIVersionCompatibility)
    - client.go   (NewClient, WithBaseURL, WithMaxRetries,
                   requestWithOptions, executeWithRetry, parseErrorResponse,
                   GenerateCacheKey, hashString; and calculateBackoff and
                   parseRetryAfter of the earlier client.go, whose waits the
                   later loop computes in line)
    - errors.go   (the typed errors and their texts)
    - services.go (the methods of the services, as calls of [request], and
                   the path of a job listing)
    - the earlier client.go, errors.go and services (requestWithRetry,
      parseError, the errors and their texts, JobsClient.List,
      SchemasClient.Delete), in the module [Legacy]

    Conventions.  Go's [int], [int64] and [time.Duration] are 64-bit signed
    integers: they are values of [Z] and every operation that can overflow is
    written with its wrap-around ([wrap64]).  Go strings are byte strings:
    they are values of [string].  [strings.ToLower], [strings.ToUpper] and
    [strings.TrimSpace] are embedded as Go computes them on ASCII input (the
    byte-wise fast path of the library).  Maps are [gmap]s, slices are lists.
    The collaborators of the pipeline (transport, JSON codec, clock, logger)
    are explicit arguments and an explicit event trace. *)

From Stdlib Require Import ZArith Ascii String List Lia Permutation Bool.
From Stdlib Require Import DecimalString.
From stdpp Require Import base option gmap strings list fin_maps.

Local Open Scope Z_scope.

(** ** 64-bit signed arithmetic *)

Module Int64.

Definition MinInt64 : Z := - 2 ^ 63.
Definition MaxInt64 : Z := 2 ^ 63 - 1.
Definition MaxUint64 : Z := 2 ^ 64 - 1.

(** The value a 64-bit two's complement register holds for [z]. *)
Definition wrap64 (z : Z) : Z := (z + 2 ^ 63) mod 2 ^ 64 - 2 ^ 63.

Definition add64 (a b : Z) : Z := wrap64 (a + b).
Definition mul64 (a b : Z) : Z := wrap64 (a * b).

(** [a << s] on int64, for a shift count [s >= 0] (Go panics on a negative
    count): counts of 64 and more shift every bit out. *)
Definition shl64 (a s : Z) : Z :=
  if 64 <=? s then 0 else wrap64 (a * 2 ^ s).

Definition inRange64 (z : Z) : Prop := MinInt64 <= z <= MaxInt64.

End Int64.
Export Int64.

(** ** strconv.Atoi *)

Inductive NumError : Type := ErrSyntax | ErrRange.

Definition byteOf (c : ascii) : Z := Z.of_N (N_of_ascii c).

Definition isDigit (c : ascii) : bool :=
  (48 <=? byteOf c) && (byteOf c <=? 57).

(** The digit loop of [strconv.ParseUint(s, 10, 64)]: [inl n] is the value,
    [inr e] the error; a range error is raised at the first digit that
    overflows, before the rest of the string is looked at. *)
Fixpoint parseUintLoop (n : Z) (s : string) : Z + NumError :=
  match s with
  | EmptyString => inl n
  | String c rest =>
      if isDigit c then
        if MaxUint64 / 10 + 1 <=? n then inr ErrRange
        else
          let n1 := n * 10 + (byteOf c - 48) in
          if MaxUint64 <? n1 then inr ErrRange else parseUintLoop n1 rest
      else inr ErrSyntax
  end.

Definition ParseUint (s : string) : Z * option NumError :=
  match s with
  | EmptyString => (0, Some ErrSyntax)
  | _ =>
      match parseUintLoop 0 s with
      | inl n => (n, None)
      | inr ErrSyntax => (0, Some ErrSyntax)
      | inr ErrRange => (MaxUint64, Some ErrRange)
      end
  end.

(** [strconv.ParseInt(s, 10, 0)] on a 64-bit platform. *)
Definition ParseInt (s : string) : Z * option NumError :=
  match s with
  | EmptyString => (0, Some ErrSyntax)
  | String c rest =>
      let neg := Ascii.eqb c "-" in
      let body := if Ascii.eqb c "+" || Ascii.eqb c "-" then rest else s in
      match ParseUint body with
      | (_, Some ErrSyntax) => (0, Some ErrSyntax)
      | (un, _) =>
          if negb neg && (2 ^ 63 <=? un) then (MaxInt64, Some ErrRange)
          else if neg && (2 ^ 63 <? un) then (MinInt64, Some ErrRange)
          else (if neg then - un else un, None)
      end
  end.

(** [strconv.Atoi]: the returned value and the error ([None] is [nil]).
    Its fast path for short strings computes what [ParseInt] does. *)
Definition Atoi (s : string) : Z * option NumError := ParseInt s.

(** [if v, err := strconv.Atoi(s); err == nil { ... v ... }] *)
Definition atoiOk (s : string) : option Z :=
  match Atoi s with
  | (v, None) => Some v
  | (_, Some _) => None
  end.

(** ** The strings package, on byte strings *)

Definition lowerByte (c : ascii) : ascii :=
  if (65 <=? byteOf c) && (byteOf c <=? 90)
  then ascii_of_N (N_of_ascii c + 32) else c.

Definition upperByte (c : ascii) : ascii :=
  if (97 <=? byteOf c) && (byteOf c <=? 122)
  then ascii_of_N (N_of_ascii c - 32) else c.

Fixpoint ToLower (s : string) : string :=
  match s with
  | EmptyString => EmptyString
  | String c rest => String (lowerByte c) (ToLower rest)
  end.

Fixpoint ToUpper (s : string) : string :=
  match s with
  | EmptyString => EmptyString
  | String c rest => String (upperByte c) (ToUpper rest)
  end.

(** [strings.Split(s, sep)] for a one-byte separator: never empty, the
    empty string splits into one empty part. *)
Fixpoint Split (s : string) (sep : ascii) : list string :=
  match s with
  | EmptyString => [EmptyString]
  | String c rest =>
      if Ascii.eqb c sep then EmptyString :: Split rest sep
      else
        match Split rest sep with
        | part :: parts => String c part :: parts
        | [] => [String c EmptyString]
        end
  end.

(** [strings.Join(parts, sep)] *)
Fixpoint Join (parts : list string) (sep : string) : string :=
  match parts with
  | [] => EmptyString
  | [p] => p
  | p :: ps => p +:+ sep +:+ Join ps sep
  end.

(** The ASCII white space of [strings.TrimSpace]: tab, line feed, vertical
    tab, form feed, carriage return, space. *)
Definition isSpace (c : ascii) : bool :=
  ((9 <=? byteOf c) && (byteOf c <=? 13)) || (byteOf c =? 32).

Fixpoint TrimLeft (s : string) : string :=
  match s with
  | EmptyString => EmptyString
  | String c rest => if isSpace c then TrimLeft rest else s
  end.

Fixpoint TrimRight (s : string) : string :=
  match s with
  | EmptyString => EmptyString
  | String c rest =>
      match TrimRight rest with
      | EmptyString => if isSpace c then EmptyString else String c EmptyString
      | r => String c r
      end
  end.

Definition TrimSpace (s : string) : string := TrimRight (TrimLeft s).

Fixpoint HasPrefix (s prefix : string) : bool :=
  match prefix, s with
  | EmptyString, _ => true
  | String p ps, String c cs => Ascii.eqb c p && HasPrefix cs ps
  | String _ _, EmptyString => false
  end.

(** The slice [s[n:]] for [n <= len(s)]. *)
Fixpoint sliceFrom (n : nat) (s : string) : string :=
  match n, s with
  | O, _ => s
  | S m, String _ rest => sliceFrom m rest
  | S _, EmptyString => EmptyString
  end.

(** ** Cache-Control directives (interfaces.go, cache.go) *)

Record CacheControlDirectives : Type := mkDirectives {
  NoStore : bool;
  NoCache : bool;
  Private : bool;
  MaxAge : option Z;
  StaleWhileRevalidate : option Z
}.

Definition noDirectives : CacheControlDirectives :=
  mkDirectives false false false None None.

(** The body of the [for _, part := range parts] loop of
    [ParseCacheControl], after [part = strings.TrimSpace(part)]. *)
Definition applyPart (d : CacheControlDirectives) (part : string)
  : CacheControlDirectives :=
  if String.eqb part "no-store" then
    mkDirectives true (NoCache d) (Private d) (MaxAge d) (StaleWhileRevalidate d)
  else if String.eqb part "no-cache" then
    mkDirectives (NoStore d) true (Private d) (MaxAge d) (StaleWhileRevalidate d)
  else if String.eqb part "private" then
    mkDirectives (NoStore d) (NoCache d) true (MaxAge d) (StaleWhileRevalidate d)
  else if HasPrefix part "max-age=" then
    match atoiOk (sliceFrom 8 part) with
    | Some v =>
        mkDirectives (NoStore d) (NoCache d) (Private d) (Some v)
                     (StaleWhileRevalidate d)
    | None => d
    end
  else if HasPrefix part "stale-while-revalidate=" then
    match atoiOk (sliceFrom 23 part) with
    | Some v =>
        mkDirectives (NoStore d) (NoCache d) (Private d) (MaxAge d) (Some v)
    | None => d
    end
  else d.

Definition ParseCacheControl (header : string) : CacheControlDirectives :=
  if String.eqb header "" then noDirectives
  else
    fold_left (fun d part => applyPart d (TrimSpace part))
              (Split (ToLower header) ",") noDirectives.

(** *** The vocabulary of the claims on the parser *)

(** What one trimmed, lower-cased part of the header stands for: the
    recognised tokens of the specification ([no-store], [no-cache],
    [private], [max-age=<int>], [stale-while-revalidate=<int>]); anything
    else, and a recognised name with a value that is no integer, is
    ignored. *)
Inductive PartKind : Type :=
| KNoStore
| KNoCache
| KPrivate
| KMaxAge (v : Z)
| KStale (v : Z)
| KIgnored.

Definition kindOf (part : string) : PartKind :=
  if String.eqb part "no-store" then KNoStore
  else if String.eqb part "no-cache" then KNoCache
  else if String.eqb part "private" then KPrivate
  else if HasPrefix part "max-age=" then
    match atoiOk (sliceFrom 8 part) with Some v => KMaxAge v | None => KIgnored end
  else if HasPrefix part "stale-while-revalidate=" then
    match atoiOk (sliceFrom 23 part) with Some v => KStale v | None => KIgnored end
  else KIgnored.

Definition applyKind (d : CacheControlDirectives) (k : PartKind)
  : CacheControlDirectives :=
  match k with
  | KNoStore =>
      mkDirectives true (NoCache d) (Private d) (MaxAge d) (StaleWhileRevalidate d)
  | KNoCache =>
      mkDirectives (NoStore d) true (Private d) (MaxAge d) (StaleWhileRevalidate d)
  | KPrivate =>
      mkDirectives (NoStore d) (NoCache d) true (MaxAge d) (StaleWhileRevalidate d)
  | KMaxAge v =>
      mkDirectives (NoStore d) (NoCache d) (Private d) (Some v)
                   (StaleWhileRevalidate d)
  | KStale v =>
      mkDirectives (NoStore d) (NoCache d) (Private d) (MaxAge d) (Some v)
  | KIgnored => d
  end.

Definition recognised (part : string) : bool :=
  match kindOf part with KIgnored => false | _ => true end.

(** A part as the loop sees it. *)
Definition normalPart (part : string) : string := TrimSpace (ToLower part).

(** Two parts never give one directive two different values. *)
Definition sameValue (k1 k2 : PartKind) : Prop :=
  match k1, k2 with
  | KMaxAge a, KMaxAge b => a = b
  | KStale a, KStale b => a = b
  | _, _ => True
  end.

Definition singleValued (parts : list string) : Prop :=
  forall p1 p2, p1 ∈ parts -> p2 ∈ parts ->
    sameValue (kindOf (normalPart p1)) (kindOf (normalPart p2)).

(** [t] with the case of some of its letters changed. *)
Inductive caseVariant : string -> string -> Prop :=
| cv_nil : caseVariant EmptyString EmptyString
| cv_keep c s t : caseVariant s t -> caseVariant (String c s) (String c t)
| cv_upper c s t :
    caseVariant s t -> caseVariant (String c s) (String (upperByte c) t)
| cv_lower c s t :
    caseVariant s t -> caseVariant (String c s) (String (lowerByte c) t).

Fixpoint allSpace (s : string) : bool :=
  match s with
  | EmptyString => true
  | String c rest => isSpace c && allSpace rest
  end.

(** [t'] is [t] with white space added around it and letters changed in
    case. *)
Definition partVariant (t t' : string) : Prop :=
  exists l u r, caseVariant t u /\ allSpace l = true /\ allSpace r = true /\
                t' = l +:+ u +:+ r.

(** The parts of [h'] are those of [h], in any order, each with white space
    added around it and letters changed in case. *)
Definition rearranged (h h' : string) : Prop :=
  exists ts, Permutation (Split h ",") ts /\
             Forall2 partVariant ts (Split h' ",").

Fixpoint isASCII (s : string) : bool :=
  match s with
  | EmptyString => true
  | String c rest => (byteOf c <? 128) && isASCII rest
  end.

(** ** Cache entries and the in-memory cache (interfaces.go, cache.go) *)

Section Cache.

Context {V : Type}.

Record CacheEntry : Type := mkEntry {
  Value : V;
  ExpiresAt : Z;
  CacheControl : CacheControlDirectives
}.

(** [CreateCacheEntry(value, header)]; [now] is what [time.Now().Unix()]
    returns inside it.  [None] is the nil entry. *)
Definition CreateCacheEntry (now : Z) (value : V) (cacheControlHeader : string)
  : option CacheEntry :=
  let cc := ParseCacheControl cacheControlHeader in
  if NoStore cc then None
  else
    match MaxAge cc with
    | None => None
    | Some maxAge =>
        let expiresAt := add64 now maxAge in
        Some (mkEntry value expiresAt cc)
    end.

Record MemoryCache : Type := mkCache {
  store : gmap string CacheEntry;
  order : list string;
  maxEntries : Z
}.

(** [NewMemoryCache(maxEntries)]: [make([]string, 0, maxEntries)] panics on
    a negative capacity, which is [None] here. *)
Definition NewMemoryCache (maxEntries : Z) : option MemoryCache :=
  if maxEntries <? 0 then None
  else Some (mkCache ∅ [] maxEntries).

(** The loop of [Delete] over [c.order]: the first occurrence of [key] is
    cut out, then [break]. *)
Fixpoint removeFirst (key : string) (order : list string) : list string :=
  match order with
  | [] => []
  | k :: rest => if String.eqb k key then rest else k :: removeFirst key rest
  end.

Definition Delete (key : string) (c : MemoryCache) : MemoryCache :=
  mkCache (delete key (store c)) (removeFirst key (order c)) (maxEntries c).

(** [Get(key)]; [now] is what [time.Now().Unix()] returns inside it.  The
    result is the entry found, if any, and the cache left behind. *)
Definition Get (now : Z) (key : string) (c : MemoryCache)
  : option CacheEntry * MemoryCache :=
  match store c !! key with
  | None => (None, c)
  | Some entry =>
      if ExpiresAt entry <? now then
        match StaleWhileRevalidate (CacheControl entry) with
        | Some swr =>
            let staleDeadline := add64 (ExpiresAt entry) swr in
            if now <? staleDeadline then (Some entry, c)
            else (None, Delete key c)
        | None => (None, Delete key c)
        end
      else (Some entry, c)
  end.

(** The eviction loop of [Set]:
    [for len(c.store) >= c.maxEntries && len(c.order) > 0]. *)
Fixpoint evict (maxEntries : Z) (st : gmap string CacheEntry)
  (ord : list string) : gmap string CacheEntry * list string :=
  match ord with
  | [] => (st, [])
  | oldest :: rest =>
      if maxEntries <=? Z.of_nat (size st)
      then evict maxEntries (delete oldest st) rest
      else (st, ord)
  end.

Definition Set_ (key : string) (entry : CacheEntry) (c : MemoryCache)
  : MemoryCache :=
  if NoStore (CacheControl entry) then c
  else
    let '(st, ord) := evict (maxEntries c) (store c) (order c) in
    let ord' := match st !! key with
                | Some _ => ord
                | None => ord ++ [key]
                end in
    mkCache (<[key := entry]> st) ord' (maxEntries c).

Definition Clear (c : MemoryCache) : MemoryCache :=
  mkCache ∅ [] (maxEntries c).

Definition Size (c : MemoryCache) : Z := Z.of_nat (size (store c)).

(** An entry the policy lets into the cache: no-store clear, max-age
    present. *)
Definition storable (e : CacheEntry) : Prop :=
  NoStore (CacheControl e) = false /\ is_Some (MaxAge (CacheControl e)).

Definition allStorable (c : MemoryCache) : Prop :=
  forall k e, store c !! k = Some e -> storable e.

(** The operations of the cache as a small command language, to speak
    about every finite sequence of them. *)
Inductive CacheOp : Type :=
| OpGet (now : Z) (key : string)
| OpSet (key : string) (entry : CacheEntry)
| OpDelete (key : string)
| OpClear.

(** The store after the assignments [c.store[key] = entry] of a list of
    keys with their entries. *)
Definition insertAll (kes : list (string * CacheEntry))
  (st : gmap string CacheEntry) : gmap string CacheEntry :=
  fold_left (fun st ke => <[fst ke := snd ke]> st) kes st.

(** [Set] of a key with its entry, as an operation. *)
Definition setOp (ke : string * CacheEntry) : CacheOp :=
  OpSet (fst ke) (snd ke).

Definition runOp (c : MemoryCache) (op : CacheOp) : MemoryCache :=
  match op with
  | OpGet now key => snd (Get now key c)
  | OpSet key entry => Set_ key entry c
  | OpDelete key => Delete key c
  | OpClear => Clear c
  end.

Definition runOps (c : MemoryCache) (ops : list CacheOp) : MemoryCache :=
  fold_left runOp ops c.

(** The insertion-order list holds exactly the keys of the store, each
    once, and the store holds at most [maxEntries] entries. *)
Definition linked (st : gmap string CacheEntry) (ord : list string) : Prop :=
  NoDup ord /\ (forall k, k ∈ ord <-> is_Some (st !! k)).

Definition orderMatchesStore (c : MemoryCache) : Prop :=
  linked (store c) (order c).

Definition withinCapacity (c : MemoryCache) : Prop :=
  Size c <= maxEntries c.

End Cache.

Arguments CacheEntry V : clear implicits.
Arguments MemoryCache V : clear implicits.
Arguments CacheOp V : clear implicits.

(** ** API versions (version.go, and the constants of client.go) *)

Definition SDKVersion : string := "0.0.0".
Definition MinAPIVersion : string := "0.0.0".
Definition MaxKnownAPIVersion : string := "0.0.0".

(** The longest prefix of digits, and what follows it: a [\d+] of
    [versionRegex] followed by a byte that is no digit. *)
Fixpoint spanDigits (s : string) : string * string :=
  match s with
  | EmptyString => (EmptyString, EmptyString)
  | String c rest =>
      if isDigit c then
        let '(ds, tl) := spanDigits rest in (String c ds, tl)
      else (EmptyString, s)
  end.

(** [.+] of the regular expression: one byte or more, none a line feed. *)
Fixpoint noLineFeed (s : string) : bool :=
  match s with
  | EmptyString => true
  | String c rest => negb (byteOf c =? 10) && noLineFeed rest
  end.

(** [versionRegex.FindStringSubmatch(version)] for
    [^(\d+)\.(\d+)\.(\d+)(?:-(.+))?$]: the four groups, or [None] (nil). *)
Definition versionSubmatch (version : string)
  : option (string * string * string * string) :=
  match spanDigits version with
  | (EmptyString, _) => None
  | (g1, String c1 r1) =>
      if negb (Ascii.eqb c1 ".") then None else
      match spanDigits r1 with
      | (EmptyString, _) => None
      | (g2, String c2 r2) =>
          if negb (Ascii.eqb c2 ".") then None else
          match spanDigits r2 with
          | (EmptyString, _) => None
          | (g3, EmptyString) => Some (g1, g2, g3, EmptyString)
          | (g3, String c3 pre) =>
              if Ascii.eqb c3 "-" && negb (String.eqb pre "") && noLineFeed pre
              then Some (g1, g2, g3, pre) else None
          end
      | (_, EmptyString) => None
      end
  | (_, EmptyString) => None
  end.

(** [ParseVersion]: the errors of [strconv.Atoi] are dropped, its values
    kept. *)
Definition ParseVersion (version : string) : Z * Z * Z * string :=
  match versionSubmatch version with
  | None => (0, 0, 0, EmptyString)
  | Some (g1, g2, g3, pre) =>
      (fst (Atoi g1), fst (Atoi g2), fst (Atoi g3), pre)
  end.

Definition CompareVersions (a b : string) : Z :=
  let '(aMajor, aMinor, aPatch, _) := ParseVersion a in
  let '(bMajor, bMinor, bPatch, _) := ParseVersion b in
  if negb (aMajor =? bMajor) then (if aMajor <? bMajor then -1 else 1)
  else if negb (aMinor =? bMinor) then (if aMinor <? bMinor then -1 else 1)
  else if negb (aPatch =? bPatch) then (if aPatch <? bPatch then -1 else 1)
  else 0.

(** *** The vocabulary of the claims on versions *)

Fixpoint allDigits (s : string) : bool :=
  match s with
  | EmptyString => true
  | String c rest => isDigit c && allDigits rest
  end.

(** A number of a version: one decimal digit or more. *)
Definition isNumber (g : string) : Prop :=
  g <> EmptyString /\ allDigits g = true.

(** A string that parses as numeric major.minor.patch, with an optional
    pre-release suffix after a dash. *)
Definition isVersion (v : string) : Prop :=
  exists g1 g2 g3 rest,
    isNumber g1 /\ isNumber g2 /\ isNumber g3 /\
    v = g1 +:+ "." +:+ g2 +:+ "." +:+ g3 +:+ rest /\
    (rest = EmptyString \/
     exists pre, rest = String "-" pre /\ pre <> EmptyString /\
                 noLineFeed pre = true).

Definition versionTriple (v : string) : Z * Z * Z :=
  let '(major, minor, patch, _) := ParseVersion v in (major, minor, patch).

Definition majorOf (v : string) : Z :=
  let '(major, _, _, _) := ParseVersion v in major.

(** Semantic-version order: major, then minor, then patch. *)
Definition tripleLt (x y : Z * Z * Z) : Prop :=
  let '(a1, a2, a3) := x in
  let '(b1, b2, b3) := y in
  a1 < b1 \/ (a1 = b1 /\ (a2 < b2 \/ (a2 = b2 /\ a3 < b3))).

(** ** Errors (errors.go) and log records (interfaces.go) *)

Record RefyneError : Type := mkRefyneError {
  Message : string;
  Status : Z;
  Detail : string
}.

Inductive Error : Type :=
| ValidationError (e : RefyneError) (Errors : gmap string string)
| AuthenticationError (e : RefyneError)
| ForbiddenError (e : RefyneError)
| NotFoundError (e : RefyneError)
| RateLimitError (e : RefyneError) (RetryAfter : Z)
| GenericError (e : RefyneError)
| UnsupportedAPIVersionError (APIVersion MinVersion MaxKnownVersion : string)
| Errorf (context : string) (cause : string)
| DecodeError (cause : string).

Inductive Level : Type := LDebug | LInfo | LWarn | LError.

Inductive FieldValue : Type :=
| FString (s : string)
| FInt (n : Z)
| FDuration (d : Z).

Record LogRecord : Type := mkLog {
  logLevel : Level;
  logMsg : string;
  logFields : list (string * FieldValue)
}.

(** [CheckAPIVersionCompatibility] for a given pair of version constants.
    The result is the error ([None] is nil) and what was handed to the
    logger. *)
Definition CheckAPIVersionCompatibilityFor (minVersion maxKnownVersion : string)
  (apiVersion : string) : option Error * list LogRecord :=
  if CompareVersions apiVersion minVersion <? 0 then
    (Some (UnsupportedAPIVersionError apiVersion minVersion maxKnownVersion), [])
  else
    let '(apiMajor, _, _, _) := ParseVersion apiVersion in
    let '(maxMajor, _, _, _) := ParseVersion maxKnownVersion in
    if maxMajor <? apiMajor then
      (None,
       [mkLog LWarn
          ("API version " +:+ apiVersion +:+
           " is newer than this SDK was built for (" +:+ maxKnownVersion +:+
           "). There may be breaking changes. Consider upgrading the SDK.")
          [("apiVersion", FString apiVersion);
           ("sdkVersion", FString SDKVersion);
           ("maxKnownVersion", FString maxKnownVersion)]])
    else (None, []).

(** The function of version.go, on the constants of client.go. *)
Definition CheckAPIVersionCompatibility (apiVersion : string)
  : option Error * list LogRecord :=
  CheckAPIVersionCompatibilityFor MinAPIVersion MaxKnownAPIVersion apiVersion.

(** ** The retry policy (client.go) *)

(** [time.Second], in nanoseconds, the unit of [time.Duration]. *)
Definition Second : Z := 1000000000.

(** [calculateBackoff(attempt)] *)
Definition calculateBackoff (attempt : Z) : Z :=
  let backoff := mul64 (shl64 1 (attempt - 1)) Second in
  if 30 * Second <? backoff then 30 * Second else backoff.

(** [parseRetryAfter(header)] *)
Definition parseRetryAfter (header : string) : Z :=
  if String.eqb header "" then Second
  else
    match atoiOk header with
    | Some seconds => mul64 seconds Second
    | None => Second
    end.

(** ** HTTP responses and the transport *)

Record Response : Type := mkResponse {
  StatusCode : Z;
  Header : gmap string string;
  Body : option string
}.

(** [resp.Header.Get(name)]: the empty string when the header is absent.
    The map is keyed by the names the code asks for (Go brings both the
    name asked for and the names received to one canonical spelling). *)
Definition HeaderGet (r : Response) (name : string) : string :=
  default EmptyString (Header r !! name).

(** What [c.httpClient.Do(req)] returns. *)
Inductive DoResult : Type :=
| DoError (err : string)
| DoResponse (resp : Response).

(** What a call does to its collaborators, in order. *)
Inductive Event : Type :=
| EvDo (attempt : Z) (method url : string)
| EvSleep (d : Z)
| EvLog (r : LogRecord)
| EvCheckVersion (apiVersion : string).

Definition isDo (e : Event) : bool :=
  match e with EvDo _ _ _ => true | _ => false end.

Definition isCheckVersion (e : Event) : bool :=
  match e with EvCheckVersion _ => true | _ => false end.

(** The calls of the transport and the runs of the version check in a
    trace. *)
Definition countDo (tr : list Event) : nat :=
  length (filter (fun e => isDo e = true) tr).

Definition countChecks (tr : list Event) : nat :=
  length (filter (fun e => isCheckVersion e = true) tr).

(** The durations handed to [time.Sleep], in order. *)
Fixpoint sleeps (tr : list Event) : list Z :=
  match tr with
  | [] => []
  | EvSleep d :: rest => d :: sleeps rest
  | _ :: rest => sleeps rest
  end.

Definition DefaultBaseURL : string := "https://api.refyne.uk".

(** The digits of [strconv.FormatUint(n, 36)], most significant first; the
    bound is on the number of digits. *)
Definition digit36 (d : Z) : ascii :=
  ascii_of_N (Z.to_N (if d <? 10 then 48 + d else 87 + d)).

Fixpoint formatBase36 (bound : nat) (n : Z) (acc : string) : string :=
  match bound with
  | O => acc
  | S b =>
      let acc' := String (digit36 (n mod 36)) acc in
      if n <? 36 then acc' else formatBase36 b (n / 36) acc'
  end.

(** [hashString(s)], on an ASCII string: [h = (h << 5) - h + c] in
    uint32, printed in base 36. *)
Fixpoint hashLoop (h : Z) (s : string) : Z :=
  match s with
  | EmptyString => h
  | String c rest => hashLoop ((h * 32 - h + byteOf c) mod 2 ^ 32) rest
  end.

Definition hashString (s : string) : string :=
  formatBase36 7 (hashLoop 0 s) EmptyString.

(** [GenerateCacheKey(method, urlStr, authHash)] *)
Definition GenerateCacheKey (method urlStr authHash : string) : string :=
  let parts := [ToUpper method; urlStr] in
  let parts := if negb (String.eqb authHash "") then parts ++ [authHash]
               else parts in
  Join parts ":".

(** Which answers of the transport are retried, and after which wait: a
    network error and a status of 500 or more after the backoff, a 429
    after the seconds of Retry-After; nothing else. *)
Definition retryWait (attempt : Z) (r : DoResult) : option Z :=
  match r with
  | DoError _ => Some (calculateBackoff attempt)
  | DoResponse resp =>
      if StatusCode resp =? 429 then
        Some (parseRetryAfter (HeaderGet resp "Retry-After"))
      else if 500 <=? StatusCode resp then Some (calculateBackoff attempt)
      else None
  end.

(** What the loop returns when it does not retry. *)
Definition lastAnswer (r : DoResult) : Error + Response :=
  match r with
  | DoError err => inl (Errorf "network error" err)
  | DoResponse resp => inr resp
  end.

(** ** The error classifier (client.go) *)

(** The anonymous struct [errResp] of [parseErrorResponse]. *)
Record ErrorBody : Type := mkErrorBody {
  ebError : string;
  ebDetail : string;
  ebErrors : gmap string string
}.

Definition zeroErrorBody : ErrorBody := mkErrorBody EmptyString EmptyString ∅.

(** *** The vocabulary of the claim on the classifier *)

Inductive Variant : Type :=
| Validation | Authentication | Forbidden | NotFound | RateLimit | Generic
| NotClassified.

Definition variantOf (e : Error) : Variant :=
  match e with
  | ValidationError _ _ => Validation
  | AuthenticationError _ => Authentication
  | ForbiddenError _ => Forbidden
  | NotFoundError _ => NotFound
  | RateLimitError _ _ => RateLimit
  | GenericError _ => Generic
  | _ => NotClassified
  end.

(** The embedded [RefyneError] of a classified error. *)
Definition baseOf (e : Error) : RefyneError :=
  match e with
  | ValidationError b _ | AuthenticationError b | ForbiddenError b
  | NotFoundError b | RateLimitError b _ | GenericError b => b
  | _ => mkRefyneError EmptyString 0 EmptyString
  end.

Definition fieldErrorsOf (e : Error) : option (gmap string string) :=
  match e with ValidationError _ errs => Some errs | _ => None end.

Definition retryAfterOf (e : Error) : option Z :=
  match e with RateLimitError _ ra => Some ra | _ => None end.

(** The table of the specification. *)
Definition tableVariant (status : Z) : Variant :=
  if status =? 400 then Validation
  else if status =? 401 then Authentication
  else if status =? 403 then Forbidden
  else if status =? 404 then NotFound
  else if status =? 429 then RateLimit
  else Generic.

Section Classifier.

(** [json.Unmarshal(body, &errResp)], whose error is dropped by the caller:
    [None] when the decoder rejects [body] (empty or malformed input leaves
    [errResp] untouched), otherwise the fields it has written. *)
Variable jsonErrorBody : string -> option ErrorBody.

(** [http.StatusText] *)
Variable StatusText : Z -> string.

Definition parseErrorResponse (resp : Response) (body : string) : Error :=
  let errResp := default zeroErrorBody (jsonErrorBody body) in
  let msg := ebError errResp in
  let msg := if String.eqb msg "" then StatusText (StatusCode resp) else msg in
  if StatusCode resp =? 400 then
    ValidationError (mkRefyneError msg 400 EmptyString) (ebErrors errResp)
  else if StatusCode resp =? 401 then
    AuthenticationError (mkRefyneError msg 401 EmptyString)
  else if StatusCode resp =? 403 then
    ForbiddenError (mkRefyneError msg 403 EmptyString)
  else if StatusCode resp =? 404 then
    NotFoundError (mkRefyneError msg 404 EmptyString)
  else if StatusCode resp =? 429 then
    let ra := HeaderGet resp "Retry-After" in
    let retryAfter :=
      if negb (String.eqb ra "") then
        match atoiOk ra with Some v => v | None => 60 end
      else 60 in
    RateLimitError (mkRefyneError msg 429 EmptyString) retryAfter
  else
    GenericError (mkRefyneError msg (StatusCode resp) (ebDetail errResp)).

End Classifier.

(** ** The client and the request pipeline (client.go) *)

Section Pipeline.

Context {V : Type}.

(** [json.Marshal] and [json.Unmarshal] on the caller's result type;
    [None] is a non-nil error. *)
Variable jsonMarshal : V -> option string.
Variable jsonUnmarshal : string -> option V.
Variable jsonErrorBody : string -> option ErrorBody.
Variable StatusText : Z -> string.

Record Client : Type := mkClient {
  apiKey : string;
  baseURL : string;
  cache : MemoryCache V;
  cacheOn : bool;
  userAgent : string;
  maxRetries : Z;
  apiVersionChecked : bool;
  authHash : string
}.

Definition withCache (c : Client) (m : MemoryCache V) : Client :=
  mkClient (apiKey c) (baseURL c) m (cacheOn c) (userAgent c)
           (maxRetries c) (apiVersionChecked c) (authHash c).

Definition withChecked (c : Client) (b : bool) : Client :=
  mkClient (apiKey c) (baseURL c) (cache c) (cacheOn c) (userAgent c)
           (maxRetries c) b (authHash c).

(** [NewClient(apiKey)] without options; the user agent names the runtime
    and is left to the caller. *)
Definition NewClient (apiKey userAgent : string) : Client :=
  mkClient apiKey DefaultBaseURL (mkCache ∅ [] 100) true userAgent 3 false
           (hashString apiKey).

(** The option [WithMaxRetries(retries)], applied. *)
Definition WithMaxRetries (retries : Z) (c : Client) : Client :=
  mkClient (apiKey c) (baseURL c) (cache c) (cacheOn c) (userAgent c)
           retries (apiVersionChecked c) (authHash c).

(** One call of the pipeline and what its collaborators answer during it:
    whether the request body marshals and the request can be built, the
    clock readings of the cache lookup and of the cache write, and the
    transport's answer to each attempt. *)
Record Call : Type := mkCall {
  method : string;
  path : string;
  bodyMarshals : bool;
  requestBuilds : bool;
  skipCache : bool;
  nowLookup : Z;
  nowStore : Z;
  Do : Z -> DoResult
}.

Definition prepend {A : Type} (evs : list Event) (r : A * list Event)
  : A * list Event := (fst r, evs ++ snd r).

(** [executeWithRetry], by recursion on a bound of the retries left; [None]
    is the bound running out, which [retryFuel] rules out. *)
Fixpoint executeWithRetryFuel (fuel : nat) (c : Client) (call : Call)
  (urlStr : string) (attempt : Z) : option ((Error + Response) * list Event) :=
  if negb (bodyMarshals call) then
    Some (inl (Errorf "failed to marshal request body" "json"), [])
  else if negb (requestBuilds call) then
    Some (inl (Errorf "failed to create request" "http"), [])
  else
    let do := EvDo attempt (method call) urlStr in
    let again (evs : list Event) :=
      match fuel with
      | O => None
      | S fuel' =>
          option_map (prepend (do :: evs))
            (executeWithRetryFuel fuel' c call urlStr (attempt + 1))
      end in
    match Do call attempt with
    | DoError err =>
        if attempt <=? maxRetries c then
          let backoff :=
            Z.min (mul64 (shl64 1 (attempt - 1)) Second) (30 * Second) in
          again [EvLog (mkLog LWarn "Network error. Retrying"
                          [("error", FString err); ("attempt", FInt attempt);
                           ("maxRetries", FInt (maxRetries c));
                           ("backoff", FDuration backoff)]);
                 EvSleep backoff]
        else Some (inl (Errorf "network error" err), [do])
    | DoResponse resp =>
        if (StatusCode resp =? 429) && (attempt <=? maxRetries c) then
          let ra := HeaderGet resp "Retry-After" in
          let retryAfter :=
            if negb (String.eqb ra "") then
              match atoiOk ra with Some v => v | None => 1 end
            else 1 in
          again [EvLog (mkLog LWarn "Rate limited. Retrying"
                          [("retryAfter", FInt retryAfter);
                           ("attempt", FInt attempt);
                           ("maxRetries", FInt (maxRetries c))]);
                 EvSleep (mul64 retryAfter Second)]
        else if (500 <=? StatusCode resp) && (attempt <=? maxRetries c) then
          let backoff :=
            Z.min (mul64 (shl64 1 (attempt - 1)) Second) (30 * Second) in
          again [EvLog (mkLog LWarn "Server error. Retrying"
                          [("status", FInt (StatusCode resp));
                           ("attempt", FInt attempt);
                           ("maxRetries", FInt (maxRetries c));
                           ("backoff", FDuration backoff)]);
                 EvSleep backoff]
        else Some (inr resp, [do])
    end.

Definition retryFuel (c : Client) (attempt : Z) : nat :=
  Z.to_nat (maxRetries c - attempt + 1).

Definition executeWithRetry (c : Client) (call : Call) (urlStr : string)
  (attempt : Z) : option ((Error + Response) * list Event) :=
  executeWithRetryFuel (retryFuel c attempt) c call urlStr attempt.

(** The write to the cache that ends a successful GET. *)
Definition cacheResponse (c : Client) (call : Call) (cacheKey : string)
  (result : V) (resp : Response) : MemoryCache V :=
  if String.eqb (method call) "GET" && cacheOn c then
    let cacheControl := HeaderGet resp "Cache-Control" in
    match CreateCacheEntry (nowStore call) result cacheControl with
    | Some entry => Set_ cacheKey entry (cache c)
    | None => cache c
    end
  else cache c.

(** What a call hands back: the error ([None] is nil) and the value decoded
    into [result], if any. *)
Record Outcome : Type := mkOutcome {
  err : option Error;
  decoded : option V
}.

Definition failed (e : Error) : Outcome := mkOutcome (Some e) None.

(** The warning of a response without version header. *)
Definition noVersionHeader : LogRecord :=
  mkLog LWarn "API did not return X-API-Version header" [].

(** The block of [requestWithOptions] that runs under [c.mu]: the version
    check of the first response.  [inl] is the early return of the error
    of the check, which leaves [apiVersionChecked] as it was. *)
Definition checkVersionOnce (c : Client) (resp : Response)
  : (Error * list Event) + (Client * list Event) :=
  if negb (apiVersionChecked c) then
    let apiVersion := HeaderGet resp "X-API-Version" in
    if negb (String.eqb apiVersion "") then
      match CheckAPIVersionCompatibility apiVersion with
      | (Some e, logs) =>
          inl (e, EvCheckVersion apiVersion :: map EvLog logs)
      | (None, logs) =>
          inr (withChecked c true,
               EvCheckVersion apiVersion :: map EvLog logs)
      end
    else inr (withChecked c true, [EvLog noVersionHeader])
  else inr (c, []).

(** The part of [requestWithOptions] after the cache lookup, on the client
    [c] the lookup has left. *)
Definition requestLive (c : Client) (call : Call) (urlStr cacheKey : string)
  : option (Outcome * Client * list Event) :=
  match executeWithRetry c call urlStr 1 with
  | None => None
  | Some (inl e, tr) => Some (failed e, c, tr)
  | Some (inr resp, tr) =>
      match checkVersionOnce c resp with
      | inl (e, evs) => Some (failed e, c, tr ++ evs)
      | inr (c1, evs) =>
          match Body resp with
          | None =>
              Some (failed (Errorf "failed to read response" "io"), c1,
                    tr ++ evs)
          | Some respBody =>
              if 400 <=? StatusCode resp then
                Some (failed (parseErrorResponse jsonErrorBody StatusText
                                resp respBody), c1, tr ++ evs)
              else
                match jsonUnmarshal respBody with
                | None =>
                    Some (failed (Errorf "failed to parse response" "json"),
                          c1, tr ++ evs)
                | Some result =>
                    Some (mkOutcome None (Some result),
                          withCache c1
                            (cacheResponse c1 call cacheKey result resp),
                          tr ++ evs)
                end
          end
      end
  end.

Definition requestWithOptions (c : Client) (call : Call)
  : option (Outcome * Client * list Event) :=
  let urlStr := baseURL c +:+ path call in
  let cacheKey := GenerateCacheKey (method call) urlStr (authHash c) in
  if String.eqb (method call) "GET" && cacheOn c && negb (skipCache call) then
    match Get (nowLookup call) cacheKey (cache c) with
    | (Some entry, m) =>
        match jsonMarshal (Value entry) with
        | Some data =>
            match jsonUnmarshal data with
            | Some result =>
                Some (mkOutcome None (Some result), withCache c m, [])
            | None => Some (failed (DecodeError "json"), withCache c m, [])
            end
        | None => requestLive (withCache c m) call urlStr cacheKey
        end
    | (None, m) => requestLive (withCache c m) call urlStr cacheKey
    end
  else requestLive c call urlStr cacheKey.

(** A client's life: calls one after the other.  The result is the client
    left behind with, per call, its outcome and its events. *)
Fixpoint runCalls (c : Client) (calls : list Call)
  : option (Client * list (Outcome * list Event)) :=
  match calls with
  | [] => Some (c, [])
  | call :: rest =>
      match requestWithOptions c call with
      | None => None
      | Some (out, c1, tr) =>
          match runCalls c1 rest with
          | None => None
          | Some (c2, outs) => Some (c2, (out, tr) :: outs)
          end
      end
  end.

(** The version checks run over a sequence of calls. *)
Definition checksRun (outs : list (Outcome * list Event)) : nat :=
  countChecks (concat (map snd outs)).

(** How one call may change the flag, and what its trace shows of it. *)
Definition checkStep (c c1 : Client) (tr : list Event) : Prop :=
  (countChecks tr <= 1)%nat /\
  (apiVersionChecked c = true ->
   apiVersionChecked c1 = true /\ countChecks tr = 0%nat) /\
  (countChecks tr = 1%nat ->
   apiVersionChecked c = false /\ apiVersionChecked c1 = true) /\
  (apiVersionChecked c = false -> apiVersionChecked c1 = true ->
   countChecks tr = 1%nat \/ EvLog noVersionHeader ∈ tr).

End Pipeline.

(** ** More of the strings package, and of fmt *)

(** [strings.TrimRight(s, cutset)] for a cutset of one ASCII byte: the
    bytes equal to it are cut from the end of [s]. *)
Fixpoint TrimRightByte (s : string) (c : ascii) : string :=
  match s with
  | EmptyString => EmptyString
  | String b rest =>
      match TrimRightByte rest c with
      | EmptyString => if Ascii.eqb b c then EmptyString else String b EmptyString
      | r => String b r
      end
  end.

(** [fmt.Sprintf("%d", n)] *)
Definition formatInt (n : Z) : string := NilZero.string_of_int (Z.to_int n).

(** *** The vocabulary of the properties of strings and keys *)

(** The last byte of a string, if any. *)
Fixpoint lastByte (s : string) : option ascii :=
  match s with
  | EmptyString => None
  | String c EmptyString => Some c
  | String _ rest => lastByte rest
  end.

(** [n] times the byte [c]. *)
Fixpoint replicateByte (n : nat) (c : ascii) : string :=
  match n with
  | O => EmptyString
  | S m => String c (replicateByte m c)
  end.


(** The digits of base 36, and the number a string of them denotes. *)
Definition isBase36 (c : ascii) : bool :=
  isDigit c || ((97 <=? byteOf c) && (byteOf c <=? 122)).

Fixpoint allBase36 (s : string) : bool :=
  match s with
  | EmptyString => true
  | String c rest => isBase36 c && allBase36 rest
  end.

Definition digitValue (c : ascii) : Z :=
  if isDigit c then byteOf c - 48 else byteOf c - 87.

Fixpoint base36From (v : Z) (s : string) : Z :=
  match s with
  | EmptyString => v
  | String c rest => base36From (v * 36 + digitValue c) rest
  end.

Definition base36Value (s : string) : Z := base36From 0 s.

(** ** Error texts (errors.go) *)

(** [RefyneError.Error], which the typed errors that embed a
    [RefyneError] inherit. *)
Definition RefyneError_Error (e : RefyneError) : string :=
  if negb (String.eqb (Detail e) "") then Message e +:+ ": " +:+ Detail e
  else Message e.

(** [Error()] of the errors of the SDK; an error wrapped by
    [fmt.Errorf("...: %w", err)] prints its context, a colon and the
    cause. *)
Definition ErrorText (e : Error) : string :=
  match e with
  | ValidationError b _ | AuthenticationError b | ForbiddenError b
  | NotFoundError b | RateLimitError b _ | GenericError b =>
      RefyneError_Error b
  | UnsupportedAPIVersionError apiVersion minVersion _ =>
      "API version " +:+ apiVersion +:+
      " is not supported. This SDK requires API version >= " +:+ minVersion +:+
      ". Please upgrade the API or use an older SDK version."
  | Errorf context cause => context +:+ ": " +:+ cause
  | DecodeError cause => cause
  end.

(** ** The services (services.go) and the options of the client *)

(** The calls of the transport in a trace, in order: attempt, method and
    URL. *)
Fixpoint transportCalls (tr : list Event) : list (Z * string * string) :=
  match tr with
  | [] => []
  | EvDo attempt method url :: rest =>
      (attempt, method, url) :: transportCalls rest
  | _ :: rest => transportCalls rest
  end.

(** The path of [JobsService.List(ctx, limit, offset)]. *)
Definition JobsService_List_path (limit offset : Z) : string :=
  let path := "/api/v1/jobs" in
  if (0 <? limit) || (0 <? offset) then
    let path := path +:+ "?" in
    let path := if 0 <? limit then path +:+ ("limit=" +:+ formatInt limit)
                else path in
    if 0 <? offset then
      let path := if 0 <? limit then path +:+ "&" else path in
      path +:+ ("offset=" +:+ formatInt offset)
    else path
  else path.

(** The path of the earlier [JobsClient.List(ctx, opts)]; [opts] is nil or
    points to the limit and the offset. *)
Definition JobsClient_List_path (opts : option (Z * Z)) : string :=
  let path := "/api/v1/jobs" in
  match opts with
  | None => path
  | Some (limit, offset) =>
      let params := "" in
      let params := if 0 <? limit then params +:+ ("limit=" +:+ formatInt limit)
                    else params in
      let params :=
        if 0 <? offset then
          let params := if negb (String.eqb params "") then params +:+ "&"
                        else params in
          params +:+ ("offset=" +:+ formatInt offset)
        else params in
      if negb (String.eqb params "") then path +:+ ("?" +:+ params) else path
  end.

Section Services.

Context {V : Type}.
Variable jsonMarshal : V -> option string.
Variable jsonUnmarshal : string -> option V.
Variable jsonErrorBody : string -> option ErrorBody.
Variable StatusText : Z -> string.

(** The option [WithBaseURL(url)], applied. *)
Definition WithBaseURL (url : string) (c : Client (V:=V)) : Client :=
  mkClient (apiKey c) (TrimRightByte url "/") (cache c) (cacheOn c)
           (userAgent c) (maxRetries c) (apiVersionChecked c) (authHash c).

(** The settings of a client: the fields that only [NewClient] and its
    options write. *)
Definition settings (c : Client (V:=V))
  : string * string * bool * string * Z * string :=
  (apiKey c, baseURL c, cacheOn c, userAgent c, maxRetries c, authHash c).

(** The cache key of a call of a client. *)
Definition keyOf (c : Client (V:=V)) (verb path : string) : string :=
  GenerateCacheKey verb (baseURL c +:+ path) (authHash c).

(** What the collaborators answer during one call: whether [json.Marshal]
    accepts the request body and [http.NewRequestWithContext] the method
    and URL, the clock at the cache lookup and at the cache write, and the
    transport at each attempt. *)
Record Answers : Type := mkAnswers {
  marshals : bool;
  builds : bool;
  lookupTime : Z;
  storeTime : Z;
  answer : Z -> DoResult
}.

(** The call of a method of the SDK: a request without body has nothing to
    marshal. *)
Definition callOf (verb path : string) (hasBody skip : bool) (w : Answers)
  : Call :=
  mkCall verb path (negb hasBody || marshals w) (builds w) skip
         (lookupTime w) (storeTime w) (answer w).

(** [json.Unmarshal(data, nil)]: into a nil result the decoder returns an
    error for every input, the syntax error of the input or
    InvalidUnmarshalError. *)
Definition unmarshalNil (data : string) : option V := None.

(** [requestWithOptions] for a result that is a pointer ([hasResult]) or
    nil. *)
Definition requestInto (hasResult : bool) (c : Client) (call : Call)
  : option (Outcome * Client * list Event) :=
  requestWithOptions jsonMarshal
    (if hasResult then jsonUnmarshal else unmarshalNil)
    jsonErrorBody StatusText c call.

(** [c.request(ctx, method, path, body, result)] *)
Definition request (c : Client) (verb path : string)
  (hasBody hasResult : bool) (w : Answers)
  : option (Outcome * Client * list Event) :=
  requestInto hasResult c (callOf verb path hasBody false w).

Definition JobsService_Get (c : Client) (id : string) (w : Answers) :=
  requestInto true c (callOf "GET" ("/api/v1/jobs/" +:+ id) false true w).

Definition JobsService_GetResults (c : Client) (id : string) (merge : bool)
  (w : Answers) :=
  let path := "/api/v1/jobs/" +:+ id +:+ "/results" in
  let path := if merge then path +:+ "?merge=true" else path in
  requestInto true c (callOf "GET" path false true w).

Definition SchemasService_Get (c : Client) (id : string) (w : Answers) :=
  request c "GET" ("/api/v1/schemas/" +:+ id) false true w.

Definition SchemasService_Update (c : Client) (id : string) (w : Answers) :=
  request c "PUT" ("/api/v1/schemas/" +:+ id) true true w.

Definition SchemasService_Delete (c : Client) (id : string) (w : Answers) :=
  request c "DELETE" ("/api/v1/schemas/" +:+ id) false false w.

Definition SitesService_Delete (c : Client) (id : string) (w : Answers) :=
  request c "DELETE" ("/api/v1/sites/" +:+ id) false false w.

Definition KeysService_Revoke (c : Client) (id : string) (w : Answers) :=
  request c "DELETE" ("/api/v1/keys/" +:+ id) false false w.

Definition LLMService_DeleteKey (c : Client) (id : string) (w : Answers) :=
  request c "DELETE" ("/api/v1/llm/keys/" +:+ id) false false w.

Definition LLMService_SetChain (c : Client) (w : Answers) :=
  request c "PUT" "/api/v1/llm/chain" true false w.

End Services.

(** ** The earlier client (client.go before the cache, errors.go) *)

Module Legacy.

(** errors.go *)
Record APIError : Type := mkAPIError {
  Message : string;
  Status : Z;
  Detail : string
}.

Inductive Error : Type :=
| BaseError (e : APIError)
| ValidationError (e : APIError) (Fields : gmap string string)
| AuthError (e : APIError)
| ForbiddenError (e : APIError)
| NotFoundError (e : APIError)
| RateLimitError (e : APIError) (RetryAfter : Z)
| NetworkError (Err : string)
| Errorf (context cause : string).

(** [Error()] of each of them. *)
Definition ErrorText (e : Error) : string :=
  match e with
  | BaseError a =>
      if negb (String.eqb (Detail a) "") then Message a +:+ ": " +:+ Detail a
      else Message a
  | ValidationError a _ => "validation error: " +:+ Message a
  | AuthError a => "authentication error: " +:+ Message a
  | ForbiddenError a => "forbidden: " +:+ Message a
  | NotFoundError a => "not found: " +:+ Message a
  | RateLimitError a _ => "rate limit exceeded: " +:+ Message a
  | NetworkError err => "network error: " +:+ err
  | Errorf context cause => context +:+ ": " +:+ cause
  end.

(** The embedded [APIError] of an error of the classifier. *)
Definition baseOf (e : Error) : APIError :=
  match e with
  | BaseError a | ValidationError a _ | AuthError a | ForbiddenError a
  | NotFoundError a | RateLimitError a _ => a
  | _ => mkAPIError EmptyString 0 EmptyString
  end.

(** The row of the table of the later classifier an error stands for. *)
Definition variantOf (e : Error) : Variant :=
  match e with
  | ValidationError _ _ => Validation
  | AuthError _ => Authentication
  | ForbiddenError _ => Forbidden
  | NotFoundError _ => NotFound
  | RateLimitError _ _ => RateLimit
  | BaseError _ => Generic
  | _ => NotClassified
  end.

(** The client: the fields the request loop reads ([DefaultMaxRetries] is
    3). *)
Record Client : Type := mkClient {
  apiKey : string;
  baseURL : string;
  maxRetries : Z
}.

Definition NewClient (apiKey : string) : Client :=
  mkClient apiKey DefaultBaseURL 3.

Section Requests.

Context {V : Type}.
Variable jsonUnmarshal : string -> option V.
Variable jsonErrorBody : string -> option ErrorBody.
Variable StatusText : Z -> string.

(** [parseError(status, body)] *)
Definition parseError (status : Z) (body : string) : Error :=
  let errResp := default zeroErrorBody (jsonErrorBody body) in
  let msg := ebError errResp in
  let msg := if String.eqb msg "" then StatusText status else msg in
  if status =? 400 then
    ValidationError (mkAPIError msg status EmptyString) (ebErrors errResp)
  else if status =? 401 then AuthError (mkAPIError msg status EmptyString)
  else if status =? 403 then ForbiddenError (mkAPIError msg status EmptyString)
  else if status =? 404 then NotFoundError (mkAPIError msg status EmptyString)
  else if status =? 429 then
    RateLimitError (mkAPIError msg status EmptyString) 0
  else BaseError (mkAPIError msg status (ebDetail errResp)).

Record Outcome : Type := mkOutcome {
  err : option Error;
  decoded : option V
}.

Definition failed (e : Error) : Outcome := mkOutcome (Some e) None.

(** [requestWithRetry], by recursion on a bound of the retries left;
    [hasResult] tells a result that is a pointer from a nil result. *)
Fixpoint requestWithRetryFuel (fuel : nat) (c : Client) (call : Call)
  (hasResult : bool) (attempt : Z) : option (Outcome * list Event) :=
  let url := baseURL c +:+ path call in
  if negb (bodyMarshals call) then
    Some (failed (Errorf "failed to marshal request body" "json"), [])
  else if negb (requestBuilds call) then
    Some (failed (Errorf "failed to create request" "http"), [])
  else
    let do := EvDo attempt (method call) url in
    let again (evs : list Event) :=
      match fuel with
      | O => None
      | S fuel' =>
          option_map (prepend (do :: evs))
            (requestWithRetryFuel fuel' c call hasResult (attempt + 1))
      end in
    match Do call attempt with
    | DoError err =>
        if attempt <=? maxRetries c then
          let backoff := calculateBackoff attempt in
          again [EvLog (mkLog LWarn "Network error, retrying"
                          [("error", FString err); ("attempt", FInt attempt);
                           ("backoff", FDuration backoff)]);
                 EvSleep backoff]
        else Some (failed (NetworkError err), [do])
    | DoResponse resp =>
        match Body resp with
        | None => Some (failed (Errorf "failed to read response" "io"), [do])
        | Some respBody =>
            if (StatusCode resp =? 429) && (attempt <=? maxRetries c) then
              let retryAfter := parseRetryAfter (HeaderGet resp "Retry-After") in
              again [EvLog (mkLog LWarn "Rate limited, retrying"
                              [("retry_after", FDuration retryAfter);
                               ("attempt", FInt attempt)]);
                     EvSleep retryAfter]
            else if (500 <=? StatusCode resp) && (attempt <=? maxRetries c) then
              let backoff := calculateBackoff attempt in
              again [EvLog (mkLog LWarn "Server error, retrying"
                              [("status", FInt (StatusCode resp));
                               ("attempt", FInt attempt);
                               ("backoff", FDuration backoff)]);
                     EvSleep backoff]
            else if 400 <=? StatusCode resp then
              Some (failed (parseError (StatusCode resp) respBody), [do])
            else if hasResult && negb (String.eqb respBody "") then
              match jsonUnmarshal respBody with
              | None =>
                  Some (failed (Errorf "failed to parse response" "json"), [do])
              | Some result => Some (mkOutcome None (Some result), [do])
              end
            else Some (mkOutcome None None, [do])
        end
    end.

Definition requestWithRetry (c : Client) (call : Call) (hasResult : bool)
  (attempt : Z) : option (Outcome * list Event) :=
  requestWithRetryFuel (Z.to_nat (maxRetries c - attempt + 1)) c call hasResult
    attempt.

(** [c.request(ctx, method, path, body, result)] *)
Definition request (c : Client) (call : Call) (hasResult : bool)
  : option (Outcome * list Event) :=
  requestWithRetry c call hasResult 1.

(** What the loop returns from an answer that it does not retry. *)
Definition finish (hasResult : bool) (r : DoResult) : Outcome :=
  match r with
  | DoError err => failed (NetworkError err)
  | DoResponse resp =>
      match Body resp with
      | None => failed (Errorf "failed to read response" "io")
      | Some respBody =>
          if 400 <=? StatusCode resp then
            failed (parseError (StatusCode resp) respBody)
          else if hasResult && negb (String.eqb respBody "") then
            match jsonUnmarshal respBody with
            | None => failed (Errorf "failed to parse response" "json")
            | Some result => mkOutcome None (Some result)
            end
          else mkOutcome None None
      end
  end.

(** [SchemasClient.Delete(ctx, id)] of the earlier services. *)
Definition SchemasClient_Delete (c : Client) (id : string) (w : Answers)
  : option (Outcome * list Event) :=
  request c (callOf "DELETE" ("/api/v1/schemas/" +:+ id) false false w) false.

End Requests.

End Legacy.

(** ** Concrete clients, caches and calls used to run the code *)

(** An entry that expires in the year 2100. *)
Definition freshEntry (v : string) : CacheEntry string :=
  mkEntry v 4102444800 noDirectives.

(** An entry that expires at 1700000000, alone in a cache. *)
Definition expiringEntry : CacheEntry string :=
  mkEntry "v" 1700000000 noDirectives.

Definition expiringCache : MemoryCache string :=
  mkCache {["key" := expiringEntry]} ["key"] 10.

(** A cache of capacity 2 holding key1 then key2. *)
Definition twoKeys : MemoryCache string :=
  runOps (mkCache ∅ [] 2)
         [OpSet "key1" (freshEntry "v1"); OpSet "key2" (freshEntry "v2")].

(** A 429 whose Retry-After is no integer and whose body is no JSON. *)
Definition rateLimitedResponse : Response :=
  mkResponse 429 {["Retry-After" := "soon"]} (Some "<html>").

(** A client just made by [NewClient]. *)
Definition newClient : Client (V:=string) := NewClient "key" "Refyne-SDK-Go".

(** A client configured with [WithMaxRetries(35)] and a transport that is
    down: every attempt ends in a network error. *)
Definition patientClient : Client (V:=string) := WithMaxRetries 35 newClient.

Definition downCall : Call :=
  mkCall "GET" "/api/v1/usage" true true false 0 0
         (fun _ => DoError "connection refused").

(** A codec of the result type [string]: every value marshals to itself,
    and only a JSON object decodes into the result. *)
Definition marshalText (v : string) : option string := Some v.

Definition unmarshalObject (data : string) : option string :=
  if HasPrefix data "{" then Some data else None.

(** A client whose cache holds, under the key of GET /api/v1/usage, a fresh
    entry whose value is a JSON array, and a transport that would answer
    200 with a JSON object. *)
Definition usageKey : string :=
  GenerateCacheKey "GET" "https://api.refyne.uk/api/v1/usage"
                   (hashString "key").

Definition staleShapeClient : Client (V:=string) :=
  withCache newClient
            (mkCache {[usageKey := freshEntry "[1,2,3]"]} [usageKey] 100).

Definition usageCall : Call :=
  mkCall "GET" "/api/v1/usage" true true false 1700000000 1700000000
         (fun _ => DoResponse (mkResponse 200 ∅ (Some "{}"))).

(** A call answered 200 with a version header. *)
Definition versionedCall : Call :=
  mkCall "GET" "/api/v1/usage" true true false 1700000000 1700000000
         (fun _ => DoResponse
                     (mkResponse 200 {["X-API-Version" := "1.4.2"]} (Some "{}"))).

(** A call answered 200 with a version header and a freshness window of an
    hour. *)
Definition cacheableCall : Call :=
  mkCall "GET" "/api/v1/usage" true true false 1700000000 1700000000
         (fun _ => DoResponse
                     (mkResponse 200
                        {["X-API-Version" := "1.4.2";
                          "Cache-Control" := "private, max-age=3600"]}
                        (Some "{}"))).

(** A POST answered 200. *)
Definition postCall : Call :=
  mkCall "POST" "/api/v1/extract" true true false 1700000000 1700000000
         (fun _ => DoResponse (mkResponse 200 ∅ (Some "{}"))).

(** A 200 that may be cached for an hour, and the entry made of it. *)
Definition cacheableResponse : Response :=
  mkResponse 200
    {["X-API-Version" := "1.4.2"; "Cache-Control" := "private, max-age=3600"]}
    (Some "{}").

Definition cachedEntry : CacheEntry string :=
  mkEntry "{}" 1700003600 (mkDirectives false false true (Some 3600) None).

(** Collaborators that accept every request and answer 200. *)
Definition okAnswers : Answers :=
  mkAnswers true true 1700000000 1700000000
            (fun _ => DoResponse (mkResponse 200 ∅ (Some "{}"))).

(** A client whose cache holds a fresh entry for GET /api/v1/schemas/s1. *)
Definition schemaKey : string :=
  GenerateCacheKey "GET" "https://api.refyne.uk/api/v1/schemas/s1"
                   (hashString "key").

Definition schemaClient : Client (V:=string) :=
  withCache newClient
            (mkCache {[schemaKey := freshEntry "{}"]} [schemaKey] 100).

(** * Properties *)

(** ** 64-bit arithmetic *)

Lemma wrap64_inRange z : inRange64 z -> wrap64 z = z.
Proof.
  unfold inRange64, wrap64, MinInt64, MaxInt64. intros [Hlo Hhi].
  rewrite Z.mod_small; lia.
Qed.

Lemma wrap64_bounds z : inRange64 (wrap64 z).
Proof.
  unfold inRange64, wrap64, MinInt64, MaxInt64.
  pose proof (Z.mod_pos_bound (z + 2 ^ 63) (2 ^ 64) ltac:(lia)). lia.
Qed.

Lemma add64_inRange a b : inRange64 (a + b) -> add64 a b = a + b.
Proof. apply wrap64_inRange. Qed.

(** ** The in-memory cache *)

Section CacheFacts.

Context {V : Type}.
Implicit Types (c : MemoryCache V) (e : CacheEntry V).
Implicit Types (st : gmap string (CacheEntry V)) (ord : list string).

Lemma removeFirst_notin (k : string) ord : k ∉ ord -> removeFirst k ord = ord.
Proof.
  induction ord as [|x ord IH]; simpl; intros Hk; [done|].
  destruct (String.eqb x k) eqn:E.
  - apply String.eqb_eq in E. subst. exfalso. apply Hk. left.
  - f_equal. apply IH. intros H. apply Hk. by right.
Qed.

Lemma removeFirst_elem (k x : string) ord :
  NoDup ord -> x ∈ removeFirst k ord <-> x ∈ ord /\ x ≠ k.
Proof.
  induction ord as [|y ord IH]; simpl; intros Hnd.
  - split; [inversion 1 | intros [H _]; inversion H].
  - apply NoDup_cons in Hnd as [Hy Hnd].
    destruct (String.eqb y k) eqn:E.
    + apply String.eqb_eq in E. subst y. split.
      * intros Hx. split; [by right|]. intros ->. done.
      * intros [Hx Hne]. apply elem_of_cons in Hx as [->|Hx]; done.
    + apply String.eqb_neq in E. rewrite elem_of_cons, IH by done.
      rewrite elem_of_cons. split.
      * intros [->|[Hx Hne]]; split; auto.
      * intros [[->|Hx] Hne]; auto.
Qed.

Lemma removeFirst_NoDup (k : string) ord :
  NoDup ord -> NoDup (removeFirst k ord).
Proof.
  induction ord as [|y ord IH]; simpl; intros Hnd; [done|].
  pose proof Hnd as Hnd'. apply NoDup_cons in Hnd as [Hy Hnd].
  destruct (String.eqb y k) eqn:E; [done|].
  apply NoDup_cons. split; [|by apply IH].
  rewrite removeFirst_elem by done. intros [H _]. done.
Qed.

Lemma linked_dom st ord : linked st ord -> dom st = list_to_set ord.
Proof.
  intros [_ H]. apply set_eq. intros k.
  rewrite elem_of_dom, elem_of_list_to_set. symmetry. apply H.
Qed.

Lemma linked_size st ord : linked st ord -> size st = length ord.
Proof.
  intros H. rewrite <- size_dom, (linked_dom _ _ H).
  apply size_list_to_set, H.
Qed.

Lemma linked_delete (k : string) st ord :
  linked st ord -> linked (delete k st) (removeFirst k ord).
Proof.
  intros [Hnd H]. split; [by apply removeFirst_NoDup|].
  intros x. rewrite removeFirst_elem by done.
  rewrite lookup_delete_is_Some, H. split; intros [? ?]; split; auto.
Qed.

Lemma linked_delete_head (k : string) st ord :
  linked st (k :: ord) -> linked (delete k st) ord.
Proof.
  intros H. pose proof (linked_delete k _ _ H) as H'.
  simpl in H'. by rewrite String.eqb_refl in H'.
Qed.

Lemma evict_below (N : Z) st ord :
  Z.of_nat (size st) < N -> evict N st ord = (st, ord).
Proof.
  intros H. destruct ord as [|k ord]; simpl; [done|].
  destruct (N <=? Z.of_nat (size st)) eqn:E; [lia|done].
Qed.

Lemma size_delete_head (k : string) st ord :
  linked st (k :: ord) -> size st = S (size (delete k st)).
Proof.
  intros H. rewrite (linked_size _ _ H).
  rewrite (linked_size _ _ (linked_delete_head _ _ _ H)). done.
Qed.

(** At capacity the loop runs once: it drops the oldest key and stops. *)
Lemma evict_full (N : Z) (k : string) st ord :
  linked st (k :: ord) -> 1 <= N -> Z.of_nat (size st) = N ->
  evict N st (k :: ord) = (delete k st, ord).
Proof.
  intros H HN Hsz. simpl.
  destruct (N <=? Z.of_nat (size st)) eqn:E; [|lia].
  apply evict_below. rewrite (size_delete_head _ _ _ H) in Hsz. lia.
Qed.

(** Whatever the loop starts from, it keeps the invariant and leaves room
    for one entry when the capacity is positive. *)
Lemma evict_linked (N : Z) ord : forall st st' ord',
  linked st ord -> evict N st ord = (st', ord') ->
  linked st' ord' /\ (1 <= N -> Z.of_nat (size st') < N).
Proof.
  induction ord as [|k ord IH]; simpl; intros st st' ord' H E.
  - inversion E; subst. split; [done|]. intros HN.
    rewrite (linked_size _ _ H). simpl. lia.
  - destruct (N <=? Z.of_nat (size st)) eqn:E'.
    + eapply IH; [|exact E]. by apply linked_delete_head.
    + inversion E; subst. split; [done|]. lia.
Qed.

Lemma linked_insert (k : string) e st ord :
  linked st ord ->
  linked (<[k := e]> st)
         (match st !! k with Some _ => ord | None => ord ++ [k] end).
Proof.
  intros [Hnd H]. destruct (st !! k) eqn:Ek.
  - split; [done|]. intros x. rewrite lookup_insert_is_Some, H.
    split; [intros Hx; destruct (decide (k = x)); auto|].
    intros [->|[_ Hx]]; [by rewrite Ek|done].
  - assert (k ∉ ord) as Hk. { rewrite H, Ek. by intros [? ?]. }
    split.
    + apply NoDup_app. split; [done|]. split; [|apply NoDup_singleton].
      intros x Hx Hx'. apply list_elem_of_singleton in Hx'. by subst.
    + intros x. rewrite elem_of_app, list_elem_of_singleton.
      rewrite lookup_insert_is_Some, H.
      split.
      * intros [Hx| ->]; [|by left]. destruct (decide (k = x)); auto.
      * intros [->|[_ Hx]]; auto.
Qed.

Lemma Delete_invariant (k : string) c :
  orderMatchesStore c -> orderMatchesStore (Delete k c).
Proof. apply linked_delete. Qed.

Lemma Delete_size (k : string) c : Size (Delete k c) <= Size c.
Proof.
  unfold Size, Delete. simpl.
  destruct (store c !! k) eqn:E.
  - assert (is_Some (store c !! k)) as Hs by eauto.
    pose proof (map_size_delete_Some k (store c) Hs). lia.
  - rewrite delete_id by done. lia.
Qed.

Lemma Set_invariant (k : string) e c :
  orderMatchesStore c -> orderMatchesStore (Set_ k e c).
Proof.
  intros H. unfold Set_. destruct (NoStore (CacheControl e)); [done|].
  destruct (evict (maxEntries c) (store c) (order c)) as [st ord] eqn:E.
  apply (evict_linked _ _ _ _ _ H) in E as [Hl _].
  by apply linked_insert.
Qed.

Lemma Set_capacity (k : string) e c :
  1 <= maxEntries c -> orderMatchesStore c -> withinCapacity c ->
  withinCapacity (Set_ k e c).
Proof.
  intros HN H Hc. unfold Set_. destruct (NoStore (CacheControl e)); [done|].
  destruct (evict (maxEntries c) (store c) (order c)) as [st ord] eqn:E.
  apply (evict_linked _ _ _ _ _ H) in E as [_ Hsz]. specialize (Hsz HN).
  unfold withinCapacity, Size. simpl. rewrite map_size_insert.
  destruct (st !! k); simpl; lia.
Qed.

Lemma runOp_maxEntries c op : maxEntries (runOp c op) = maxEntries c.
Proof.
  destruct op as [now k|k e| |]; simpl; try done.
  - unfold Get. destruct (store c !! k) as [e|]; [|done].
    destruct (ExpiresAt e <? now); [|done].
    destruct (StaleWhileRevalidate (CacheControl e)) as [s|]; [|done].
    by destruct (now <? add64 (ExpiresAt e) s).
  - unfold Set_. destruct (NoStore (CacheControl e)); [done|].
    by destruct (evict (maxEntries c) (store c) (order c)).
Qed.

Lemma Get_cases now (k : string) c :
  snd (Get now k c) = c \/ snd (Get now k c) = Delete k c.
Proof.
  unfold Get. destruct (store c !! k) as [e|]; [|by left].
  destruct (ExpiresAt e <? now); [|by left].
  destruct (StaleWhileRevalidate (CacheControl e)) as [s|]; [|by right].
  destruct (now <? add64 (ExpiresAt e) s); [by left|by right].
Qed.

Lemma runOp_invariant c op :
  1 <= maxEntries c ->
  orderMatchesStore c /\ withinCapacity c ->
  orderMatchesStore (runOp c op) /\ withinCapacity (runOp c op).
Proof.
  intros HN [H Hc]. destruct op as [now k|k e|k|]; simpl.
  - destruct (Get_cases now k c) as [-> | ->]; [done|].
    split; [by apply Delete_invariant|].
    unfold withinCapacity in *. pose proof (Delete_size k c). simpl. lia.
  - split; [by apply Set_invariant | by apply Set_capacity].
  - split; [by apply Delete_invariant|].
    unfold withinCapacity in *. pose proof (Delete_size k c). simpl. lia.
  - split.
    + split; [apply NoDup_nil_2|]. intros x. simpl.
      rewrite lookup_empty. split; [inversion 1 | by intros [? ?]].
    + unfold withinCapacity, Size, Clear. simpl. rewrite map_size_empty. lia.
Qed.

Lemma runOps_invariant ops : forall c,
  1 <= maxEntries c ->
  orderMatchesStore c /\ withinCapacity c ->
  maxEntries (runOps c ops) = maxEntries c /\
  orderMatchesStore (runOps c ops) /\ withinCapacity (runOps c ops).
Proof.
  induction ops as [|op ops IH]; intros c HN H; [done|].
  unfold runOps. simpl. fold (runOps (runOp c op) ops).
  pose proof (runOp_maxEntries c op) as Hm.
  destruct (IH (runOp c op)) as (IH1 & IH2).
  - lia.
  - by apply runOp_invariant.
  - split; [congruence|done].
Qed.

End CacheFacts.

(** ** Claims on the in-memory cache *)

(** C10. A cache made by [NewMemoryCache N] with [N >= 1] keeps, through
    every finite sequence of Get, Set, Delete and Clear, an insertion-order
    list that holds exactly the keys of the store, each exactly once, and
    never more than [N] stored entries. *)
Theorem MemoryCache_invariant (V : Type) (N : Z) (c0 : MemoryCache V)
  (ops : list (CacheOp V)) :
  1 <= N -> NewMemoryCache N = Some c0 ->
  orderMatchesStore (runOps c0 ops) /\ Size (runOps c0 ops) <= N.
Proof.
  intros HN Hnew. unfold NewMemoryCache in Hnew.
  destruct (N <? 0); [discriminate|]. inversion Hnew; subst c0; clear Hnew.
  destruct (runOps_invariant ops (mkCache (V:=V) ∅ [] N)) as (Hm & Hi & Hc).
  - simpl. lia.
  - split.
    + split; [apply NoDup_nil_2|]. intros k. simpl. rewrite lookup_empty.
      split; [inversion 1 | by intros [? ?]].
    + unfold withinCapacity, Size. simpl. rewrite map_size_empty. lia.
  - split; [done|]. unfold withinCapacity in Hc. simpl in Hm. lia.
Qed.

Lemma MemoryCache_invariant_witness :
  orderMatchesStore
    (runOps (mkCache ∅ [] 2)
       [OpSet "key1" (freshEntry "v1"); OpSet "key2" (freshEntry "v2");
        OpGet 4102444801 "key1"; OpSet "key3" (freshEntry "v3");
        OpDelete "key3"; OpClear]) /\
  Size
    (runOps (mkCache ∅ [] 2)
       [OpSet "key1" (freshEntry "v1"); OpSet "key2" (freshEntry "v2");
        OpGet 4102444801 "key1"; OpSet "key3" (freshEntry "v3");
        OpDelete "key3"; OpClear]) <= 2.
Proof.
  apply (MemoryCache_invariant string 2); [lia | reflexivity].
Defined.

(** C5, as the code has it.  For a stored entry read at time [now]: Get
    returns it as long as [ExpiresAt] is not in the past ([ExpiresAt >= now]:
    the entry is still served in the second it expires); once expired
    ([ExpiresAt < now]), Get still returns it, and leaves the cache as it is,
    when stale-while-revalidate is set and [now] lies before
    [ExpiresAt + StaleWhileRevalidate] (the int64 sum, which is the sum of
    the integers whenever that fits); in every other case Get reports
    not-found and deletes the key from the store. *)
Theorem Get_expiry (V : Type) (c : MemoryCache V) (key : string)
  (entry : CacheEntry V) (now : Z) :
  store c !! key = Some entry ->
  (now <= ExpiresAt entry -> Get now key c = (Some entry, c)) /\
  (forall swr,
     ExpiresAt entry < now ->
     StaleWhileRevalidate (CacheControl entry) = Some swr ->
     now < add64 (ExpiresAt entry) swr ->
     Get now key c = (Some entry, c)) /\
  (ExpiresAt entry < now ->
   (forall swr, StaleWhileRevalidate (CacheControl entry) = Some swr ->
                add64 (ExpiresAt entry) swr <= now) ->
   Get now key c = (None, Delete key c) /\
   store (Delete key c) !! key = None /\
   (forall k, k <> key -> store (Delete key c) !! k = store c !! k)) /\
  (forall swr, inRange64 (ExpiresAt entry + swr) ->
               add64 (ExpiresAt entry) swr = ExpiresAt entry + swr).
Proof.
  intros Hk. unfold Get. rewrite Hk. repeat split.
  - intros H. destruct (ExpiresAt entry <? now) eqn:E; [lia|done].
  - intros swr H Hs Hw. destruct (ExpiresAt entry <? now) eqn:E; [|lia].
    rewrite Hs. destruct (now <? add64 (ExpiresAt entry) swr) eqn:E'; [done|lia].
  - destruct (ExpiresAt entry <? now) eqn:E; [|lia].
    destruct (StaleWhileRevalidate (CacheControl entry)) as [s|]; [|done].
    specialize (H0 s eq_refl).
    destruct (now <? add64 (ExpiresAt entry) s) eqn:E'; [lia|done].
  - simpl. apply lookup_delete_eq.
  - intros k Hne. simpl. by apply lookup_delete_ne.
  - intros swr. apply add64_inRange.
Qed.

Lemma Get_expiry_witness :
  Get 4102444801 "key1" twoKeys = (None, Delete "key1" twoKeys) /\
  Get 4102444800 "key1" twoKeys = (Some (freshEntry "v1"), twoKeys).
Proof.
  assert (store twoKeys !! "key1" = Some (freshEntry "v1")) as Hk
    by (vm_compute; reflexivity).
  destruct (Get_expiry string twoKeys "key1" (freshEntry "v1") 4102444801 Hk)
    as (_ & _ & Hgone & _).
  destruct (Get_expiry string twoKeys "key1" (freshEntry "v1") 4102444800 Hk)
    as (Hfresh & _).
  split.
  - apply Hgone; [simpl; lia | simpl; discriminate].
  - apply Hfresh. simpl. lia.
Defined.

(** C5 as stated fails at the instant of expiry: [ExpiresAt] is not in the
    future of [now], no stale-while-revalidate is set, and Get still finds
    the entry and deletes nothing. *)
Lemma Get_at_expiry_instant :
  ~ (1700000000 < ExpiresAt expiringEntry) /\
  StaleWhileRevalidate (CacheControl expiringEntry) = None /\
  store expiringCache !! "key" = Some expiringEntry /\
  Get 1700000000 "key" expiringCache = (Some expiringEntry, expiringCache).
Proof. vm_compute. repeat split; try reflexivity. discriminate. Qed.

(** C4 (second half), the code at its failing input.  A cache of capacity 2
    holds key1 then key2.  Setting key1 again runs the eviction loop before
    the existence check: key1, the oldest, is deleted and then appended
    anew, so it moves from the oldest to the newest position and the next
    new key evicts key2 in its place.  Setting key2 again evicts key1
    although no key is added. *)
Theorem Set_existing_key_at_capacity :
  order twoKeys = ["key1"; "key2"] /\
  order (Set_ "key1" (freshEntry "v1'") twoKeys) = ["key2"; "key1"] /\
  order (Set_ "key3" (freshEntry "v3")
           (Set_ "key1" (freshEntry "v1'") twoKeys)) = ["key1"; "key3"] /\
  order (Set_ "key2" (freshEntry "v2'") twoKeys) = ["key2"] /\
  store (Set_ "key2" (freshEntry "v2'") twoKeys) !! "key1" = None.
Proof. vm_compute. repeat split; reflexivity. Qed.

(** ** The Cache-Control parser *)

Ltac each_byte c :=
  destruct c as [[] [] [] [] [] [] [] []]; vm_compute; try reflexivity;
  try discriminate.

Lemma lowerByte_comma c : Ascii.eqb (lowerByte c) "," = Ascii.eqb c ",".
Proof. each_byte c. Qed.

Lemma lowerByte_upperByte c : lowerByte (upperByte c) = lowerByte c.
Proof. each_byte c. Qed.

Lemma lowerByte_idem c : lowerByte (lowerByte c) = lowerByte c.
Proof. each_byte c. Qed.

Lemma lowerByte_space c : isSpace c = true -> lowerByte c = c.
Proof. each_byte c. Qed.

Lemma Split_nonempty s sep : Split s sep <> [].
Proof.
  destruct s as [|c s]; simpl; [done|].
  destruct (Ascii.eqb c sep); [done|]. by destruct (Split s sep).
Qed.

Lemma Split_ToLower s : Split (ToLower s) "," = map ToLower (Split s ",").
Proof.
  induction s as [|c s IH]; simpl; [done|].
  rewrite lowerByte_comma. destruct (Ascii.eqb c ","); simpl.
  - by rewrite IH.
  - rewrite IH. pose proof (Split_nonempty s ",") as Hne.
    destruct (Split s ","); [done|]. done.
Qed.

Lemma ToLower_app a b : ToLower (a +:+ b) = ToLower a +:+ ToLower b.
Proof. induction a as [|c a IH]; simpl; [done|]. by rewrite IH. Qed.

Lemma ToLower_allSpace l : allSpace l = true -> ToLower l = l.
Proof.
  induction l as [|c l IH]; simpl; [done|].
  intros H. apply andb_true_iff in H as [Hc Hl].
  by rewrite lowerByte_space, IH.
Qed.

Lemma caseVariant_ToLower t u : caseVariant t u -> ToLower u = ToLower t.
Proof.
  induction 1; simpl; [done| |rewrite lowerByte_upperByte|rewrite lowerByte_idem];
    by f_equal.
Qed.

Lemma TrimLeft_allSpace l : allSpace l = true -> TrimLeft l = EmptyString.
Proof.
  induction l as [|c l IH]; simpl; [done|].
  intros H. apply andb_true_iff in H as [Hc Hl]. rewrite Hc. by apply IH.
Qed.

Lemma TrimRight_allSpace r : allSpace r = true -> TrimRight r = EmptyString.
Proof.
  induction r as [|c r IH]; simpl; [done|].
  intros H. apply andb_true_iff in H as [Hc Hr]. by rewrite IH, Hc.
Qed.

Lemma TrimLeft_app_l l x : allSpace l = true -> TrimLeft (l +:+ x) = TrimLeft x.
Proof.
  induction l as [|c l IH]; simpl; [done|].
  intros H. apply andb_true_iff in H as [Hc Hl]. rewrite Hc. by apply IH.
Qed.

Lemma TrimRight_app_r x r :
  allSpace r = true -> TrimRight (x +:+ r) = TrimRight x.
Proof.
  intros Hr. induction x as [|c x IH]; simpl.
  - by apply TrimRight_allSpace.
  - by rewrite IH.
Qed.

Lemma TrimSpace_app_r x r :
  allSpace r = true -> TrimSpace (x +:+ r) = TrimSpace x.
Proof.
  intros Hr. unfold TrimSpace. induction x as [|c x IH]; simpl.
  - change (EmptyString +:+ r) with r. by rewrite (TrimLeft_allSpace r Hr).
  - destruct (isSpace c); [done|].
    change (String c (x +:+ r)) with (String c x +:+ r).
    by apply TrimRight_app_r.
Qed.

(** White space around a part is invisible to the loop. *)
Lemma TrimSpace_padded l x r :
  allSpace l = true -> allSpace r = true ->
  TrimSpace (l +:+ x +:+ r) = TrimSpace x.
Proof.
  intros Hl Hr. unfold TrimSpace. rewrite TrimLeft_app_l by done.
  by apply TrimSpace_app_r.
Qed.

Lemma partVariant_normal t t' : partVariant t t' -> normalPart t' = normalPart t.
Proof.
  intros (l & u & r & Hc & Hl & Hr & ->). unfold normalPart.
  rewrite !ToLower_app, (ToLower_allSpace l), (ToLower_allSpace r) by done.
  rewrite TrimSpace_padded by done. by rewrite (caseVariant_ToLower t u).
Qed.

Lemma applyPart_kind d part : applyPart d part = applyKind d (kindOf part).
Proof.
  unfold applyPart, kindOf.
  destruct (String.eqb part "no-store"); [done|].
  destruct (String.eqb part "no-cache"); [done|].
  destruct (String.eqb part "private"); [done|].
  destruct (HasPrefix part "max-age=").
  { by destruct (atoiOk (sliceFrom 8 part)). }
  destruct (HasPrefix part "stale-while-revalidate="); [|done].
  by destruct (atoiOk (sliceFrom 23 part)).
Qed.

(** The parser as a fold over the normalised parts, the empty header
    included. *)
Lemma ParseCacheControl_fold h :
  ParseCacheControl h
  = fold_left applyPart (map normalPart (Split h ",")) noDirectives.
Proof.
  unfold ParseCacheControl. destruct (String.eqb h "") eqn:E.
  - apply String.eqb_eq in E. by subst.
  - rewrite Split_ToLower. generalize noDirectives.
    induction (Split h ",") as [|p ps IH]; intros d; simpl; [done|].
    by rewrite IH.
Qed.

Lemma applyKind_swap d k1 k2 :
  sameValue k1 k2 ->
  applyKind (applyKind d k1) k2 = applyKind (applyKind d k2) k1.
Proof. destruct k1, k2; simpl; intros H; subst; reflexivity. Qed.

Lemma sameValue_sym k1 k2 : sameValue k1 k2 -> sameValue k2 k1.
Proof. destruct k1, k2; simpl; auto. Qed.

(** Parts that agree on the values they give can be processed in any
    order. *)
Lemma fold_applyPart_Permutation ps qs :
  Permutation ps qs ->
  (forall p1 p2, p1 ∈ ps -> p2 ∈ ps -> sameValue (kindOf p1) (kindOf p2)) ->
  forall d, fold_left applyPart ps d = fold_left applyPart qs d.
Proof.
  induction 1 as [|x l l' Hp IH|x y l|l l' l'' Hp1 IH1 Hp2 IH2];
    intros Hsv d; simpl.
  - done.
  - apply IH. intros p1 p2 H1 H2. apply Hsv; by right.
  - f_equal. rewrite !applyPart_kind. apply applyKind_swap.
    apply Hsv; [left | right; left].
  - rewrite IH1 by done. apply IH2.
    intros p1 p2 H1 H2. apply Hsv; by rewrite Hp1.
Qed.

(** Ignored parts can be dropped. *)
Lemma fold_applyPart_recognised ps : forall d,
  fold_left applyPart ps d
  = fold_left applyPart (filter (fun p => recognised p = true) ps) d.
Proof.
  induction ps as [|p ps IH]; intros d; simpl; [done|].
  rewrite filter_cons. destruct (decide (recognised p = true)) as [Hr|Hr].
  - simpl. apply IH.
  - rewrite applyPart_kind. unfold recognised in Hr.
    destruct (kindOf p); try done.
Qed.

Lemma caseVariant_refl t : caseVariant t t.
Proof. induction t; constructor; done. Qed.

Lemma append_empty_r t : t +:+ EmptyString = t.
Proof.
  induction t as [|c t IH]; [done|].
  change (String c t +:+ EmptyString) with (String c (t +:+ EmptyString)).
  by rewrite IH.
Qed.

Lemma partVariant_refl t : partVariant t t.
Proof.
  exists EmptyString, t, EmptyString. split; [apply caseVariant_refl|].
  split; [done|]. split; [done|].
  change (EmptyString +:+ t +:+ EmptyString) with (t +:+ EmptyString).
  by rewrite append_empty_r.
Qed.

Lemma Forall2_partVariant_normal ts ts' :
  Forall2 partVariant ts ts' -> map normalPart ts' = map normalPart ts.
Proof.
  induction 1 as [|t t' ts ts' H _ IH]; simpl; [done|].
  by rewrite (partVariant_normal t t' H), IH.
Qed.

Lemma fold_applyPart_MaxAge ps : forall d,
  (forall p v, p ∈ ps -> kindOf p <> KMaxAge v) ->
  MaxAge (fold_left applyPart ps d) = MaxAge d.
Proof.
  induction ps as [|p ps IH]; intros d H; simpl; [done|].
  rewrite IH by (intros q v Hq; apply H; by right).
  rewrite applyPart_kind. pose proof (H p) as Hp.
  destruct (kindOf p); simpl; try done.
  exfalso. eapply Hp; [left|done].
Qed.

Lemma fold_applyPart_Stale ps : forall d,
  (forall p v, p ∈ ps -> kindOf p <> KStale v) ->
  StaleWhileRevalidate (fold_left applyPart ps d) = StaleWhileRevalidate d.
Proof.
  induction ps as [|p ps IH]; intros d H; simpl; [done|].
  rewrite IH by (intros q v Hq; apply H; by right).
  rewrite applyPart_kind. pose proof (H p) as Hp.
  destruct (kindOf p); simpl; try done.
  exfalso. eapply Hp; [left|done].
Qed.

(** C9, as the code has it.  For ASCII headers [h] and [h']: when the parts
    of [h'] are those of [h], each with white space added around it and
    letters changed in case, both headers parse to the same directives; so
    they do when the parts are moreover taken in any order, provided no two
    parts of [h] give max-age (or stale-while-revalidate) two different
    values.  The parser is total; a part that is no recognised token, or a
    recognised name with a value that is no integer, does not count: the
    result is the fold over the recognised parts alone, and a directive
    that no part gives a value stays unset. *)
Theorem ParseCacheControl_rearranged (h h' : string) :
  isASCII h = true -> isASCII h' = true ->
  (Forall2 partVariant (Split h ",") (Split h' ",") ->
   ParseCacheControl h' = ParseCacheControl h) /\
  (rearranged h h' -> singleValued (Split h ",") ->
   ParseCacheControl h' = ParseCacheControl h) /\
  ParseCacheControl h
  = fold_left applyKind
      (map kindOf
         (filter (fun p => recognised p = true)
                 (map normalPart (Split h ","))))
      noDirectives /\
  ((forall p v, p ∈ Split h "," -> kindOf (normalPart p) <> KMaxAge v) ->
   MaxAge (ParseCacheControl h) = None) /\
  ((forall p v, p ∈ Split h "," -> kindOf (normalPart p) <> KStale v) ->
   StaleWhileRevalidate (ParseCacheControl h) = None).
Proof.
  intros _ _. split; [|split; [|split; [|split]]].
  - intros Hvar. rewrite !ParseCacheControl_fold.
    by rewrite (Forall2_partVariant_normal _ _ Hvar).
  - intros (ts & Hperm & Hvar) Hsv. rewrite !ParseCacheControl_fold.
    rewrite (Forall2_partVariant_normal _ _ Hvar). symmetry.
    apply fold_applyPart_Permutation; [by apply Permutation_map|].
    intros p1 p2 H1 H2.
    apply list_elem_of_fmap in H1 as (q1 & -> & H1).
    apply list_elem_of_fmap in H2 as (q2 & -> & H2).
    by apply Hsv.
  - rewrite ParseCacheControl_fold, fold_applyPart_recognised.
    generalize noDirectives.
    induction (filter _ _) as [|p ps IH]; intros d; simpl; [done|].
    by rewrite applyPart_kind, IH.
  - intros H. rewrite ParseCacheControl_fold, fold_applyPart_MaxAge; [done|].
    intros p v Hp. apply list_elem_of_fmap in Hp as (q & -> & Hq). by apply H.
  - intros H. rewrite ParseCacheControl_fold, fold_applyPart_Stale; [done|].
    intros p v Hp. apply list_elem_of_fmap in Hp as (q & -> & Hq). by apply H.
Qed.

Ltac case_variant :=
  repeat first [apply cv_nil | apply cv_keep | apply cv_upper | apply cv_lower].

Ltac elem_cases H :=
  repeat (apply elem_of_cons in H as [->|H]); [..|by apply elem_of_nil in H].

Lemma ParseCacheControl_rearranged_witness :
  ParseCacheControl " MAX-AGE=3600 ,Private,bogus,S-MaxAge=x"
  = ParseCacheControl "bogus,private, max-age=3600,s-maxage=x".
Proof.
  refine (proj1 (proj2 (ParseCacheControl_rearranged
                          "bogus,private, max-age=3600,s-maxage=x"
                          " MAX-AGE=3600 ,Private,bogus,S-MaxAge=x"
                          eq_refl eq_refl)) _ _).
  - exists [" max-age=3600"; "private"; "bogus"; "s-maxage=x"]. split.
    + change (Split "bogus,private, max-age=3600,s-maxage=x" ",")
        with ["bogus"; "private"; " max-age=3600"; "s-maxage=x"].
      etransitivity; [apply perm_swap|]. etransitivity; [|apply perm_swap].
      apply perm_skip, perm_swap.
    + change (Split " MAX-AGE=3600 ,Private,bogus,S-MaxAge=x" ",")
        with [" MAX-AGE=3600 "; "Private"; "bogus"; "S-MaxAge=x"].
      constructor; [|constructor; [|constructor; [|constructor; [|constructor]]]].
      * exists EmptyString, " MAX-AGE=3600", " ".
        split; [case_variant | repeat split].
      * exists EmptyString, "Private", EmptyString.
        split; [case_variant | repeat split].
      * apply partVariant_refl.
      * exists EmptyString, "S-MaxAge=x", EmptyString.
        split; [case_variant | repeat split].
  - change (Split "bogus,private, max-age=3600,s-maxage=x" ",")
      with ["bogus"; "private"; " max-age=3600"; "s-maxage=x"].
    intros p1 p2 H1 H2. elem_cases H1; elem_cases H2; vm_compute;
      first [exact I | reflexivity].
Defined.

(** C9 as stated fails: two max-age parts with different values, in the two
    orders.  The later part wins. *)
Lemma ParseCacheControl_order_dependent :
  Permutation (Split "max-age=1,max-age=2" ",") (Split "max-age=2,max-age=1" ",")
  /\ ParseCacheControl "max-age=1,max-age=2"
     <> ParseCacheControl "max-age=2,max-age=1".
Proof.
  split.
  - change (Permutation ["max-age=1"; "max-age=2"] ["max-age=2"; "max-age=1"]).
    apply perm_swap.
  - vm_compute. discriminate.
Qed.

(** ** What may enter the cache *)

Lemma evict_lookup {V : Type} (N : Z) (ord : list string) :
  forall (st st' : gmap string (CacheEntry V)) ord' k e,
    evict N st ord = (st', ord') -> st' !! k = Some e -> st !! k = Some e.
Proof.
  induction ord as [|o ord IH]; simpl; intros st st' ord' k e E Hk.
  - by inversion E; subst.
  - destruct (N <=? Z.of_nat (size st)).
    + specialize (IH _ _ _ _ _ E Hk).
      apply lookup_delete_Some in IH as [_ IH]. done.
    + by inversion E; subst.
Qed.

Lemma Set_lookup {V : Type} (key : string) (entry : CacheEntry V)
  (c : MemoryCache V) k e :
  store (Set_ key entry c) !! k = Some e ->
  store c !! k = Some e \/
  (k = key /\ e = entry /\ NoStore (CacheControl entry) = false).
Proof.
  unfold Set_. destruct (NoStore (CacheControl entry)) eqn:Ens; [by left|].
  destruct (evict (maxEntries c) (store c) (order c)) as [st ord] eqn:E.
  simpl. intros Hk. destruct (decide (key = k)) as [->|Hne].
  - rewrite lookup_insert_eq in Hk. inversion Hk; subst. by right.
  - rewrite lookup_insert_ne in Hk by done. left.
    by eapply evict_lookup.
Qed.

Lemma CreateCacheEntry_None {V : Type} now (value : V) header :
  NoStore (ParseCacheControl header) = true \/
  MaxAge (ParseCacheControl header) = None ->
  CreateCacheEntry now value header = None.
Proof.
  intros [H|H]; unfold CreateCacheEntry; rewrite H; [done|].
  by destruct (NoStore _).
Qed.

Lemma CreateCacheEntry_Some {V : Type} now (value : V) header entry :
  CreateCacheEntry now value header = Some entry ->
  exists maxAge,
    MaxAge (ParseCacheControl header) = Some maxAge /\
    NoStore (ParseCacheControl header) = false /\
    CacheControl entry = ParseCacheControl header /\
    Value entry = value /\
    ExpiresAt entry = add64 now maxAge /\
    (inRange64 (now + maxAge) -> now + maxAge <= ExpiresAt entry).
Proof.
  unfold CreateCacheEntry.
  destruct (NoStore (ParseCacheControl header)) eqn:Ens; [discriminate|].
  destruct (MaxAge (ParseCacheControl header)) as [m|] eqn:Em; [|discriminate].
  intros H. inversion H; subst; clear H. exists m. simpl.
  repeat split; try done. intros Hr. rewrite add64_inRange by done. lia.
Qed.

Lemma cacheResponse_lookup {V : Type} (c : Client (V:=V)) call key result resp
  k e :
  store (cacheResponse c call key result resp) !! k = Some e ->
  store (cache c) !! k = Some e \/ storable e.
Proof.
  unfold cacheResponse.
  destruct (String.eqb (method call) "GET" && cacheOn c); [|by left].
  destruct (CreateCacheEntry _ _ _) as [entry|] eqn:E; [|by left].
  intros Hk. apply Set_lookup in Hk as [Hk|(-> & -> & Hns)]; [by left|].
  right. apply CreateCacheEntry_Some in E as (m & Hm & _ & Hcc & _).
  unfold storable. rewrite Hcc. split; [|by rewrite Hm]. by rewrite <- Hcc.
Qed.

(** ** Versions *)

Lemma digit_not_sign c :
  isDigit c = true -> Ascii.eqb c "-" = false /\ Ascii.eqb c "+" = false.
Proof. each_byte c; intros; (discriminate || (split; reflexivity)). Qed.

Lemma spanDigits_spec s : forall ds tl,
  spanDigits s = (ds, tl) ->
  allDigits ds = true /\ s = ds +:+ tl /\
  match tl with
  | EmptyString => True
  | String c _ => isDigit c = false
  end.
Proof.
  induction s as [|c s IH]; simpl; intros ds tl E.
  - by inversion E; subst.
  - destruct (isDigit c) eqn:Ec.
    + destruct (spanDigits s) as [ds' tl'] eqn:E'. inversion E; subst.
      destruct (IH _ _ eq_refl) as (H1 & H2 & H3). simpl. rewrite Ec, H1.
      repeat split; [|done]. rewrite H2 at 1. done.
    + inversion E; subst. done.
Qed.

Lemma spanDigits_app ds c tl :
  allDigits ds = true -> isDigit c = false ->
  spanDigits (ds +:+ String c tl) = (ds, String c tl).
Proof.
  intros Hd Hc. induction ds as [|d ds IH].
  - change (EmptyString +:+ String c tl) with (String c tl). simpl. by rewrite Hc.
  - simpl in Hd. apply andb_true_iff in Hd as [Hd Hds].
    change (String d ds +:+ String c tl) with (String d (ds +:+ String c tl)).
    simpl. by rewrite Hd, (IH Hds).
Qed.

Lemma spanDigits_all ds : allDigits ds = true -> spanDigits ds = (ds, EmptyString).
Proof.
  induction ds as [|d ds IH]; simpl; [done|].
  intros H. apply andb_true_iff in H as [Hd Hds]. by rewrite Hd, IH.
Qed.

(** The matcher accepts exactly the strings of the shape of a version. *)
Lemma versionSubmatch_sound v g1 g2 g3 pre :
  versionSubmatch v = Some (g1, g2, g3, pre) ->
  isNumber g1 /\ isNumber g2 /\ isNumber g3 /\
  ((pre = EmptyString /\ v = g1 +:+ "." +:+ g2 +:+ "." +:+ g3) \/
   (pre <> EmptyString /\ noLineFeed pre = true /\
    v = g1 +:+ "." +:+ g2 +:+ "." +:+ g3 +:+ String "-" pre)).
Proof.
  unfold versionSubmatch.
  destruct (spanDigits v) as [a r1] eqn:E1.
  apply spanDigits_spec in E1 as (Ha & -> & _).
  destruct a as [|a0 a]; [done|]. destruct r1 as [|c1 r1]; [done|].
  destruct (Ascii.eqb c1 ".") eqn:Ec1; [|done]. apply Ascii.eqb_eq in Ec1 as ->.
  simpl negb. cbv iota.
  destruct (spanDigits r1) as [b r2] eqn:E2.
  apply spanDigits_spec in E2 as (Hb & -> & _).
  destruct b as [|b0 b]; [done|]. destruct r2 as [|c2 r2]; [done|].
  destruct (Ascii.eqb c2 ".") eqn:Ec2; [|done]. apply Ascii.eqb_eq in Ec2 as ->.
  simpl negb. cbv iota.
  destruct (spanDigits r2) as [c r3] eqn:E3.
  apply spanDigits_spec in E3 as (Hc & -> & _).
  destruct c as [|c0 c]; [done|]. destruct r3 as [|c3 r3].
  - intros H. inversion H; subst. repeat split; try done.
    left. split; [done|]. by rewrite append_empty_r.
  - destruct (Ascii.eqb c3 "-") eqn:Ec3; [|done]. apply Ascii.eqb_eq in Ec3 as ->.
    destruct (String.eqb r3 "") eqn:Er; [done|]. apply String.eqb_neq in Er.
    destruct (noLineFeed r3) eqn:Enl; [|done].
    intros H. inversion H; subst. repeat split; try done.
    right. done.
Qed.

Lemma versionSubmatch_plain g1 g2 g3 :
  isNumber g1 -> isNumber g2 -> isNumber g3 ->
  versionSubmatch (g1 +:+ "." +:+ g2 +:+ "." +:+ g3)
  = Some (g1, g2, g3, EmptyString).
Proof.
  intros [N1 D1] [N2 D2] [N3 D3]. unfold versionSubmatch.
  change ("." +:+ g2 +:+ "." +:+ g3) with (String "." (g2 +:+ String "." g3)).
  rewrite spanDigits_app by done.
  destruct g1 as [|a0 a]; [done|].
  change (Ascii.eqb "." ".") with true. cbv iota beta. simpl negb. cbv iota.
  rewrite spanDigits_app by done.
  destruct g2 as [|b0 b]; [done|].
  change (Ascii.eqb "." ".") with true. simpl negb. cbv iota.
  rewrite spanDigits_all by done.
  by destruct g3 as [|c0 c].
Qed.

Lemma versionSubmatch_pre g1 g2 g3 pre :
  isNumber g1 -> isNumber g2 -> isNumber g3 ->
  pre <> EmptyString -> noLineFeed pre = true ->
  versionSubmatch (g1 +:+ "." +:+ g2 +:+ "." +:+ g3 +:+ String "-" pre)
  = Some (g1, g2, g3, pre).
Proof.
  intros [N1 D1] [N2 D2] [N3 D3] Np Hp. unfold versionSubmatch.
  change ("." +:+ g2 +:+ "." +:+ g3 +:+ String "-" pre)
    with (String "." (g2 +:+ String "." (g3 +:+ String "-" pre))).
  rewrite spanDigits_app by done.
  destruct g1 as [|a0 a]; [done|].
  change (Ascii.eqb "." ".") with true. cbv iota beta. simpl negb. cbv iota.
  rewrite spanDigits_app by done.
  destruct g2 as [|b0 b]; [done|].
  change (Ascii.eqb "." ".") with true. simpl negb. cbv iota.
  rewrite spanDigits_app by done.
  destruct g3 as [|c0 c]; [done|].
  change (Ascii.eqb "-" "-") with true. rewrite Hp.
  destruct (String.eqb pre "") eqn:E; [apply String.eqb_eq in E; done|done].
Qed.

Lemma versionSubmatch_None v : versionSubmatch v = None <-> ~ isVersion v.
Proof.
  split.
  - intros Hn (g1 & g2 & g3 & rest & H1 & H2 & H3 & -> & [->|(pre & -> & Hp & Hl)]).
    + rewrite append_empty_r in Hn. by rewrite versionSubmatch_plain in Hn.
    + by rewrite versionSubmatch_pre in Hn.
  - intros Hn. destruct (versionSubmatch v) as [[[[g1 g2] g3] pre]|] eqn:E; [|done].
    exfalso. apply Hn. apply versionSubmatch_sound in E
      as (H1 & H2 & H3 & [[-> ->]|(Hp & Hl & ->)]).
    + exists g1, g2, g3, EmptyString. rewrite append_empty_r.
      split; [done|]. split; [done|]. split; [done|]. split; [done|]. by left.
    + exists g1, g2, g3, (String "-" pre).
      split; [done|]. split; [done|]. split; [done|]. split; [done|].
      right. by exists pre.
Qed.

Lemma parseUintLoop_nonneg s : forall n m,
  0 <= n -> parseUintLoop n s = inl m -> 0 <= m.
Proof.
  induction s as [|c s IH]; simpl; intros n m Hn E.
  - inversion E; lia.
  - destruct (isDigit c) eqn:Ec; [|done].
    destruct (MaxUint64 / 10 + 1 <=? n); [done|].
    destruct (MaxUint64 <? n * 10 + (byteOf c - 48)); [done|].
    eapply IH; [|exact E]. unfold isDigit in Ec.
    apply andb_true_iff in Ec as [E1 E2]. lia.
Qed.

Lemma Atoi_nonneg c rest : isDigit c = true -> 0 <= fst (Atoi (String c rest)).
Proof.
  intros Hc. unfold Atoi, ParseInt.
  destruct (digit_not_sign c Hc) as [-> ->]. simpl orb. cbv iota.
  unfold ParseUint.
  destruct (parseUintLoop 0 (String c rest)) as [n|[]] eqn:E.
  - apply parseUintLoop_nonneg in E; [|lia]. simpl negb. simpl andb.
    destruct (2 ^ 63 <=? n); simpl; [unfold MaxInt64; lia | lia].
  - simpl. lia.
  - simpl negb. simpl andb. unfold MaxUint64.
    destruct (2 ^ 63 <=? 2 ^ 64 - 1) eqn:E'; simpl; [unfold MaxInt64|]; lia.
Qed.

Lemma isNumber_head g :
  isNumber g -> exists c rest, g = String c rest /\ isDigit c = true.
Proof.
  intros [Hn Hd]. destruct g as [|c rest]; [done|].
  simpl in Hd. apply andb_true_iff in Hd as [Hc _]. eauto.
Qed.

Lemma ParseVersion_nonneg v :
  let '(major, minor, patch, _) := ParseVersion v in
  0 <= major /\ 0 <= minor /\ 0 <= patch.
Proof.
  unfold ParseVersion.
  destruct (versionSubmatch v) as [[[[g1 g2] g3] pre]|] eqn:E; [|lia].
  apply versionSubmatch_sound in E as (H1 & H2 & H3 & _).
  apply isNumber_head in H1 as (c1 & r1 & -> & D1).
  apply isNumber_head in H2 as (c2 & r2 & -> & D2).
  apply isNumber_head in H3 as (c3 & r3 & -> & D3).
  repeat split; by apply Atoi_nonneg.
Qed.

Lemma ParseVersion_zero : ParseVersion "0.0.0" = (0, 0, 0, EmptyString).
Proof. vm_compute. reflexivity. Qed.

Lemma CompareVersions_order a b :
  (CompareVersions a b = -1 <-> tripleLt (versionTriple a) (versionTriple b)) /\
  (CompareVersions a b = 0 <-> versionTriple a = versionTriple b) /\
  (CompareVersions a b = 1 <-> tripleLt (versionTriple b) (versionTriple a)) /\
  (CompareVersions a b < 0 <-> CompareVersions a b = -1).
Proof.
  unfold CompareVersions, versionTriple, tripleLt.
  destruct (ParseVersion a) as [[[a1 a2] a3] ap].
  destruct (ParseVersion b) as [[[b1 b2] b3] bp].
  destruct (a1 =? b1) eqn:E1; simpl;
    [destruct (a2 =? b2) eqn:E2; simpl;
       [destruct (a3 =? b3) eqn:E3; simpl;
          [|destruct (a3 <? b3) eqn:L3]
       |destruct (a2 <? b2) eqn:L2]
    |destruct (a1 <? b1) eqn:L1];
    repeat split; intros H; try lia; try (inversion H; lia);
      try (f_equal; [f_equal|]; lia).
Qed.

(** With the constants of the source the check cannot fail: no version
    compares below 0.0.0. *)
Lemma CompareVersions_zero v : 0 <= CompareVersions v "0.0.0".
Proof.
  unfold CompareVersions. rewrite ParseVersion_zero.
  pose proof (ParseVersion_nonneg v) as H.
  destruct (ParseVersion v) as [[[a1 a2] a3] ap]. destruct H as (H1 & H2 & H3).
  destruct (a1 =? 0) eqn:E1; simpl;
    [destruct (a2 =? 0) eqn:E2; simpl;
       [destruct (a3 =? 0) eqn:E3; simpl; [lia|destruct (a3 <? 0) eqn:L3]
       |destruct (a2 <? 0) eqn:L2]
    |destruct (a1 <? 0) eqn:L1]; lia.
Qed.

Lemma CheckAPIVersionCompatibility_never_fails v :
  fst (CheckAPIVersionCompatibility v) = None.
Proof.
  unfold CheckAPIVersionCompatibility, CheckAPIVersionCompatibilityFor.
  unfold MinAPIVersion. pose proof (CompareVersions_zero v).
  destruct (CompareVersions v "0.0.0" <? 0) eqn:E; [lia|].
  destruct (ParseVersion v) as [[[a1 a2] a3] ap].
  destruct (ParseVersion MaxKnownAPIVersion) as [[[b1 b2] b3] bp].
  by destruct (b1 <? a1).
Qed.

Lemma tripleLt_major_le x y :
  ~ tripleLt y x -> fst (fst x) <= fst (fst y).
Proof.
  destruct x as [[a1 a2] a3], y as [[b1 b2] b3]. unfold tripleLt. simpl. lia.
Qed.

Lemma tripleLt_major x y : tripleLt x y -> fst (fst x) <= fst (fst y).
Proof.
  destruct x as [[a1 a2] a3], y as [[b1 b2] b3]. unfold tripleLt. simpl. lia.
Qed.

Lemma majorOf_triple v : majorOf v = fst (fst (versionTriple v)).
Proof.
  unfold majorOf, versionTriple. by destruct (ParseVersion v) as [[[a b] c] p].
Qed.

Lemma CheckFor_cases minVersion maxKnownVersion apiVersion :
  CheckAPIVersionCompatibilityFor minVersion maxKnownVersion apiVersion
  = if CompareVersions apiVersion minVersion <? 0 then
      (Some (UnsupportedAPIVersionError apiVersion minVersion maxKnownVersion),
       [])
    else if majorOf maxKnownVersion <? majorOf apiVersion then
      (None,
       [mkLog LWarn
          ("API version " +:+ apiVersion +:+
           " is newer than this SDK was built for (" +:+ maxKnownVersion +:+
           "). There may be breaking changes. Consider upgrading the SDK.")
          [("apiVersion", FString apiVersion);
           ("sdkVersion", FString SDKVersion);
           ("maxKnownVersion", FString maxKnownVersion)]])
    else (None, []).
Proof.
  unfold CheckAPIVersionCompatibilityFor, majorOf.
  destruct (CompareVersions apiVersion minVersion <? 0); [done|].
  destruct (ParseVersion apiVersion) as [[[a1 a2] a3] ap].
  by destruct (ParseVersion maxKnownVersion) as [[[b1 b2] b3] bp].
Qed.

(** C8. The check of a server version against a minimum and a maximum
    known version.  A version below the minimum in semantic-version order
    (major, then minor, then patch) fails with UnsupportedAPIVersion.  A
    version whose major exceeds the maximum known major succeeds and hands
    one warning to the logger; it cannot fail when the minimum does not
    exceed the maximum, as with the constants of the source, for which the
    check never fails at all.  A string that is no numeric
    major.minor.patch counts as 0.0.0.  A pre-release suffix is parsed and
    has no part in the comparison. *)
Theorem CheckAPIVersionCompatibility_spec
  (minVersion maxKnownVersion apiVersion : string) :
  (tripleLt (versionTriple apiVersion) (versionTriple minVersion) ->
   CheckAPIVersionCompatibilityFor minVersion maxKnownVersion apiVersion
   = (Some (UnsupportedAPIVersionError apiVersion minVersion maxKnownVersion),
      [])) /\
  (~ tripleLt (versionTriple maxKnownVersion) (versionTriple minVersion) ->
   majorOf maxKnownVersion < majorOf apiVersion ->
   exists msg fields,
     CheckAPIVersionCompatibilityFor minVersion maxKnownVersion apiVersion
     = (None, [mkLog LWarn msg fields])) /\
  (~ tripleLt (versionTriple apiVersion) (versionTriple minVersion) ->
   majorOf apiVersion <= majorOf maxKnownVersion ->
   CheckAPIVersionCompatibilityFor minVersion maxKnownVersion apiVersion
   = (None, [])) /\
  fst (CheckAPIVersionCompatibility apiVersion) = None /\
  (majorOf MaxKnownAPIVersion < majorOf apiVersion ->
   exists msg fields,
     CheckAPIVersionCompatibility apiVersion
     = (None, [mkLog LWarn msg fields])) /\
  (~ isVersion apiVersion ->
   ParseVersion apiVersion = (0, 0, 0, EmptyString) /\
   versionTriple apiVersion = versionTriple "0.0.0") /\
  (forall g1 g2 g3 pre,
     isNumber g1 -> isNumber g2 -> isNumber g3 ->
     pre <> EmptyString -> noLineFeed pre = true ->
     apiVersion = g1 +:+ "." +:+ g2 +:+ "." +:+ g3 +:+ String "-" pre ->
     ParseVersion apiVersion = (fst (Atoi g1), fst (Atoi g2), fst (Atoi g3), pre)
     /\ versionTriple apiVersion
        = versionTriple (g1 +:+ "." +:+ g2 +:+ "." +:+ g3)).
Proof.
  pose proof (CompareVersions_order apiVersion minVersion)
    as (Hlt & _ & _ & Hneg).
  assert (Hwarn : forall minV,
    ~ tripleLt (versionTriple maxKnownVersion) (versionTriple minV) ->
    majorOf maxKnownVersion < majorOf apiVersion ->
    (CompareVersions apiVersion minV <? 0) = false).
  { intros minV Hmm Hmaj.
    destruct (CompareVersions apiVersion minV <? 0) eqn:E; [|done].
    exfalso. apply Z.ltb_lt in E.
    pose proof (CompareVersions_order apiVersion minV) as (Hlt' & _ & _ & Hneg').
    apply Hneg', Hlt', tripleLt_major in E.
    apply tripleLt_major_le in Hmm. rewrite !majorOf_triple in Hmaj. lia. }
  split; [|split; [|split; [|split; [|split; [|split]]]]].
  - intros H. rewrite CheckFor_cases.
    apply Hlt in H. rewrite H. done.
  - intros Hmm Hmaj. rewrite CheckFor_cases, (Hwarn _ Hmm Hmaj).
    destruct (majorOf maxKnownVersion <? majorOf apiVersion) eqn:E; [|lia].
    eauto.
  - intros Hnlt Hmaj. rewrite CheckFor_cases.
    destruct (CompareVersions apiVersion minVersion <? 0) eqn:E.
    + exfalso. apply Hnlt, Hlt, Hneg. lia.
    + destruct (majorOf maxKnownVersion <? majorOf apiVersion) eqn:E'; [lia|done].
  - apply CheckAPIVersionCompatibility_never_fails.
  - intros Hmaj. unfold CheckAPIVersionCompatibility.
    rewrite CheckFor_cases.
    pose proof (CompareVersions_zero apiVersion). unfold MinAPIVersion.
    destruct (CompareVersions apiVersion "0.0.0" <? 0) eqn:E; [lia|].
    destruct (majorOf MaxKnownAPIVersion <? majorOf apiVersion) eqn:E'; [|lia].
    eauto.
  - intros Hnv. apply versionSubmatch_None in Hnv.
    unfold versionTriple, ParseVersion. rewrite Hnv. done.
  - intros g1 g2 g3 pre H1 H2 H3 Hp Hl ->.
    unfold versionTriple, ParseVersion.
    rewrite versionSubmatch_pre, versionSubmatch_plain by done. done.
Qed.

Example CheckAPIVersionCompatibility_tests :
  CheckAPIVersionCompatibilityFor "1.0.0" "2.5.0" "2.0.0" = (None, []) /\
  fst (CheckAPIVersionCompatibilityFor "1.0.0" "2.5.0" "0.5.0")
  = Some (UnsupportedAPIVersionError "0.5.0" "1.0.0" "2.5.0") /\
  fst (CheckAPIVersionCompatibilityFor "1.0.0" "2.5.0" "v2")
  = Some (UnsupportedAPIVersionError "v2" "1.0.0" "2.5.0") /\
  ParseVersion "1.2.3-rc.1" = (1, 2, 3, "rc.1") /\
  CompareVersions "1.2.3-rc.1" "1.2.3" = 0 /\
  ParseVersion "99999999999999999999.0.1" = (9223372036854775807, 0, 1, "") /\
  length (snd (CheckAPIVersionCompatibility "3.1.4")) = 1%nat.
Proof. vm_compute. repeat split; reflexivity. Qed.

(** ** The error classifier *)

(** C7. For a response of status 400 or more, the classifier returns the
    typed error of the table, carrying the status: 400 Validation with the
    field errors of the body, 401 Authentication, 403 Forbidden, 404
    NotFound, 429 RateLimit with the seconds of Retry-After (60 when the
    header is missing or no integer), any other status a generic error with
    the detail of the body.  The message is the [error] field of the body,
    and the text of the status code when that is empty; in particular when
    the body is absent or does not parse. *)
Theorem parseErrorResponse_table
  (jsonErrorBody : string -> option ErrorBody) (StatusText : Z -> string)
  (resp : Response) (body : string) :
  400 <= StatusCode resp ->
  let e := parseErrorResponse jsonErrorBody StatusText resp body in
  let decoded := default zeroErrorBody (jsonErrorBody body) in
  variantOf e = tableVariant (StatusCode resp) /\
  Status (baseOf e) = StatusCode resp /\
  Message (baseOf e)
  = (if String.eqb (ebError decoded) "" then StatusText (StatusCode resp)
     else ebError decoded) /\
  (jsonErrorBody body = None ->
   Message (baseOf e) = StatusText (StatusCode resp)) /\
  (StatusCode resp = 400 -> fieldErrorsOf e = Some (ebErrors decoded)) /\
  (StatusCode resp = 429 ->
   (HeaderGet resp "Retry-After" = EmptyString -> retryAfterOf e = Some 60) /\
   (atoiOk (HeaderGet resp "Retry-After") = None -> retryAfterOf e = Some 60) /\
   (forall v, atoiOk (HeaderGet resp "Retry-After") = Some v ->
              retryAfterOf e = Some v)) /\
  (tableVariant (StatusCode resp) = Generic ->
   e = GenericError (mkRefyneError (Message (baseOf e)) (StatusCode resp)
                                   (ebDetail decoded))).
Proof.
  intros _. simpl. unfold parseErrorResponse, tableVariant.
  set (decoded := default zeroErrorBody (jsonErrorBody body)).
  set (msg := if String.eqb (ebError decoded) "" then
                StatusText (StatusCode resp) else ebError decoded).
  assert (Hnone : jsonErrorBody body = None -> msg = StatusText (StatusCode resp)).
  { intros H. unfold msg, decoded. by rewrite H. }
  destruct (StatusCode resp =? 400) eqn:E400.
  { apply Z.eqb_eq in E400. simpl. repeat split; try done; try lia. }
  destruct (StatusCode resp =? 401) eqn:E401.
  { apply Z.eqb_eq in E401. simpl. repeat split; try done; try lia. }
  destruct (StatusCode resp =? 403) eqn:E403.
  { apply Z.eqb_eq in E403. simpl. repeat split; try done; try lia. }
  destruct (StatusCode resp =? 404) eqn:E404.
  { apply Z.eqb_eq in E404. simpl. repeat split; try done; try lia. }
  destruct (StatusCode resp =? 429) eqn:E429.
  { apply Z.eqb_eq in E429. simpl. repeat split; try done; try lia.
    - intros Hra. by rewrite Hra.
    - intros Hra. rewrite Hra. by destruct (negb _).
    - intros v Hra. rewrite Hra.
      destruct (String.eqb (HeaderGet resp "Retry-After") "") eqn:E; [|done].
      apply String.eqb_eq in E. rewrite E in Hra. vm_compute in Hra. done. }
  apply Z.eqb_neq in E400, E401, E403, E404, E429.
  simpl. repeat split; try done; try lia.
Qed.

Lemma parseErrorResponse_table_witness :
  variantOf (parseErrorResponse (fun _ => None) (fun _ => "Too Many Requests")
               rateLimitedResponse "<html>") = RateLimit /\
  Message (baseOf (parseErrorResponse (fun _ => None)
                     (fun _ => "Too Many Requests")
                     rateLimitedResponse "<html>")) = "Too Many Requests" /\
  retryAfterOf (parseErrorResponse (fun _ => None)
                  (fun _ => "Too Many Requests")
                  rateLimitedResponse "<html>") = Some 60.
Proof.
  destruct (parseErrorResponse_table (fun _ => None)
              (fun _ => "Too Many Requests") rateLimitedResponse "<html>")
    as (Hv & _ & _ & Hm & _ & Hr & _); [simpl; lia|].
  split; [exact Hv|]. split; [exact (Hm eq_refl)|].
  destruct (Hr eq_refl) as (_ & Hinvalid & _). apply Hinvalid.
  vm_compute. reflexivity.
Defined.

(** ** The retry loop *)

Section PipelineFacts.

Context {V : Type}.
Variable jsonMarshal : V -> option string.
Variable jsonUnmarshal : string -> option V.
Variable jsonErrorBody : string -> option ErrorBody.
Variable StatusText : Z -> string.

Implicit Types (c : Client (V:=V)) (call : Call) (tr : list Event).

Lemma countDo_app tr1 tr2 : countDo (tr1 ++ tr2) = (countDo tr1 + countDo tr2)%nat.
Proof. unfold countDo. by rewrite filter_app, length_app. Qed.

Lemma countChecks_app tr1 tr2 :
  countChecks (tr1 ++ tr2) = (countChecks tr1 + countChecks tr2)%nat.
Proof. unfold countChecks. by rewrite filter_app, length_app. Qed.

Lemma countDo_cons e tr :
  countDo (e :: tr) = ((if isDo e then 1 else 0) + countDo tr)%nat.
Proof.
  unfold countDo. rewrite filter_cons.
  destruct (isDo e); destruct (decide _); simpl; done.
Qed.

Lemma countChecks_cons e tr :
  countChecks (e :: tr)
  = ((if isCheckVersion e then 1 else 0) + countChecks tr)%nat.
Proof.
  unfold countChecks. rewrite filter_cons.
  destruct (isCheckVersion e); destruct (decide _); simpl; done.
Qed.

Lemma countDo_nil : countDo [] = 0%nat.
Proof. done. Qed.

Lemma countChecks_nil : countChecks [] = 0%nat.
Proof. done. Qed.

Ltac count_events :=
  rewrite ?countDo_app, ?countChecks_app, ?countDo_cons, ?countChecks_cons,
    ?countDo_nil, ?countChecks_nil; simpl; try lia.

Lemma retryFuel_step c attempt :
  attempt <= maxRetries c ->
  retryFuel c attempt = S (retryFuel c (attempt + 1)).
Proof. unfold retryFuel. intros H. lia. Qed.

(** The loop returns: the bound [retryFuel] is never used up. *)
Lemma executeWithRetryFuel_total c call urlStr fuel : forall attempt,
  (retryFuel c attempt <= fuel)%nat ->
  exists r tr, executeWithRetryFuel fuel c call urlStr attempt = Some (r, tr).
Proof.
  induction fuel as [|fuel IH]; intros attempt Hf.
  - assert (maxRetries c < attempt) as Hlast by (unfold retryFuel in Hf; lia).
    simpl. destruct (bodyMarshals call); simpl; [|eauto].
    destruct (requestBuilds call); simpl; [|eauto].
    assert ((attempt <=? maxRetries c) = false) as -> by lia.
    destruct (Do call attempt); [eauto|]. rewrite !andb_false_r. eauto.
  - simpl. destruct (bodyMarshals call); simpl; [|eauto].
    destruct (requestBuilds call); simpl; [|eauto].
    destruct (attempt <=? maxRetries c) eqn:E.
    + apply Z.leb_le in E. rewrite (retryFuel_step c attempt E) in Hf.
      destruct (IH (attempt + 1) ltac:(lia)) as (r & tr & ->).
      destruct (Do call attempt) as [e|resp]; simpl; [eauto|].
      rewrite !andb_true_r.
      destruct (StatusCode resp =? 429); simpl; [eauto|].
      destruct (500 <=? StatusCode resp); simpl; eauto.
    + destruct (Do call attempt); [eauto|]. rewrite !andb_false_r. eauto.
Qed.

Lemma executeWithRetry_total c call urlStr attempt :
  exists r tr, executeWithRetry c call urlStr attempt = Some (r, tr).
Proof. by apply executeWithRetryFuel_total. Qed.

(** At most [maxRetries - attempt + 2] calls of the transport from
    [attempt] on, and never a version check inside the loop. *)
Lemma executeWithRetryFuel_counts c call urlStr fuel : forall attempt r tr,
  executeWithRetryFuel fuel c call urlStr attempt = Some (r, tr) ->
  (countDo tr <= S (retryFuel c attempt))%nat /\ countChecks tr = 0%nat.
Proof.
  induction fuel as [|fuel IH]; intros attempt r tr; simpl.
  - destruct (bodyMarshals call); simpl;
      [|intros H; inversion H; subst; split; [apply Nat.le_0_l|done]].
    destruct (requestBuilds call); simpl;
      [|intros H; inversion H; subst; split; [apply Nat.le_0_l|done]].
    destruct (Do call attempt) as [e|resp].
    + destruct (attempt <=? maxRetries c); [done|].
      intros H; inversion H; subst. split; [count_events|done].
    + destruct ((StatusCode resp =? 429) && (attempt <=? maxRetries c)); [done|].
      destruct ((500 <=? StatusCode resp) && (attempt <=? maxRetries c)); [done|].
      intros H; inversion H; subst. split; [count_events|done].
  - destruct (bodyMarshals call); simpl;
      [|intros H; inversion H; subst; split; [apply Nat.le_0_l|done]].
    destruct (requestBuilds call); simpl;
      [|intros H; inversion H; subst; split; [apply Nat.le_0_l|done]].
    assert (Hstep : forall evs,
      countDo evs = 0%nat -> countChecks evs = 0%nat ->
      attempt <= maxRetries c ->
      option_map (prepend (EvDo attempt (method call) urlStr :: evs))
        (executeWithRetryFuel fuel c call urlStr (attempt + 1)) = Some (r, tr) ->
      (countDo tr <= S (retryFuel c attempt))%nat /\ countChecks tr = 0%nat).
    { intros evs Hd Hc Hle H.
      destruct (executeWithRetryFuel fuel c call urlStr (attempt + 1))
        as [[r' tr']|] eqn:E; [|done].
      apply IH in E as [E1 E2]. simpl in H. inversion H; subst. simpl.
      change (EvDo attempt (method call) urlStr :: evs ++ tr')
        with ([EvDo attempt (method call) urlStr] ++ evs ++ tr').
      rewrite !countDo_app, !countChecks_app, Hd, Hc, E2.
      rewrite (retryFuel_step c attempt Hle). split; [count_events|done]. }
    destruct (Do call attempt) as [e|resp].
    + destruct (attempt <=? maxRetries c) eqn:E.
      * apply Z.leb_le in E. by apply Hstep.
      * intros H; inversion H; subst. split; [count_events|done].
    + destruct (attempt <=? maxRetries c) eqn:E.
      * apply Z.leb_le in E. rewrite !andb_true_r.
        destruct (StatusCode resp =? 429); [by apply Hstep|].
        destruct (500 <=? StatusCode resp); [by apply Hstep|].
        intros H; inversion H; subst. split; [count_events|done].
      * rewrite !andb_false_r.
        intros H; inversion H; subst. split; [count_events|done].
Qed.


(** ** The one-shot version check *)

Lemma countChecks_logs (logs : list LogRecord) : countChecks (map EvLog logs) = 0%nat.
Proof.
  induction logs as [|l logs IH]; simpl; [done|].
  by rewrite countChecks_cons, IH.
Qed.

(** With the constants of the source the block never returns early: it
    sets the flag whenever it finds it clear. *)
Lemma checkVersionOnce_spec c resp :
  exists c1 evs,
    checkVersionOnce c resp = inr (c1, evs) /\
    cache c1 = cache c /\
    (apiVersionChecked c = true -> c1 = c /\ evs = []) /\
    (apiVersionChecked c = false ->
     apiVersionChecked c1 = true /\
     (HeaderGet resp "X-API-Version" = EmptyString ->
      evs = [EvLog noVersionHeader]) /\
     (HeaderGet resp "X-API-Version" <> EmptyString ->
      exists logs,
        evs = EvCheckVersion (HeaderGet resp "X-API-Version") :: map EvLog logs)).
Proof.
  unfold checkVersionOnce. destruct (apiVersionChecked c) eqn:Ef; simpl.
  { exists c, []. repeat split; done. }
  destruct (String.eqb (HeaderGet resp "X-API-Version") "") eqn:Eh; simpl.
  - apply String.eqb_eq in Eh. eexists _, _. split; [done|].
    repeat split; try done.
  - apply String.eqb_neq in Eh.
    pose proof (CheckAPIVersionCompatibility_never_fails
                  (HeaderGet resp "X-API-Version")) as Hnf.
    destruct (CheckAPIVersionCompatibility (HeaderGet resp "X-API-Version"))
      as [[e|] logs]; [done|].
    eexists _, _. split; [done|]. repeat split; try done. eauto.
Qed.

Lemma checkVersionOnce_counts c resp c1 evs :
  checkVersionOnce c resp = inr (c1, evs) ->
  countDo evs = 0%nat /\
  (countChecks evs <= 1)%nat /\
  (apiVersionChecked c = true -> countChecks evs = 0%nat) /\
  (countChecks evs = 1%nat <->
   apiVersionChecked c = false /\ HeaderGet resp "X-API-Version" <> EmptyString) /\
  (apiVersionChecked c = false ->
   HeaderGet resp "X-API-Version" = EmptyString ->
   EvLog noVersionHeader ∈ evs).
Proof.
  intros E. destruct (checkVersionOnce_spec c resp) as (c1' & evs' & E' & _ & Ht & Hf).
  rewrite E in E'. inversion E'; subst c1' evs'; clear E'.
  destruct (apiVersionChecked c) eqn:Ef.
  - destruct (Ht eq_refl) as [-> ->].
    split; [done|]. split; [count_events|]. split; [done|]. split; [split|].
    + count_events.
    + intros [? _]. done.
    + done.
  - destruct (Hf eq_refl) as (_ & Habsent & Hpresent).
    destruct (decide (HeaderGet resp "X-API-Version" = EmptyString)) as [Eh|Eh].
    + rewrite (Habsent Eh).
      split; [done|]. split; [count_events|]. split; [done|]. split; [split|].
      * count_events.
      * intros [_ ?]. done.
      * intros _ _. apply list_elem_of_singleton. done.
    + destruct (Hpresent Eh) as (logs & ->).
      assert (Hd : countDo (map EvLog logs) = 0%nat).
      { clear. induction logs as [|l logs IH]; simpl; [done|].
        by rewrite countDo_cons, IH. }
      split; [by rewrite countDo_cons, Hd|].
      split; [rewrite countChecks_cons, countChecks_logs; simpl; lia|].
      split; [done|]. split; [split|].
      * done.
      * intros _. by rewrite countChecks_cons, countChecks_logs.
      * done.
Qed.

Lemma checkStep_idle c c1 :
  apiVersionChecked c1 = apiVersionChecked c -> checkStep c c1 [].
Proof.
  intros H. unfold checkStep. rewrite H, countChecks_nil.
  split; [lia|]. split; [done|]. split; [done|]. intros -> ?. done.
Qed.

Lemma checkStep_quiet c c1 tr :
  apiVersionChecked c1 = apiVersionChecked c -> countChecks tr = 0%nat ->
  checkStep c c1 tr.
Proof.
  intros H H0. unfold checkStep. rewrite H, H0.
  split; [lia|]. split; [done|]. split; [done|]. intros -> ?. done.
Qed.

(** A response received while the flag is clear sets it, in that call: the
    check runs when the header is present, the warning is logged when it is
    absent. *)
Lemma requestLive_first_response c call urlStr cacheKey resp tr0 :
  executeWithRetry c call urlStr 1 = Some (inr resp, tr0) ->
  apiVersionChecked c = false ->
  exists out c1 evs,
    requestLive jsonUnmarshal jsonErrorBody StatusText c call urlStr cacheKey
    = Some (out, c1, tr0 ++ evs) /\
    apiVersionChecked c1 = true /\
    (HeaderGet resp "X-API-Version" = EmptyString ->
     evs = [EvLog noVersionHeader]) /\
    (HeaderGet resp "X-API-Version" <> EmptyString ->
     exists logs,
       evs = EvCheckVersion (HeaderGet resp "X-API-Version") :: map EvLog logs).
Proof.
  intros E Ef. unfold requestLive. rewrite E.
  destruct (checkVersionOnce_spec c resp) as (c1 & evs & -> & _ & _ & Hf).
  destruct (Hf Ef) as (Hc1 & Habs & Hpres).
  destruct (Body resp) as [respBody|]; [|by eexists _, _, _].
  destruct (400 <=? StatusCode resp); [by eexists _, _, _|].
  destruct (jsonUnmarshal respBody); by eexists _, _, _.
Qed.

Lemma requestLive_checkStep c call urlStr cacheKey :
  exists out c1 tr,
    requestLive jsonUnmarshal jsonErrorBody StatusText c call urlStr cacheKey
    = Some (out, c1, tr) /\ checkStep c c1 tr.
Proof.
  unfold requestLive.
  destruct (executeWithRetry_total c call urlStr 1) as (r & tr0 & E).
  rewrite E. apply executeWithRetryFuel_counts in E as [_ Hc0].
  destruct r as [e|resp].
  { eexists _, _, _. split; [done|]. by apply checkStep_quiet. }
  destruct (checkVersionOnce_spec c resp) as (c1 & evs & Ec & _ & Ht & Hf).
  rewrite Ec. apply checkVersionOnce_counts in Ec as (_ & Hle & H0 & H1 & Hw).
  assert (Hstep : forall c2, apiVersionChecked c2 = apiVersionChecked c1 ->
                             checkStep c c2 (tr0 ++ evs)).
  { intros c2 H2. unfold checkStep. rewrite countChecks_app, Hc0, H2. simpl.
    split; [done|]. split; [|split].
    - intros Hc. destruct (Ht Hc) as [-> _]. auto.
    - intros H. apply H1 in H as [Hc Hh]. split; [done|]. by apply Hf.
    - intros Hc _.
      destruct (decide (HeaderGet resp "X-API-Version" = EmptyString)) as [Eh|Eh].
      + right. apply elem_of_app. right. by apply Hw.
      + left. by apply H1. }
  destruct (Body resp) as [respBody|];
    [|eexists _, _, _; split; [done|by apply Hstep]].
  destruct (400 <=? StatusCode resp);
    [eexists _, _, _; split; [done|by apply Hstep]|].
  destruct (jsonUnmarshal respBody);
    eexists _, _, _; (split; [done|by apply Hstep]).
Qed.

Lemma requestWithOptions_checkStep c call :
  exists out c1 tr,
    requestWithOptions jsonMarshal jsonUnmarshal jsonErrorBody StatusText c call
    = Some (out, c1, tr) /\ checkStep c c1 tr.
Proof.
  unfold requestWithOptions.
  set (urlStr := baseURL c +:+ path call).
  set (cacheKey := GenerateCacheKey (method call) urlStr (authHash c)).
  assert (Hlive : forall m, exists out c1 tr,
    requestLive jsonUnmarshal jsonErrorBody StatusText (withCache c m) call
      urlStr cacheKey = Some (out, c1, tr) /\ checkStep c c1 tr).
  { intros m.
    destruct (requestLive_checkStep (withCache c m) call urlStr cacheKey)
      as (out & c1 & tr & E & H). by exists out, c1, tr. }
  destruct (String.eqb (method call) "GET" && cacheOn c && negb (skipCache call)).
  - destruct (Get (nowLookup call) cacheKey (cache c)) as [[entry|] m];
      [|apply Hlive].
    destruct (jsonMarshal (Value entry)) as [data|]; [|apply Hlive].
    destruct (jsonUnmarshal data);
      eexists _, _, _; (split; [done|by apply checkStep_idle]).
  - apply requestLive_checkStep.
Qed.

Lemma checksRun_cons (out : Outcome (V:=V)) tr outs :
  checksRun ((out, tr) :: outs) = (countChecks tr + checksRun outs)%nat.
Proof. unfold checksRun. simpl. by rewrite countChecks_app. Qed.

Lemma runCalls_checks calls : forall c,
  exists c' outs,
    runCalls jsonMarshal jsonUnmarshal jsonErrorBody StatusText c calls
    = Some (c', outs) /\
    length outs = length calls /\
    (checksRun outs <= 1)%nat /\
    (apiVersionChecked c = true ->
     apiVersionChecked c' = true /\ checksRun outs = 0%nat) /\
    (checksRun outs = 1%nat -> apiVersionChecked c' = true).
Proof.
  induction calls as [|call calls IH]; intros c; simpl.
  - exists c, []. repeat split; try done. unfold checksRun. simpl.
    rewrite countChecks_nil. lia.
  - destruct (requestWithOptions_checkStep c call)
      as (out & c1 & tr & -> & Hle & Ht & H1 & _).
    destruct (IH c1) as (c' & outs & -> & Hlen & Hle' & Ht' & H1').
    exists c', ((out, tr) :: outs). rewrite checksRun_cons.
    split; [done|]. split; [simpl; by rewrite Hlen|].
    split; [|split].
    + destruct (decide (countChecks tr = 1%nat)) as [E|E]; [|lia].
      destruct (H1 E) as [_ Hc1]. destruct (Ht' Hc1) as [_ ->]. lia.
    + intros Hc. destruct (Ht Hc) as [Hc1 ->]. by apply Ht'.
    + intros H. destruct (decide (countChecks tr = 1%nat)) as [E|E].
      * destruct (H1 E) as [_ Hc1]. by apply Ht'.
      * apply H1'. lia.
Qed.

(** C3. With the constants of the source, through every sequence of
    pipeline calls of one client: the compatibility check runs at most
    once; [apiVersionChecked], once true, stays true, and no check runs
    from then on.  Call by call: the check runs only in a call that finds
    the flag clear, and that call sets it; the flag is set only by a call
    in which the check ran or the warning of the absent header was
    logged; and a call that finds the flag clear and receives a response
    from the transport sets it, running the check when the version header
    is present and logging the warning when it is absent.  Every call
    returns. *)
Theorem apiVersionChecked_once c (calls : list Call) :
  match runCalls jsonMarshal jsonUnmarshal jsonErrorBody StatusText c calls with
  | None => False
  | Some (c', outs) =>
      (checksRun outs <= 1)%nat /\
      (apiVersionChecked c = true ->
       apiVersionChecked c' = true /\ checksRun outs = 0%nat) /\
      (checksRun outs = 1%nat -> apiVersionChecked c' = true)
  end /\
  (forall call,
     match requestWithOptions jsonMarshal jsonUnmarshal jsonErrorBody
             StatusText c call with
     | None => False
     | Some (_, c1, tr) =>
         (countChecks tr <= 1)%nat /\
         (apiVersionChecked c = true ->
          apiVersionChecked c1 = true /\ countChecks tr = 0%nat) /\
         (countChecks tr = 1%nat ->
          apiVersionChecked c = false /\ apiVersionChecked c1 = true) /\
         (apiVersionChecked c = false -> apiVersionChecked c1 = true ->
          countChecks tr = 1%nat \/ EvLog noVersionHeader ∈ tr)
     end) /\
  (forall call urlStr cacheKey resp tr0,
     executeWithRetry c call urlStr 1 = Some (inr resp, tr0) ->
     apiVersionChecked c = false ->
     exists out c1 evs,
       requestLive jsonUnmarshal jsonErrorBody StatusText c call urlStr cacheKey
       = Some (out, c1, tr0 ++ evs) /\
       apiVersionChecked c1 = true /\
       (HeaderGet resp "X-API-Version" = EmptyString ->
        evs = [EvLog noVersionHeader]) /\
       (HeaderGet resp "X-API-Version" <> EmptyString ->
        exists logs,
          evs = EvCheckVersion (HeaderGet resp "X-API-Version")
                :: map EvLog logs)).
Proof.
  split; [|split].
  - destruct (runCalls_checks calls c) as (c' & outs & -> & _ & H). exact H.
  - intros call.
    destruct (requestWithOptions_checkStep c call) as (out & c1 & tr & -> & H).
    exact H.
  - intros call urlStr cacheKey resp tr0. apply requestLive_first_response.
Qed.

(** X5 (C2, the cache hit).  A cache hit whose value marshals is answered
    from the cache, with what decoding it gives, error included; the
    transport is not called. *)
Lemma requestWithOptions_cache_hit c call entry m data :
  method call = "GET" -> cacheOn c = true -> skipCache call = false ->
  Get (nowLookup call)
      (GenerateCacheKey (method call) (baseURL c +:+ path call) (authHash c))
      (cache c) = (Some entry, m) ->
  jsonMarshal (Value entry) = Some data ->
  requestWithOptions jsonMarshal jsonUnmarshal jsonErrorBody StatusText c call
  = Some (match jsonUnmarshal data with
          | Some result => mkOutcome None (Some result)
          | None => failed (DecodeError "json")
          end, withCache c m, []).
Proof.
  intros Hm Hon Hskip Hget Hdata. unfold requestWithOptions.
  rewrite Hm, Hon, Hskip. simpl. rewrite Hm in Hget. rewrite Hget, Hdata.
  by destruct (jsonUnmarshal data).
Qed.

(** X6 (C2, the fallback that exists).  A cached value that does not
    marshal sends the call to the network. *)
Lemma requestWithOptions_marshal_fallback c call entry m :
  method call = "GET" -> cacheOn c = true -> skipCache call = false ->
  Get (nowLookup call)
      (GenerateCacheKey (method call) (baseURL c +:+ path call) (authHash c))
      (cache c) = (Some entry, m) ->
  jsonMarshal (Value entry) = None ->
  requestWithOptions jsonMarshal jsonUnmarshal jsonErrorBody StatusText c call
  = requestLive jsonUnmarshal jsonErrorBody StatusText (withCache c m) call
      (baseURL c +:+ path call)
      (GenerateCacheKey (method call) (baseURL c +:+ path call) (authHash c)).
Proof.
  intros Hm Hon Hskip Hget Hdata. unfold requestWithOptions.
  rewrite Hm, Hon, Hskip. simpl. rewrite Hm in Hget. by rewrite Hget, Hdata.
Qed.

(** From the first attempt the transport is called at most
    [maxRetries + 1] times. *)
Lemma executeWithRetry_attempts c call urlStr r tr :
  0 <= maxRetries c ->
  executeWithRetry c call urlStr 1 = Some (r, tr) ->
  Z.of_nat (countDo tr) <= maxRetries c + 1.
Proof.
  intros H0 E. apply executeWithRetryFuel_counts in E as [E _].
  unfold retryFuel in E. lia.
Qed.

End PipelineFacts.

(** C1, the code at its failing input: 35 retries allowed, and a transport
    that is down.  The loop makes 36 attempts and sleeps 35 times; the first
    34 waits are 1, 2, 4, 8, 16 and then 30 seconds, and the wait after
    attempt 35 is negative: [1 << 34] seconds is more nanoseconds than an
    int64 holds, the product wraps below zero, and the minimum with 30
    seconds keeps it. *)
Theorem backoff_wraps_at_attempt_35 :
  match executeWithRetry patientClient downCall
          "https://api.refyne.uk/api/v1/usage" 1 with
  | Some (_, tr) =>
      countDo tr = 36%nat /\
      length (sleeps tr) = 35%nat /\
      nth 5 (sleeps tr) 0 = 30 * Second /\
      nth 33 (sleeps tr) 0 = 30 * Second /\
      nth 34 (sleeps tr) 0 = -1266874889709551616
  | None => False
  end /\
  calculateBackoff 34 = 30 * Second /\
  calculateBackoff 35 = -1266874889709551616.
Proof. vm_compute. repeat split; reflexivity. Qed.

(** C2, the code at its failing input: the cache holds a fresh entry for the
    call, its value marshals, and the marshalled value does not decode into
    the result.  The call returns the decoding error without calling the
    transport, which would have answered 200 with a value that decodes. *)
Theorem cached_value_decode_error :
  fst (Get (nowLookup usageCall) usageKey (cache staleShapeClient))
  = Some (freshEntry "[1,2,3]") /\
  match requestWithOptions marshalText unmarshalObject (fun _ => None)
          (fun _ => EmptyString) staleShapeClient usageCall with
  | Some (out, _, tr) => out = failed (DecodeError "json") /\ tr = []
  | None => False
  end /\
  match requestLive unmarshalObject (fun _ => None) (fun _ => EmptyString)
          staleShapeClient usageCall
          "https://api.refyne.uk/api/v1/usage" usageKey with
  | Some (out, _, tr) => out = mkOutcome None (Some "{}") /\ countDo tr = 1%nat
  | None => False
  end.
Proof. vm_compute. repeat split; reflexivity. Qed.

(** The waits of the loop are those of [calculateBackoff] and
    [parseRetryAfter]. *)
Lemma calculateBackoff_min attempt :
  calculateBackoff attempt
  = Z.min (mul64 (shl64 1 (attempt - 1)) Second) (30 * Second).
Proof.
  unfold calculateBackoff.
  destruct (30 * Second <? mul64 (shl64 1 (attempt - 1)) Second) eqn:E; lia.
Qed.

Lemma parseRetryAfter_wait header :
  parseRetryAfter header
  = mul64 (if negb (String.eqb header "") then
             match atoiOk header with Some v => v | None => 1 end
           else 1) Second.
Proof.
  unfold parseRetryAfter. destruct (String.eqb header ""); simpl.
  - vm_compute. reflexivity.
  - destruct (atoiOk header); [done|]. vm_compute. reflexivity.
Qed.

(** X4 (C1, the backoff where it does not overflow).  For attempts 1 to 34
    the backoff is 2^(attempt-1) seconds capped at 30 seconds. *)
Lemma calculateBackoff_capped attempt :
  1 <= attempt <= 34 ->
  calculateBackoff attempt = Z.min (2 ^ (attempt - 1)) 30 * Second.
Proof.
  intros H.
  assert (Hall : forallb
            (fun a => calculateBackoff a =? Z.min (2 ^ (a - 1)) 30 * Second)
            (map Z.of_nat (seq 1 34)) = true) by (vm_compute; reflexivity).
  rewrite forallb_forall in Hall. apply Z.eqb_eq, Hall.
  apply in_map_iff. exists (Z.to_nat attempt). split; [lia|].
  apply in_seq. lia.
Qed.

Lemma calculateBackoff_capped_witness :
  calculateBackoff 6 = Z.min (2 ^ (6 - 1)) 30 * Second.
Proof. apply calculateBackoff_capped. lia. Defined.

Example calculateBackoff_tests :
  map calculateBackoff [1; 2; 3; 4; 5; 6; 7]
  = map (fun s => s * Second) [1; 2; 4; 8; 16; 30; 30] /\
  map parseRetryAfter [""; "5"; "0"; "invalid"]
  = map (fun s => s * Second) [1; 5; 0; 1].
Proof. vm_compute. split; reflexivity. Qed.

(** ** First in, first out *)

Section Fifo.

Context {V : Type}.
Implicit Types (c : MemoryCache V) (e : CacheEntry V).
Implicit Types (kes : list (string * CacheEntry V)).

Lemma Set_new_below c (k : string) e :
  store c !! k = None -> NoStore (CacheControl e) = false ->
  Size c < maxEntries c ->
  Set_ k e c = mkCache (<[k := e]> (store c)) (order c ++ [k]) (maxEntries c).
Proof.
  intros Hk Hns Hsz. unfold Set_. rewrite Hns.
  rewrite evict_below by done. by rewrite Hk.
Qed.

Lemma Set_new_full c (k k0 : string) e rest :
  orderMatchesStore c -> order c = k0 :: rest ->
  Size c = maxEntries c -> 1 <= maxEntries c ->
  store c !! k = None -> NoStore (CacheControl e) = false ->
  Set_ k e c
  = mkCache (<[k := e]> (delete k0 (store c))) (rest ++ [k]) (maxEntries c).
Proof.
  intros Hinv Hord Hsz HN Hk Hns. unfold Set_. rewrite Hns, Hord.
  unfold orderMatchesStore in Hinv. rewrite Hord in Hinv.
  rewrite (evict_full _ _ _ _ Hinv HN Hsz).
  assert (delete k0 (store c) !! k = None) as ->; [|done].
  apply lookup_delete_None. by right.
Qed.

(** At capacity the eviction comes before the look-up of the key: setting
    the oldest key again deletes it and appends it as the newest. *)
Lemma Set_oldest_at_capacity c (k : string) e rest :
  orderMatchesStore c -> order c = k :: rest ->
  Size c = maxEntries c -> 1 <= maxEntries c ->
  NoStore (CacheControl e) = false ->
  Set_ k e c
  = mkCache (<[k := e]> (delete k (store c))) (rest ++ [k]) (maxEntries c).
Proof.
  intros Hinv Hord Hsz HN Hns. unfold Set_. rewrite Hns, Hord.
  unfold orderMatchesStore in Hinv. rewrite Hord in Hinv.
  rewrite (evict_full _ _ _ _ Hinv HN Hsz).
  by rewrite lookup_delete_eq.
Qed.

(** X7 (C4, re-insertion below capacity).  Setting a present key below
    capacity replaces its entry and leaves the order as it is. *)
Lemma Set_present_below c (k : string) e :
  is_Some (store c !! k) -> NoStore (CacheControl e) = false ->
  Size c < maxEntries c ->
  Set_ k e c = mkCache (<[k := e]> (store c)) (order c) (maxEntries c).
Proof.
  intros [e0 Hk] Hns Hsz. unfold Set_. rewrite Hns.
  rewrite evict_below by done. by rewrite Hk.
Qed.

Lemma insertAll_lookup_other kes : forall st (k : string),
  k ∉ map fst kes -> insertAll kes st !! k = st !! k.
Proof.
  induction kes as [|[k0 e0] kes IH]; intros st k Hk; simpl; [done|].
  rewrite IH.
  - apply lookup_insert_ne. intros ->. apply Hk. simpl. left.
  - intros H. apply Hk. simpl. by right.
Qed.

Lemma insertAll_lookup kes : forall st (k : string) e,
  NoDup (map fst kes) -> (k, e) ∈ kes -> insertAll kes st !! k = Some e.
Proof.
  induction kes as [|[k0 e0] kes IH]; intros st k e Hnd Hin; simpl.
  - by apply elem_of_nil in Hin.
  - simpl in Hnd. apply NoDup_cons in Hnd as [Hk0 Hnd].
    apply elem_of_cons in Hin as [Heq|Hin].
    + inversion Heq; subst. rewrite insertAll_lookup_other by done.
      apply lookup_insert_eq.
    + by apply IH.
Qed.

Lemma insertAll_size kes : forall st,
  NoDup (map fst kes) -> (forall ke, ke ∈ kes -> st !! fst ke = None) ->
  size (insertAll kes st) = (size st + length kes)%nat.
Proof.
  induction kes as [|[k0 e0] kes IH]; intros st Hnd Hfresh; simpl; [lia|].
  simpl in Hnd. apply NoDup_cons in Hnd as [Hk0 Hnd].
  rewrite IH; [|done|].
  - rewrite map_size_insert_None; [lia|]. apply (Hfresh (k0, e0)). left.
  - intros [k e] Hin. simpl. rewrite lookup_insert_ne.
    + apply (Hfresh (k, e)). by right.
    + intros ->. apply Hk0. apply list_elem_of_fmap. by exists (k, e).
Qed.

(** Below capacity, new keys are appended in the order of insertion. *)
Lemma runOps_fill kes : forall c,
  NoDup (map fst kes) ->
  (forall ke, ke ∈ kes ->
     store c !! fst ke = None /\ NoStore (CacheControl (snd ke)) = false) ->
  Size c + Z.of_nat (length kes) <= maxEntries c ->
  runOps c (map setOp kes)
  = mkCache (insertAll kes (store c)) (order c ++ map fst kes) (maxEntries c).
Proof.
  induction kes as [|[k e] kes IH]; intros c Hnd Hfresh Hsz.
  - simpl. rewrite app_nil_r. by destruct c.
  - simpl in Hnd. apply NoDup_cons in Hnd as [Hk Hnd].
    destruct (Hfresh (k, e)) as [Hk0 Hns]; [left|]. simpl in Hk0, Hns.
    unfold runOps. simpl. fold (runOps (Set_ k e c) (map setOp kes)).
    simpl length in Hsz.
    rewrite Set_new_below by (done || lia).
    rewrite IH; simpl.
    + by rewrite <- app_assoc.
    + done.
    + intros [k' e'] Hin. destruct (Hfresh (k', e')) as [H1 H2]; [by right|].
      split; [|done]. simpl. rewrite lookup_insert_ne; [done|].
      intros ->. apply Hk. apply list_elem_of_fmap. by exists (k', e').
    + unfold Size in *. simpl. rewrite map_size_insert_None by done. lia.
Qed.

(** X1 (the first half of C4).  FIFO eviction.  Into an empty cache of
    capacity [N >= 1], [N + 1] distinct keys are set, none marked no-store.
    The first key is evicted, and it alone: the cache holds the [N] others
    with their entries, in the order of insertion, and Get finds each of
    them as long as it has not expired. *)
Theorem Set_fifo_eviction (N : Z) (first : string * CacheEntry V)
  (others : list (string * CacheEntry V)) :
  1 <= N -> Z.of_nat (length others) = N ->
  NoDup (fst first :: map fst others) ->
  (forall ke, ke ∈ first :: others -> NoStore (CacheControl (snd ke)) = false) ->
  store (runOps (mkCache ∅ [] N) (map setOp (first :: others))) !! fst first
  = None /\
  order (runOps (mkCache ∅ [] N) (map setOp (first :: others)))
  = map fst others /\
  Size (runOps (mkCache ∅ [] N) (map setOp (first :: others))) = N /\
  (forall k e, (k, e) ∈ others ->
     store (runOps (mkCache ∅ [] N) (map setOp (first :: others))) !! k
     = Some e /\
     forall now, now <= ExpiresAt e ->
       fst (Get now k (runOps (mkCache ∅ [] N) (map setOp (first :: others))))
       = Some e).
Proof.
  intros HN Hlen Hnd Hns.
  destruct others as [|last mid _] using rev_ind; [simpl in Hlen; lia|].
  rewrite length_app in Hlen. simpl in Hlen.
  set (c0 := mkCache (V:=V) ∅ [] N).
  assert (Hnd' : NoDup (map fst (first :: mid))).
  { simpl. rewrite map_app in Hnd.
    rewrite app_comm_cons in Hnd. by apply NoDup_app in Hnd as [H _]. }
  assert (Hfill : runOps c0 (map setOp (first :: mid))
                  = mkCache (insertAll (first :: mid) ∅)
                            (map fst (first :: mid)) N).
  { rewrite runOps_fill; [done|done| |].
    - intros ke Hin. split; [apply lookup_empty|]. apply Hns.
      apply elem_of_cons in Hin as [->|Hin]; [left|right].
      apply elem_of_app. by left.
    - unfold Size, c0. cbn [store maxEntries]. rewrite map_size_empty.
      simpl length. lia. }
  set (c1 := runOps c0 (map setOp (first :: mid))) in *.
  assert (Hc1 : orderMatchesStore c1 /\ withinCapacity c1).
  { unfold c1. apply runOps_invariant; simpl; [lia|]. split.
    - split; [apply NoDup_nil_2|]. intros k. simpl. rewrite lookup_empty.
      split; [inversion 1 | by intros [? ?]].
    - unfold withinCapacity, Size. simpl. rewrite map_size_empty. lia. }
  assert (Hsz1 : Size c1 = N).
  { rewrite Hfill. unfold Size. cbn [store].
    rewrite insertAll_size; [|done|intros; apply lookup_empty].
    rewrite map_size_empty. simpl length. lia. }
  assert (Hlast : store c1 !! fst last = None).
  { rewrite Hfill. cbn [store]. rewrite insertAll_lookup_other; [apply lookup_empty|].
    simpl in Hnd. rewrite map_app in Hnd. simpl in Hnd.
    change (fst first :: map fst mid ++ [fst last])
      with ((fst first :: map fst mid) ++ [fst last]) in Hnd.
    apply NoDup_app in Hnd as (_ & Hd & _). intros Hin.
    apply (Hd _ Hin). left. }
  assert (Hfinal : runOps c0 (map setOp (first :: mid ++ [last]))
                   = mkCache (<[fst last := snd last]>
                                (delete (fst first) (store c1)))
                             (map fst mid ++ [fst last]) N).
  { change (first :: mid ++ [last]) with ((first :: mid) ++ [last]).
    rewrite map_app. unfold runOps. rewrite fold_left_app.
    fold (runOps c0 (map setOp (first :: mid))). fold c1. simpl.
    rewrite (Set_new_full c1 (fst last) (fst first) (snd last) (map fst mid)).
    - rewrite Hfill. done.
    - apply Hc1.
    - rewrite Hfill. done.
    - rewrite Hsz1. rewrite Hfill. done.
    - rewrite Hfill. simpl. lia.
    - done.
    - apply Hns. right. apply elem_of_app. right. left. }
  rewrite Hfinal. cbn [store]. cbn [order].
  assert (Hfl : fst first <> fst last).
  { intros Heq. simpl in Hnd. apply NoDup_cons in Hnd as [Hn _].
    apply Hn. rewrite map_app. apply elem_of_app. right. simpl.
    rewrite Heq. left. }
  assert (Hothers : forall k e, (k, e) ∈ mid ++ [last] ->
     <[fst last := snd last]> (delete (fst first) (store c1)) !! k = Some e).
  { intros k e Hin. apply elem_of_app in Hin as [Hin|Hin].
    - assert (k <> fst last) as Hkl.
      { intros ->. simpl in Hnd. apply NoDup_cons in Hnd as [_ Hnd].
        rewrite map_app in Hnd. apply NoDup_app in Hnd as (_ & Hd & _).
        apply (Hd (fst last)); [|left].
        apply list_elem_of_fmap. by exists (fst last, e). }
      assert (k <> fst first) as Hkf.
      { intros ->. simpl in Hnd. apply NoDup_cons in Hnd as [Hn _].
        apply Hn. rewrite map_app. apply elem_of_app. left.
        apply list_elem_of_fmap. by exists (fst first, e). }
      rewrite lookup_insert_ne by done. rewrite lookup_delete_ne by done.
      rewrite Hfill. cbn [store]. apply insertAll_lookup; [done|].
      by right.
    - apply list_elem_of_singleton in Hin. subst last. simpl.
      apply lookup_insert_eq. }
  split; [|split; [|split]].
  - rewrite lookup_insert_ne by (intros H; by apply Hfl).
    apply lookup_delete_eq.
  - by rewrite map_app.
  - unfold Size. cbn [store].
    rewrite map_size_insert_None.
    + assert (is_Some (store c1 !! fst first)) as Hs.
      { rewrite Hfill. cbn [store]. destruct first as [k0 e0].
        exists e0. apply insertAll_lookup; [done|left]. }
      pose proof (map_size_delete_Some (fst first) (store c1) Hs) as Hd.
      unfold Size in Hsz1. lia.
    + rewrite lookup_delete_ne by done. done.
  - intros k e Hin. split; [by apply Hothers|].
    intros now Hnow. unfold Get. cbn [store]. rewrite (Hothers k e Hin).
    destruct (ExpiresAt e <? now) eqn:E; [lia|done].
Qed.

End Fifo.

(** ** More on the retry loop and on the cache lookup *)

Section RetryFacts.

Context {V : Type}.
Implicit Types (c : Client (V:=V)) (call : Call).

(** X2 (C1, the decisions of the loop).  One turn of the loop.  An answer
    is retried exactly when [retryWait]
    gives it a wait and the attempt is not beyond [maxRetries]: the loop
    logs, sleeps for that wait and goes on with the next attempt.
    Otherwise it returns the answer. *)
Theorem executeWithRetry_turn c call urlStr attempt :
  bodyMarshals call = true -> requestBuilds call = true ->
  match retryWait attempt (Do call attempt) with
  | Some wait =>
      if attempt <=? maxRetries c then
        exists log,
          executeWithRetry c call urlStr attempt
          = option_map
              (prepend [EvDo attempt (method call) urlStr; EvLog log;
                        EvSleep wait])
              (executeWithRetry c call urlStr (attempt + 1))
      else
        executeWithRetry c call urlStr attempt
        = Some (lastAnswer (Do call attempt),
                [EvDo attempt (method call) urlStr])
  | None =>
      executeWithRetry c call urlStr attempt
      = Some (lastAnswer (Do call attempt),
              [EvDo attempt (method call) urlStr])
  end.
Proof.
  intros Hb Hr. unfold retryWait, executeWithRetry.
  destruct (attempt <=? maxRetries c) eqn:E.
  - apply Z.leb_le in E. rewrite (retryFuel_step c attempt E).
    apply Z.leb_le in E. simpl. rewrite Hb, Hr, E. simpl.
    destruct (Do call attempt) as [err|resp].
    + rewrite calculateBackoff_min. eauto.
    + rewrite !andb_true_r. destruct (StatusCode resp =? 429).
      * rewrite parseRetryAfter_wait. eauto.
      * destruct (500 <=? StatusCode resp); [|done].
        rewrite calculateBackoff_min. eauto.
  - assert (Hlast : forall fuel,
      executeWithRetryFuel fuel c call urlStr attempt
      = Some (lastAnswer (Do call attempt), [EvDo attempt (method call) urlStr])).
    { intros fuel. destruct fuel; simpl; rewrite Hb, Hr, E; simpl;
        destruct (Do call attempt); try done; by rewrite !andb_false_r. }
    destruct (Do call attempt) as [err|resp] eqn:Ed; [apply Hlast|].
    destruct (StatusCode resp =? 429); [apply Hlast|].
    destruct (500 <=? StatusCode resp); apply Hlast.
Qed.

(** X3 (C1, the bound on the attempts).  The loop returns, after at most
    [maxRetries + 1] calls of the transport. *)
Theorem executeWithRetry_bounded c call urlStr :
  0 <= maxRetries c ->
  exists r tr,
    executeWithRetry c call urlStr 1 = Some (r, tr) /\
    Z.of_nat (countDo tr) <= maxRetries c + 1.
Proof.
  intros H0. destruct (executeWithRetry_total c call urlStr 1) as (r & tr & E).
  exists r, tr. split; [done|]. by eapply executeWithRetry_attempts.
Qed.

End RetryFacts.

Lemma executeWithRetry_turn_witness :
  exists log,
    executeWithRetry patientClient downCall "u" 1
    = option_map
        (prepend [EvDo 1 "GET" "u"; EvLog log; EvSleep (calculateBackoff 1)])
        (executeWithRetry patientClient downCall "u" (1 + 1)).
Proof.
  exact (executeWithRetry_turn patientClient downCall "u" 1 eq_refl eq_refl).
Defined.

Lemma executeWithRetry_bounded_witness :
  exists r tr,
    executeWithRetry newClient downCall "u" 1 = Some (r, tr) /\
    Z.of_nat (countDo tr) <= 3 + 1.
Proof.
  apply (executeWithRetry_bounded newClient downCall "u"). simpl. lia.
Defined.

Lemma requestWithOptions_cache_hit_witness :
  requestWithOptions marshalText unmarshalObject (fun _ => None)
    (fun _ => EmptyString) staleShapeClient usageCall
  = Some (match unmarshalObject "[1,2,3]" with
          | Some result => mkOutcome None (Some result)
          | None => failed (DecodeError "json")
          end, withCache staleShapeClient (cache staleShapeClient), []).
Proof.
  apply (requestWithOptions_cache_hit marshalText unmarshalObject
           (fun _ => None) (fun _ => EmptyString) staleShapeClient usageCall
           (freshEntry "[1,2,3]") (cache staleShapeClient) "[1,2,3]");
    vm_compute; reflexivity.
Defined.

Lemma requestWithOptions_marshal_fallback_witness :
  requestWithOptions (fun _ => None) unmarshalObject (fun _ => None)
    (fun _ => EmptyString) staleShapeClient usageCall
  = requestLive unmarshalObject (fun _ => None) (fun _ => EmptyString)
      (withCache staleShapeClient (cache staleShapeClient)) usageCall
      (baseURL staleShapeClient +:+ path usageCall)
      (GenerateCacheKey (method usageCall)
         (baseURL staleShapeClient +:+ path usageCall)
         (authHash staleShapeClient)).
Proof.
  apply (requestWithOptions_marshal_fallback (fun _ => None) unmarshalObject
           (fun _ => None) (fun _ => EmptyString) staleShapeClient usageCall
           (freshEntry "[1,2,3]") (cache staleShapeClient));
    vm_compute; reflexivity.
Defined.

Lemma Set_fifo_eviction_witness :
  store (runOps (mkCache ∅ [] 2)
           (map setOp [("key1", freshEntry "v1"); ("key2", freshEntry "v2");
                       ("key3", freshEntry "v3")])) !! "key1" = None /\
  order (runOps (mkCache ∅ [] 2)
           (map setOp [("key1", freshEntry "v1"); ("key2", freshEntry "v2");
                       ("key3", freshEntry "v3")])) = ["key2"; "key3"].
Proof.
  destruct (Set_fifo_eviction 2 ("key1", freshEntry "v1")
              [("key2", freshEntry "v2"); ("key3", freshEntry "v3")])
    as (Hgone & Hord & _).
  - lia.
  - reflexivity.
  - simpl. repeat (apply NoDup_cons; split;
      [intros H; repeat (apply elem_of_cons in H as [H|H]; [discriminate|]);
       by apply elem_of_nil in H|]).
    apply NoDup_nil_2.
  - intros ke H. repeat (apply elem_of_cons in H as [->|H]; [reflexivity|]).
    by apply elem_of_nil in H.
  - split; [exact Hgone | exact Hord].
Defined.

Lemma Set_present_below_witness :
  Set_ "key1" (freshEntry "v1'") (Set_ "key1" (freshEntry "v1") (mkCache ∅ [] 2))
  = mkCache (<["key1" := freshEntry "v1'"]>
               (store (Set_ "key1" (freshEntry "v1") (mkCache ∅ [] 2))))
            (order (Set_ "key1" (freshEntry "v1") (mkCache ∅ [] 2))) 2.
Proof.
  apply (Set_present_below
           (Set_ "key1" (freshEntry "v1") (mkCache ∅ [] 2)) "key1"
           (freshEntry "v1'")).
  - exists (freshEntry "v1"). vm_compute. reflexivity.
  - reflexivity.
  - vm_compute. reflexivity.
Defined.

(** ** The claims with inner premises, at concrete inputs *)

Lemma CheckAPIVersionCompatibility_spec_witness :
  CheckAPIVersionCompatibilityFor "1.0.0" "2.5.0" "0.5.0"
  = (Some (UnsupportedAPIVersionError "0.5.0" "1.0.0" "2.5.0"), []) /\
  ParseVersion "not-a-version" = (0, 0, 0, EmptyString).
Proof.
  split.
  - apply (proj1 (CheckAPIVersionCompatibility_spec "1.0.0" "2.5.0" "0.5.0")).
    vm_compute. left. reflexivity.
  - destruct (CheckAPIVersionCompatibility_spec "1.0.0" "2.5.0" "not-a-version")
      as (_ & _ & _ & _ & _ & Hzero & _).
    apply Hzero. apply versionSubmatch_None. vm_compute. reflexivity.
Defined.

Lemma apiVersionChecked_once_witness :
  match runCalls marshalText unmarshalObject (fun _ => None)
          (fun _ => EmptyString) newClient
          [downCall; versionedCall; usageCall; versionedCall] with
  | None => False
  | Some (c', outs) =>
      (checksRun outs <= 1)%nat /\
      (apiVersionChecked newClient = true ->
       apiVersionChecked c' = true /\ checksRun outs = 0%nat) /\
      (checksRun outs = 1%nat -> apiVersionChecked c' = true)
  end.
Proof.
  exact (proj1 (apiVersionChecked_once marshalText unmarshalObject
                  (fun _ => None) (fun _ => EmptyString) newClient
                  [downCall; versionedCall; usageCall; versionedCall])).
Defined.

Example apiVersionChecked_once_run :
  match runCalls marshalText unmarshalObject (fun _ => None)
          (fun _ => EmptyString) newClient
          [downCall; versionedCall; usageCall; versionedCall] with
  | None => False
  | Some (c', outs) =>
      map (fun o => countChecks (snd o)) outs = [0; 1; 0; 0]%nat /\
      map (fun o => countDo (snd o)) outs = [4; 1; 1; 1]%nat /\
      apiVersionChecked c' = true
  end.
Proof. vm_compute. repeat split; reflexivity. Qed.

(** ** What the pipeline lets into the cache *)

Section StoreFacts.

Context {V : Type}.
Variable jsonMarshal : V -> option string.
Variable jsonUnmarshal : string -> option V.
Variable jsonErrorBody : string -> option ErrorBody.
Variable StatusText : Z -> string.

Implicit Types (c : Client (V:=V)) (call : Call).

Lemma Delete_allStorable (k : string) (m : MemoryCache V) :
  allStorable m -> allStorable (Delete k m).
Proof.
  intros H k' e Hk. simpl in Hk. apply lookup_delete_Some in Hk as [_ Hk].
  by eapply H.
Qed.

Lemma Get_allStorable now (k : string) (m : MemoryCache V) :
  allStorable m -> allStorable (snd (Get now k m)).
Proof.
  intros H. destruct (Get_cases now k m) as [-> | ->]; [done|].
  by apply Delete_allStorable.
Qed.

Lemma checkVersionOnce_cache c resp c1 evs :
  checkVersionOnce c resp = inr (c1, evs) -> cache c1 = cache c.
Proof.
  unfold checkVersionOnce. destruct (negb (apiVersionChecked c)).
  - destruct (negb (String.eqb (HeaderGet resp "X-API-Version") "")).
    + destruct (CheckAPIVersionCompatibility _) as [[e|] logs]; [done|].
      intros H. by inversion H.
    + intros H. by inversion H.
  - intros H. by inversion H.
Qed.

Lemma requestLive_allStorable c call urlStr cacheKey out c1 tr :
  allStorable (cache c) ->
  requestLive jsonUnmarshal jsonErrorBody StatusText c call urlStr cacheKey
  = Some (out, c1, tr) ->
  allStorable (cache c1).
Proof.
  intros H. unfold requestLive.
  destruct (executeWithRetry c call urlStr 1) as [[[e|resp] tr0]|]; [| |done].
  { intros E. by inversion E; subst. }
  destruct (checkVersionOnce c resp) as [[e evs]|[c2 evs]] eqn:Ec.
  { intros E. by inversion E; subst. }
  apply checkVersionOnce_cache in Ec.
  destruct (Body resp) as [respBody|];
    [|intros E; inversion E; subst; by rewrite Ec].
  destruct (400 <=? StatusCode resp);
    [intros E; inversion E; subst; by rewrite Ec|].
  destruct (jsonUnmarshal respBody) as [result|];
    [|intros E; inversion E; subst; by rewrite Ec].
  intros E. inversion E; subst. simpl. intros k e Hk.
  apply cacheResponse_lookup in Hk as [Hk|Hk]; [|done].
  rewrite Ec in Hk. by eapply H.
Qed.

Lemma requestWithOptions_allStorable c call out c1 tr :
  allStorable (cache c) ->
  requestWithOptions jsonMarshal jsonUnmarshal jsonErrorBody StatusText c call
  = Some (out, c1, tr) ->
  allStorable (cache c1).
Proof.
  intros H. unfold requestWithOptions.
  set (urlStr := baseURL c +:+ path call).
  set (cacheKey := GenerateCacheKey (method call) urlStr (authHash c)).
  destruct (String.eqb (method call) "GET" && cacheOn c && negb (skipCache call));
    [|by apply requestLive_allStorable].
  pose proof (Get_allStorable (nowLookup call) cacheKey (cache c) H) as Hg.
  destruct (Get (nowLookup call) cacheKey (cache c)) as [[entry|] m];
    simpl in Hg; [|by apply requestLive_allStorable].
  destruct (jsonMarshal (Value entry)) as [data|];
    [|by apply requestLive_allStorable].
  destruct (jsonUnmarshal data); intros E; by inversion E; subst.
Qed.

Lemma runCalls_allStorable calls : forall c c' outs,
  allStorable (cache c) ->
  runCalls jsonMarshal jsonUnmarshal jsonErrorBody StatusText c calls
  = Some (c', outs) ->
  allStorable (cache c').
Proof.
  induction calls as [|call calls IH]; intros c c' outs H; simpl.
  - intros E. by inversion E; subst.
  - destruct (requestWithOptions _ _ _ _ c call) as [[[out c1] tr]|] eqn:E1;
      [|done].
    destruct (runCalls _ _ _ _ c1 calls) as [[c2 outs']|] eqn:E2; [|done].
    intros E. inversion E; subst.
    eapply IH; [|exact E2]. by eapply requestWithOptions_allStorable.
Qed.

(** C6. [CreateCacheEntry] returns nil whenever the parsed directives have
    no-store set or max-age absent.  An entry it returns carries the parsed
    directives and expires at [now + maxAge] (the int64 sum, which is at
    least the sum of the integers whenever that fits).  [Set] leaves the
    cache as it is for an entry marked no-store.  So the cache write of the
    pipeline stores nothing for such a header, and a cache that holds no
    entry with no-store or without max-age, such as the empty cache of a new
    client, holds none after any sequence of pipeline calls. *)
Theorem CreateCacheEntry_storable :
  (forall now (value : V) header,
     NoStore (ParseCacheControl header) = true \/
     MaxAge (ParseCacheControl header) = None ->
     CreateCacheEntry now value header = None) /\
  (forall now (value : V) header entry,
     CreateCacheEntry now value header = Some entry ->
     exists maxAge,
       MaxAge (ParseCacheControl header) = Some maxAge /\
       NoStore (ParseCacheControl header) = false /\
       CacheControl entry = ParseCacheControl header /\
       Value entry = value /\
       ExpiresAt entry = add64 now maxAge /\
       (inRange64 (now + maxAge) -> now + maxAge <= ExpiresAt entry)) /\
  (forall key (entry : CacheEntry V) m,
     NoStore (CacheControl entry) = true -> Set_ key entry m = m) /\
  (forall c call key result resp,
     NoStore (ParseCacheControl (HeaderGet resp "Cache-Control")) = true \/
     MaxAge (ParseCacheControl (HeaderGet resp "Cache-Control")) = None ->
     cacheResponse c call key result resp = cache c) /\
  (forall c calls,
     allStorable (cache c) ->
     match runCalls jsonMarshal jsonUnmarshal jsonErrorBody StatusText c calls
     with
     | Some (c', _) => allStorable (cache c')
     | None => False
     end).
Proof.
  split; [apply CreateCacheEntry_None|]. split; [apply CreateCacheEntry_Some|].
  split; [|split].
  - intros key entry m H. unfold Set_. by rewrite H.
  - intros c call key result resp H. unfold cacheResponse.
    destruct (String.eqb (method call) "GET" && cacheOn c); [|done].
    by rewrite (CreateCacheEntry_None _ _ _ H).
  - intros c calls H.
    destruct (runCalls_checks jsonMarshal jsonUnmarshal jsonErrorBody
                StatusText calls c) as (c' & outs & E & _).
    rewrite E. by eapply runCalls_allStorable.
Qed.

End StoreFacts.

Lemma CreateCacheEntry_storable_witness :
  CreateCacheEntry 1700000000 "value" "private" = None /\
  Set_ "key" (mkEntry "value" 1700003600
                (mkDirectives true false false (Some 3600) None))
       (mkCache ∅ [] 2) = mkCache ∅ [] 2 /\
  match runCalls marshalText unmarshalObject (fun _ => None)
          (fun _ => EmptyString) newClient [cacheableCall; usageCall] with
  | Some (c', _) => allStorable (cache c')
  | None => False
  end.
Proof.
  destruct (CreateCacheEntry_storable marshalText unmarshalObject
              (fun _ => None) (fun _ => EmptyString))
    as (Hnil & _ & Hset & _ & Hinv).
  split; [|split].
  - apply Hnil. right. vm_compute. reflexivity.
  - apply Hset. reflexivity.
  - apply Hinv. intros k e Hk. vm_compute in Hk. discriminate.
Defined.

Example CreateCacheEntry_tests :
  CreateCacheEntry 1700000000 "value" "no-store" = None /\
  CreateCacheEntry 1700000000 "value" "private" = None /\
  CreateCacheEntry 1700000000 "value" "max-age=3600"
  = Some (mkEntry "value" 1700003600
            (mkDirectives false false false (Some 3600) None)) /\
  match runCalls marshalText unmarshalObject (fun _ => None)
          (fun _ => EmptyString) newClient [cacheableCall; usageCall] with
  | Some (c', outs) =>
      Size (cache c') = 1 /\ map (fun o => countDo (snd o)) outs = [1; 0]%nat
  | None => False
  end.
Proof. vm_compute. repeat split; reflexivity. Qed.

Example hashString_tests :
  hashString "" = "0" /\ hashString "a" = "2p" /\ hashString "key" = "29un" /\
  usageKey = "GET:https://api.refyne.uk/api/v1/usage:29un".
Proof. vm_compute. repeat split; reflexivity. Qed.

(** ** The cache, operation by operation *)

Section CacheRoundTrips.

Context {V : Type}.
Implicit Types (c : MemoryCache V) (e : CacheEntry V).
Implicit Types (st : gmap string (CacheEntry V)) (ord : list string).

Lemma linked_nil st : linked st [] -> st = ∅.
Proof.
  intros [_ H]. apply map_empty. intros k.
  destruct (st !! k) as [e|] eqn:E; [|done].
  assert (k ∈ @nil string) as Hk by (apply H; eauto).
  by apply elem_of_nil in Hk.
Qed.

(** Without room for a single entry the loop empties the cache. *)
Lemma evict_all (N : Z) ord : forall st,
  N <= 0 -> linked st ord -> evict N st ord = (∅, []).
Proof.
  induction ord as [|k ord IH]; intros st HN H; simpl.
  - by rewrite (linked_nil st H).
  - destruct (N <=? Z.of_nat (size st)) eqn:E; [|apply Z.leb_gt in E; lia].
    apply IH; [done|]. by apply linked_delete_head.
Qed.

Lemma removeFirst_twice (k : string) ord :
  NoDup ord -> removeFirst k (removeFirst k ord) = removeFirst k ord.
Proof.
  intros Hnd. apply removeFirst_notin.
  rewrite removeFirst_elem by done. by intros [_ ?].
Qed.

Lemma Delete_absent (k : string) c :
  orderMatchesStore c -> store c !! k = None -> Delete k c = c.
Proof.
  intros [Hnd H] Hk. unfold Delete.
  rewrite delete_id by done. rewrite removeFirst_notin; [by destruct c|].
  rewrite H, Hk. by intros [? ?].
Qed.

(** X8.  Set then Get.  An entry that is not marked no-store is stored
    under its key whatever the cache held, and Get returns it, leaving the
    cache as it is, as long as the entry has not expired; below capacity
    every other key keeps what it had. *)
Theorem Set_Get_roundtrip c (k : string) e :
  NoStore (CacheControl e) = false ->
  store (Set_ k e c) !! k = Some e /\
  (forall now, now <= ExpiresAt e ->
     Get now k (Set_ k e c) = (Some e, Set_ k e c)) /\
  (Size c < maxEntries c ->
   forall k', k' <> k -> store (Set_ k e c) !! k' = store c !! k').
Proof.
  intros Hns.
  assert (Hk : store (Set_ k e c) !! k = Some e).
  { unfold Set_. rewrite Hns.
    destruct (evict (maxEntries c) (store c) (order c)) as [st ord].
    simpl. apply lookup_insert_eq. }
  split; [done|]. split.
  - intros now Hnow. unfold Get. rewrite Hk.
    destruct (ExpiresAt e <? now) eqn:E; [lia|done].
  - intros Hsz k' Hne. unfold Set_. rewrite Hns, evict_below by done.
    simpl. by rewrite lookup_insert_ne.
Qed.

(** X9.  Delete.  After Delete the key is not found, and looking for it
    changes nothing; every other key is found as before.  On a cache whose
    order list matches its store, deleting an absent key changes nothing,
    and deleting twice is deleting once. *)
Theorem Delete_Get c (k : string) :
  (forall now, Get now k (Delete k c) = (None, Delete k c)) /\
  (forall now k', k' <> k ->
     fst (Get now k' (Delete k c)) = fst (Get now k' c)) /\
  Size (Delete k c) <= Size c /\
  (orderMatchesStore c -> store c !! k = None -> Delete k c = c) /\
  (orderMatchesStore c -> Delete k (Delete k c) = Delete k c).
Proof.
  split; [|split; [|split; [|split]]].
  - intros now. unfold Get. simpl. by rewrite lookup_delete_eq.
  - intros now k' Hne. unfold Get. simpl. rewrite lookup_delete_ne by done.
    destruct (store c !! k') as [e|]; [|done].
    destruct (ExpiresAt e <? now); [|done].
    destruct (StaleWhileRevalidate (CacheControl e)) as [s|]; [|done].
    by destruct (now <? add64 (ExpiresAt e) s).
  - apply Delete_size.
  - apply Delete_absent.
  - intros H. apply Delete_absent; [by apply Delete_invariant|].
    simpl. apply lookup_delete_eq.
Qed.

(** X10.  Set at capacity.  On a full cache whose order list matches its
    store, Set evicts the oldest key before it looks for the key it sets:
    the oldest entry goes whether or not the key is new, and the key is
    appended to the order only when it is not among the keys left. *)
Theorem Set_at_capacity c (k k0 : string) e rest :
  orderMatchesStore c -> order c = k0 :: rest ->
  Size c = maxEntries c -> 1 <= maxEntries c ->
  NoStore (CacheControl e) = false ->
  Set_ k e c
  = mkCache (<[k := e]> (delete k0 (store c)))
            (if decide (k ∈ rest) then rest else rest ++ [k])
            (maxEntries c) /\
  (k <> k0 -> store (Set_ k e c) !! k0 = None) /\
  Size (Set_ k e c)
  = (if decide (k ∈ rest) then maxEntries c - 1 else maxEntries c).
Proof.
  intros Hinv Hord Hsz HN Hns.
  unfold orderMatchesStore in Hinv. rewrite Hord in Hinv.
  pose proof (linked_delete_head _ _ _ Hinv) as Hl.
  assert (Heq : Set_ k e c
    = mkCache (<[k := e]> (delete k0 (store c)))
              (if decide (k ∈ rest) then rest else rest ++ [k])
              (maxEntries c)).
  { unfold Set_. rewrite Hns, Hord, (evict_full _ _ _ _ Hinv HN Hsz).
    destruct Hl as [_ Hl]. destruct (decide (k ∈ rest)) as [Hin|Hin].
    - apply Hl in Hin as [e0 ->]. done.
    - destruct (delete k0 (store c) !! k) as [e0|] eqn:E; [|done].
      exfalso. apply Hin, Hl. eauto. }
  split; [done|]. rewrite Heq. split.
  - intros Hne. simpl. rewrite lookup_insert_ne by done. apply lookup_delete_eq.
  - unfold Size in *. simpl. rewrite map_size_insert.
    pose proof (size_delete_head _ _ _ Hinv) as Hd.
    destruct Hl as [_ Hl]. destruct (decide (k ∈ rest)) as [Hin|Hin].
    + apply Hl in Hin as [e0 ->]. simpl. lia.
    + destruct (delete k0 (store c) !! k) as [e0|] eqn:E.
      * exfalso. apply Hin, Hl. eauto.
      * simpl. lia.
Qed.

(** X11.  A cache without capacity.  With [maxEntries <= 0] the eviction
    loop empties the cache at every Set, and the entry set is stored all the
    same: the cache then holds that entry alone, one more than its
    capacity. *)
Theorem Set_without_capacity c (k : string) e :
  orderMatchesStore c -> maxEntries c <= 0 ->
  NoStore (CacheControl e) = false ->
  Set_ k e c = mkCache {[k := e]} [k] (maxEntries c) /\
  Size (Set_ k e c) = 1.
Proof.
  intros Hinv HN Hns.
  assert (Heq : Set_ k e c = mkCache {[k := e]} [k] (maxEntries c)).
  { unfold Set_. rewrite Hns, (evict_all _ _ _ HN Hinv).
    rewrite lookup_empty. simpl. by rewrite insert_empty. }
  split; [done|]. rewrite Heq. unfold Size. simpl.
  by rewrite map_size_singleton.
Qed.

(** X12.  The freshness window of a cached response.  An entry made by
    [CreateCacheEntry] at time [now] from a header with max-age [m], once
    Set, is returned by Get up to and including time [now + m]; after that
    it is returned only while stale-while-revalidate [s] is set and the
    time is before [now + m + s], and otherwise Get reports not-found and
    deletes it.  (Sums within int64.) *)
Theorem cached_freshness_window now (value : V) header entry c (k : string) :
  CreateCacheEntry now value header = Some entry ->
  exists m,
    MaxAge (ParseCacheControl header) = Some m /\
    (inRange64 (now + m) ->
     (forall t, t <= now + m ->
        Get t k (Set_ k entry c) = (Some entry, Set_ k entry c)) /\
     (StaleWhileRevalidate (ParseCacheControl header) = None ->
      forall t, now + m < t ->
        Get t k (Set_ k entry c) = (None, Delete k (Set_ k entry c))) /\
     (forall s, StaleWhileRevalidate (ParseCacheControl header) = Some s ->
        inRange64 (now + m + s) ->
        (forall t, t < now + m + s ->
           Get t k (Set_ k entry c) = (Some entry, Set_ k entry c)) /\
        (forall t, now + m < t -> now + m + s <= t ->
           Get t k (Set_ k entry c) = (None, Delete k (Set_ k entry c))))).
Proof.
  intros Hc. apply CreateCacheEntry_Some in Hc
    as (m & Hm & Hns & Hcc & _ & Hexp & _).
  exists m. split; [done|]. intros Hr.
  rewrite add64_inRange in Hexp by done.
  assert (Hk : store (Set_ k entry c) !! k = Some entry).
  { unfold Set_. rewrite Hcc, Hns.
    destruct (evict (maxEntries c) (store c) (order c)) as [st ord].
    simpl. apply lookup_insert_eq. }
  split; [|split].
  - intros t Ht. unfold Get. rewrite Hk, Hexp.
    destruct (now + m <? t) eqn:E; [lia|done].
  - intros Hs t Ht. unfold Get. rewrite Hk, Hexp, Hcc, Hs.
    destruct (now + m <? t) eqn:E; [done|lia].
  - intros s Hs Hrs. split.
    + intros t Ht. unfold Get. rewrite Hk, Hexp, Hcc, Hs.
      rewrite add64_inRange by done.
      destruct (now + m <? t) eqn:E; [|done].
      destruct (t <? now + m + s) eqn:E'; [done|lia].
    + intros t Ht Hts. unfold Get. rewrite Hk, Hexp, Hcc, Hs.
      rewrite add64_inRange by done.
      destruct (now + m <? t) eqn:E; [|lia].
      destruct (t <? now + m + s) eqn:E'; [lia|done].
Qed.

End CacheRoundTrips.

(** ** Where each directive comes from *)

Lemma applyPart_NoStore d p :
  NoStore (applyPart d p) = NoStore d || String.eqb p "no-store".
Proof.
  unfold applyPart. destruct (String.eqb p "no-store") eqn:E1.
  { simpl. by rewrite orb_true_r. }
  rewrite orb_false_r.
  destruct (String.eqb p "no-cache"); [done|].
  destruct (String.eqb p "private"); [done|].
  destruct (HasPrefix p "max-age="); [by destruct (atoiOk _)|].
  destruct (HasPrefix p "stale-while-revalidate="); [|done].
  by destruct (atoiOk _).
Qed.

Lemma applyPart_NoCache d p :
  NoCache (applyPart d p) = NoCache d || String.eqb p "no-cache".
Proof.
  unfold applyPart. destruct (String.eqb p "no-store") eqn:E1.
  { apply String.eqb_eq in E1. subst p. simpl. by rewrite orb_false_r. }
  destruct (String.eqb p "no-cache") eqn:E2.
  { simpl. by rewrite orb_true_r. }
  rewrite orb_false_r.
  destruct (String.eqb p "private"); [done|].
  destruct (HasPrefix p "max-age="); [by destruct (atoiOk _)|].
  destruct (HasPrefix p "stale-while-revalidate="); [|done].
  by destruct (atoiOk _).
Qed.

Lemma applyPart_Private d p :
  Private (applyPart d p) = Private d || String.eqb p "private".
Proof.
  unfold applyPart. destruct (String.eqb p "no-store") eqn:E1.
  { apply String.eqb_eq in E1. subst p. simpl. by rewrite orb_false_r. }
  destruct (String.eqb p "no-cache") eqn:E2.
  { apply String.eqb_eq in E2. subst p. simpl. by rewrite orb_false_r. }
  destruct (String.eqb p "private") eqn:E3.
  { simpl. by rewrite orb_true_r. }
  rewrite orb_false_r.
  destruct (HasPrefix p "max-age="); [by destruct (atoiOk _)|].
  destruct (HasPrefix p "stale-while-revalidate="); [|done].
  by destruct (atoiOk _).
Qed.

(** A flag of the result is set by the fold exactly when it was set before
    or some part is its token. *)
Lemma fold_applyPart_flag (flag : CacheControlDirectives -> bool)
  (token : string) :
  (forall d p, flag (applyPart d p) = flag d || String.eqb p token) ->
  forall ps d,
    flag (fold_left applyPart ps d) = true <-> flag d = true \/ token ∈ ps.
Proof.
  intros Hstep. induction ps as [|p ps IH]; intros d; simpl.
  - split; [by left|]. intros [H|H]; [done|by apply elem_of_nil in H].
  - rewrite IH, Hstep, orb_true_iff, String.eqb_eq, elem_of_cons.
    split; [intros [[H|H]|H]|intros [H|[H|H]]]; auto.
Qed.

Lemma fold_applyPart_MaxAge_from ps : forall d v,
  MaxAge (fold_left applyPart ps d) = Some v ->
  MaxAge d = Some v \/ exists p, p ∈ ps /\ kindOf p = KMaxAge v.
Proof.
  induction ps as [|p ps IH]; intros d v; simpl; [by left|].
  intros H. apply IH in H as [H|(q & Hq & Hk)].
  - rewrite applyPart_kind in H.
    destruct (kindOf p) eqn:Ek; simpl in H; try by left.
    right. exists p. split; [left|]. congruence.
  - right. exists q. split; [by right|done].
Qed.

Lemma fold_applyPart_Stale_from ps : forall d v,
  StaleWhileRevalidate (fold_left applyPart ps d) = Some v ->
  StaleWhileRevalidate d = Some v \/ exists p, p ∈ ps /\ kindOf p = KStale v.
Proof.
  induction ps as [|p ps IH]; intros d v; simpl; [by left|].
  intros H. apply IH in H as [H|(q & Hq & Hk)].
  - rewrite applyPart_kind in H.
    destruct (kindOf p) eqn:Ek; simpl in H; try by left.
    right. exists p. split; [left|]. congruence.
  - right. exists q. split; [by right|done].
Qed.

(** X13.  Where the directives come from.  Each flag of the result is set
    exactly when some part of the header, trimmed and lower-cased, is its
    token; a max-age or stale-while-revalidate of the result is the value
    of some part of the header. *)
Theorem ParseCacheControl_sources (h : string) :
  (NoStore (ParseCacheControl h) = true
   <-> "no-store" ∈ map normalPart (Split h ",")) /\
  (NoCache (ParseCacheControl h) = true
   <-> "no-cache" ∈ map normalPart (Split h ",")) /\
  (Private (ParseCacheControl h) = true
   <-> "private" ∈ map normalPart (Split h ",")) /\
  (forall v, MaxAge (ParseCacheControl h) = Some v ->
     exists p, p ∈ Split h "," /\ kindOf (normalPart p) = KMaxAge v) /\
  (forall v, StaleWhileRevalidate (ParseCacheControl h) = Some v ->
     exists p, p ∈ Split h "," /\ kindOf (normalPart p) = KStale v).
Proof.
  rewrite ParseCacheControl_fold.
  split; [|split; [|split; [|split]]].
  - rewrite (fold_applyPart_flag NoStore "no-store" applyPart_NoStore).
    simpl. split; [by intros [?|?]|by right].
  - rewrite (fold_applyPart_flag NoCache "no-cache" applyPart_NoCache).
    simpl. split; [by intros [?|?]|by right].
  - rewrite (fold_applyPart_flag Private "private" applyPart_Private).
    simpl. split; [by intros [?|?]|by right].
  - intros v H. apply fold_applyPart_MaxAge_from in H as [H|(p & Hp & Hk)];
      [done|].
    apply list_elem_of_fmap in Hp as (q & -> & Hq). eauto.
  - intros v H. apply fold_applyPart_Stale_from in H as [H|(p & Hp & Hk)];
      [done|].
    apply list_elem_of_fmap in Hp as (q & -> & Hq). eauto.
Qed.

(** X14.  The last value wins.  When several parts give max-age (or
    stale-while-revalidate) a value, the result carries the value of the
    last of them. *)
Theorem ParseCacheControl_last_wins (h : string) (ps : list string)
  (p : string) (qs : list string) :
  Split h "," = ps ++ p :: qs ->
  (forall v, kindOf (normalPart p) = KMaxAge v ->
     (forall q w, q ∈ qs -> kindOf (normalPart q) <> KMaxAge w) ->
     MaxAge (ParseCacheControl h) = Some v) /\
  (forall v, kindOf (normalPart p) = KStale v ->
     (forall q w, q ∈ qs -> kindOf (normalPart q) <> KStale w) ->
     StaleWhileRevalidate (ParseCacheControl h) = Some v).
Proof.
  intros Hs. rewrite ParseCacheControl_fold, Hs, map_app, fold_left_app.
  simpl. split; intros v Hk Hqs.
  - rewrite fold_applyPart_MaxAge.
    + rewrite applyPart_kind, Hk. done.
    + intros q w Hq. apply list_elem_of_fmap in Hq as (q' & -> & Hq').
      by apply Hqs.
  - rewrite fold_applyPart_Stale.
    + rewrite applyPart_kind, Hk. done.
    + intros q w Hq. apply list_elem_of_fmap in Hq as (q' & -> & Hq').
      by apply Hqs.
Qed.

Lemma ParseCacheControl_last_wins_witness :
  MaxAge (ParseCacheControl "max-age=60, private, Max-Age=5, no-cache") = Some 5.
Proof.
  refine (proj1 (ParseCacheControl_last_wins
                   "max-age=60, private, Max-Age=5, no-cache"
                   ["max-age=60"; " private"] " Max-Age=5" [" no-cache"]
                   eq_refl) 5 eq_refl _).
  intros q w Hq. apply list_elem_of_singleton in Hq. subst q.
  vm_compute. discriminate.
Defined.

(** ** The order of versions *)

Ltac compare_cases x y :=
  destruct (x =? y) eqn:?; simpl; [|destruct (x <? y) eqn:?].

(** X15.  CompareVersions orders strings as a total preorder: its result is
    -1, 0 or 1; a version compares equal to itself; swapping the arguments
    negates the result; and the comparison is transitive. *)
Theorem CompareVersions_preorder (a b c : string) :
  (CompareVersions a b = -1 \/ CompareVersions a b = 0 \/
   CompareVersions a b = 1) /\
  CompareVersions a a = 0 /\
  CompareVersions b a = - CompareVersions a b /\
  (CompareVersions a b <= 0 -> CompareVersions b c <= 0 ->
   CompareVersions a c <= 0) /\
  (CompareVersions a b = 0 -> CompareVersions a c = CompareVersions b c).
Proof.
  unfold CompareVersions.
  destruct (ParseVersion a) as [[[a1 a2] a3] ap].
  destruct (ParseVersion b) as [[[b1 b2] b3] bp].
  destruct (ParseVersion c) as [[[c1 c2] c3] cp].
  split; [|split; [|split; [|split]]].
  - compare_cases a1 b1; [compare_cases a2 b2; [compare_cases a3 b3|..]|..]; auto.
  - rewrite !Z.eqb_refl. done.
  - compare_cases a1 b1; [compare_cases a2 b2; [compare_cases a3 b3|..]|..];
      compare_cases b1 a1; try lia;
      compare_cases b2 a2; try lia;
      compare_cases b3 a3; lia.
  - compare_cases a1 b1; [compare_cases a2 b2; [compare_cases a3 b3|..]|..];
      try lia;
      (compare_cases b1 c1; [compare_cases b2 c2; [compare_cases b3 c3|..]|..];
       try lia);
      (compare_cases a1 c1; [compare_cases a2 c2; [compare_cases a3 c3|..]|..];
       lia).
  - compare_cases a1 b1; [compare_cases a2 b2; [compare_cases a3 b3|..]|..];
      try lia. intros _.
    assert (a1 = b1) as -> by lia. assert (a2 = b2) as -> by lia.
    assert (a3 = b3) as -> by lia. done.
Qed.

(** ** Strings *)

Lemma append_assoc (a b c : string) : (a +:+ b) +:+ c = a +:+ (b +:+ c).
Proof.
  induction a as [|x a IH]; [done|].
  change (String x ((a +:+ b) +:+ c) = String x (a +:+ (b +:+ c))).
  by rewrite IH.
Qed.

Lemma length_append (a b : string) :
  String.length (a +:+ b) = (String.length a + String.length b)%nat.
Proof.
  induction a as [|x a IH]; [done|].
  change (S (String.length (a +:+ b)) = S (String.length a + String.length b)).
  by rewrite IH.
Qed.








(** ** Cache keys *)




(** ** The hash of the API key *)

Lemma digit36_spec d :
  0 <= d < 36 -> isBase36 (digit36 d) = true /\ digitValue (digit36 d) = d.
Proof.
  intros H.
  assert (Hall : forallb
            (fun d => isBase36 (digit36 d) && (digitValue (digit36 d) =? d))
            (map Z.of_nat (seq 0 36)) = true) by (vm_compute; reflexivity).
  rewrite forallb_forall in Hall.
  specialize (Hall d). rewrite andb_true_iff, Z.eqb_eq in Hall. apply Hall.
  apply in_map_iff. exists (Z.to_nat d). split; [lia|]. apply in_seq. lia.
Qed.

Lemma allBase36_app a b :
  allBase36 (a +:+ b) = allBase36 a && allBase36 b.
Proof.
  induction a as [|c a IH]; [done|].
  change (allBase36 (String c (a +:+ b)) = allBase36 (String c a) && allBase36 b).
  simpl. by rewrite IH, andb_assoc.
Qed.

Lemma base36From_app a b : forall v,
  base36From v (a +:+ b) = base36From (base36From v a) b.
Proof.
  induction a as [|c a IH]; intros v; [done|].
  change (base36From v (String c (a +:+ b))
          = base36From (base36From v (String c a)) b).
  simpl. by rewrite IH.
Qed.

(** The digits [formatBase36] puts before [acc] denote [n]. *)
Lemma formatBase36_S b n acc :
  formatBase36 (S b) n acc
  = if n <? 36 then String (digit36 (n mod 36)) acc
    else formatBase36 b (n / 36) (String (digit36 (n mod 36)) acc).
Proof. reflexivity. Qed.

Lemma formatBase36_spec b : forall n acc,
  0 <= n < 36 ^ Z.of_nat (S b) ->
  exists ds,
    formatBase36 (S b) n acc = ds +:+ acc /\
    (1 <= String.length ds <= S b)%nat /\
    allBase36 ds = true /\
    forall v, base36From v ds = v * 36 ^ Z.of_nat (String.length ds) + n.
Proof.
  induction b as [|b IH]; intros n acc Hn;
    pose proof (Z.mod_pos_bound n 36 ltac:(lia)) as Hmod;
    destruct (digit36_spec (n mod 36) Hmod) as [Hd Hv];
    rewrite formatBase36_S; destruct (n <? 36) eqn:E.
  1, 3: apply Z.ltb_lt in E; exists (String (digit36 (n mod 36)) EmptyString);
    (split; [done|]); (split; [simpl; lia|]);
    (split; [simpl; by rewrite Hd|]);
    intros v; simpl; rewrite Hv, Z.mod_small by lia; lia.
  - apply Z.ltb_ge in E. change (36 ^ Z.of_nat 1) with 36 in Hn. lia.
  - apply Z.ltb_ge in E.
    assert (0 <= n / 36 < 36 ^ Z.of_nat (S b)) as Hq.
    { split; [apply Z.div_pos; lia|].
      apply Z.div_lt_upper_bound; [lia|].
      replace (Z.of_nat (S (S b))) with (Z.of_nat (S b) + 1) in Hn by lia.
      rewrite Z.pow_add_r in Hn by lia. lia. }
    destruct (IH (n / 36) (String (digit36 (n mod 36)) acc) Hq)
      as (ds & -> & Hlen & Hall & Hval).
    exists (ds +:+ String (digit36 (n mod 36)) EmptyString).
    split; [by rewrite append_assoc|].
    rewrite length_append. simpl String.length.
    split; [lia|]. split.
    + rewrite allBase36_app, Hall. simpl. by rewrite Hd.
    + intros v. rewrite base36From_app, Hval. simpl. rewrite Hv.
      replace (Z.of_nat (String.length ds + 1))
        with (Z.of_nat (String.length ds) + 1) by lia.
      rewrite Z.pow_add_r by lia.
      pose proof (Z.div_mod n 36 ltac:(lia)). lia.
Qed.

Lemma hashLoop_bound s : forall h,
  0 <= h < 2 ^ 32 -> 0 <= hashLoop h s < 2 ^ 32.
Proof.
  induction s as [|c s IH]; intros h Hh; simpl; [done|].
  apply IH. apply Z.mod_pos_bound. lia.
Qed.

(** X17.  The hash of a key.  [hashString] returns between one and seven
    digits of base 36 (0-9, a-z), and they denote the 32-bit hash of the
    string: h = 31 * h + byte, from 0, modulo 2^32. *)
Theorem hashString_digits (s : string) :
  isASCII s = true ->
  (1 <= String.length (hashString s) <= 7)%nat /\
  allBase36 (hashString s) = true /\
  base36Value (hashString s) = hashLoop 0 s /\
  0 <= hashLoop 0 s < 2 ^ 32 /\
  (forall h c rest, hashLoop h (String c rest)
                    = hashLoop ((31 * h + byteOf c) mod 2 ^ 32) rest).
Proof.
  intros _. pose proof (hashLoop_bound s 0 ltac:(lia)) as Hb.
  unfold hashString, base36Value.
  destruct (formatBase36_spec 6 (hashLoop 0 s) EmptyString)
    as (ds & -> & Hlen & Hall & Hval).
  { change (36 ^ Z.of_nat 7) with 78364164096. lia. }
  rewrite append_empty_r. split; [done|]. split; [done|].
  split; [rewrite Hval; lia|]. split; [done|].
  intros h c rest. simpl. f_equal. f_equal. lia.
Qed.

Lemma hashString_digits_witness :
  base36Value (hashString "key") = hashLoop 0 "key".
Proof.
  exact (proj1 (proj2 (proj2 (hashString_digits "key" eq_refl)))).
Defined.

(** ** The base URL *)

Lemma TrimRightByte_replicate n c :
  TrimRightByte (replicateByte n c) c = EmptyString.
Proof.
  induction n as [|n IH]; simpl; [done|]. by rewrite IH, Ascii.eqb_refl.
Qed.

Lemma TrimRightByte_app u c n :
  lastByte u <> Some c ->
  TrimRightByte (u +:+ replicateByte n c) c = u.
Proof.
  induction u as [|b u IH]; intros Hl.
  - apply TrimRightByte_replicate.
  - change (String b u +:+ replicateByte n c)
      with (String b (u +:+ replicateByte n c)).
    simpl TrimRightByte. destruct u as [|b' u].
    + change (EmptyString +:+ replicateByte n c) with (replicateByte n c).
      rewrite TrimRightByte_replicate.
      destruct (Ascii.eqb b c) eqn:E; [|done].
      apply Ascii.eqb_eq in E. subst. by simpl in Hl.
    + rewrite IH by done. done.
Qed.

Lemma TrimRightByte_split s c :
  lastByte (TrimRightByte s c) <> Some c /\
  exists n, s = TrimRightByte s c +:+ replicateByte n c.
Proof.
  induction s as [|b s [IHl [n IHn]]]; simpl.
  - split; [done|]. by exists 0%nat.
  - destruct (TrimRightByte s c) as [|b' r] eqn:E.
    + destruct (Ascii.eqb b c) eqn:Eb.
      * apply Ascii.eqb_eq in Eb. subst b. split; [done|].
        exists (S n). rewrite IHn at 1. done.
      * apply Ascii.eqb_neq in Eb. split; [simpl; congruence|].
        exists n. rewrite IHn at 1. done.
    + split; [done|]. exists n. rewrite IHn at 1. done.
Qed.

(** X18.  The base URL.  [WithBaseURL] stores the URL without its trailing
    slashes, all of them and nothing else: the URL is what is stored
    followed by slashes, and what is stored does not end in a slash.  The
    other fields of the client are kept. *)
Theorem WithBaseURL_trims {V : Type} (url : string) (c : Client (V:=V)) :
  lastByte (baseURL (WithBaseURL url c)) <> Some "/"%char /\
  (exists n, url = baseURL (WithBaseURL url c) +:+ replicateByte n "/") /\
  (forall u n, lastByte u <> Some "/"%char ->
     url = u +:+ replicateByte n "/" -> baseURL (WithBaseURL url c) = u) /\
  baseURL (WithBaseURL (baseURL (WithBaseURL url c)) c)
  = baseURL (WithBaseURL url c) /\
  (apiKey (WithBaseURL url c), authHash (WithBaseURL url c),
   cache (WithBaseURL url c), cacheOn (WithBaseURL url c),
   maxRetries (WithBaseURL url c), apiVersionChecked (WithBaseURL url c))
  = (apiKey c, authHash c, cache c, cacheOn c, maxRetries c,
     apiVersionChecked c).
Proof.
  simpl. destruct (TrimRightByte_split url "/") as [Hl Hn].
  split; [done|]. split; [done|]. split; [|split; [|done]].
  - intros u n Hu ->. by apply TrimRightByte_app.
  - rewrite <- (append_empty_r (TrimRightByte url "/")) at 1.
    by apply (TrimRightByte_app _ _ 0).
Qed.

(** ** The shape of a retry trace *)

Section RetryShape.

Context {V : Type}.
Implicit Types (c : Client (V:=V)) (call : Call).

Lemma executeWithRetryFuel_final c call urlStr fuel attempt :
  bodyMarshals call = true -> requestBuilds call = true ->
  maxRetries c < attempt \/ retryWait attempt (Do call attempt) = None ->
  executeWithRetryFuel fuel c call urlStr attempt
  = Some (lastAnswer (Do call attempt), [EvDo attempt (method call) urlStr]).
Proof.
  intros Hb Hr Hlast. unfold retryWait in Hlast.
  destruct fuel; simpl; rewrite Hb, Hr; simpl;
    (destruct (Do call attempt) as [err|resp];
     [destruct Hlast as [Hlast|Hlast]; [|done];
      by assert ((attempt <=? maxRetries c) = false) as -> by lia
     |destruct Hlast as [Hlast|Hlast];
      [assert ((attempt <=? maxRetries c) = false) as -> by lia;
       by rewrite !andb_false_r
      |destruct (StatusCode resp =? 429); [done|];
       by destruct (500 <=? StatusCode resp)]]).
Qed.

Lemma executeWithRetryFuel_again c call urlStr fuel attempt wait :
  bodyMarshals call = true -> requestBuilds call = true ->
  attempt <= maxRetries c ->
  retryWait attempt (Do call attempt) = Some wait ->
  exists log,
    executeWithRetryFuel (S fuel) c call urlStr attempt
    = option_map
        (prepend [EvDo attempt (method call) urlStr; EvLog log; EvSleep wait])
        (executeWithRetryFuel fuel c call urlStr (attempt + 1)).
Proof.
  intros Hb Hr Hle Hw. unfold retryWait in Hw.
  assert ((attempt <=? maxRetries c) = true) as E by lia.
  simpl. rewrite Hb, Hr, E. simpl.
  destruct (Do call attempt) as [err|resp].
  - inversion Hw; subst. rewrite calculateBackoff_min. eauto.
  - rewrite !andb_true_r. destruct (StatusCode resp =? 429).
    + inversion Hw; subst. rewrite parseRetryAfter_wait. eauto.
    + destruct (500 <=? StatusCode resp); [|done].
      inversion Hw; subst. rewrite calculateBackoff_min. eauto.
Qed.

(** The trace of the loop from [attempt] on: one call of the transport per
    attempt up to the first attempt [k] whose answer is final, and the wait
    of each retried attempt in between. *)
Lemma executeWithRetryFuel_shape c call urlStr fuel : forall attempt,
  bodyMarshals call = true -> requestBuilds call = true ->
  (retryFuel c attempt <= fuel)%nat ->
  exists k tr,
    attempt <= k /\
    executeWithRetryFuel fuel c call urlStr attempt
    = Some (lastAnswer (Do call k), tr) /\
    (forall a, attempt <= a < k ->
       a <= maxRetries c /\ retryWait a (Do call a) <> None) /\
    (maxRetries c < k \/ retryWait k (Do call k) = None) /\
    transportCalls tr
    = map (fun a => (a, method call, urlStr)) (seqZ attempt (k - attempt + 1)) /\
    sleeps tr
    = map (fun a => default 0 (retryWait a (Do call a)))
          (seqZ attempt (k - attempt)).
Proof.
  induction fuel as [|fuel IH]; intros attempt Hb Hr Hf.
  - assert (maxRetries c < attempt) as Hlast by (unfold retryFuel in Hf; lia).
    exists attempt, [EvDo attempt (method call) urlStr].
    split; [lia|]. split; [apply executeWithRetryFuel_final; auto|].
    split; [intros a Ha; lia|]. split; [by left|].
    replace (attempt - attempt + 1) with 1 by lia.
    replace (attempt - attempt) with 0 by lia. done.
  - destruct (decide (maxRetries c < attempt)) as [Hgt|Hle];
      [|destruct (retryWait attempt (Do call attempt)) as [wait|] eqn:Ew].
    + exists attempt, [EvDo attempt (method call) urlStr].
      split; [lia|]. split; [apply executeWithRetryFuel_final; auto|].
      split; [intros a Ha; lia|]. split; [by left|].
      replace (attempt - attempt + 1) with 1 by lia.
      replace (attempt - attempt) with 0 by lia. done.
    + assert (attempt <= maxRetries c) as Hle' by lia.
      destruct (executeWithRetryFuel_again c call urlStr fuel attempt wait
                  Hb Hr Hle' Ew) as (log & ->).
      rewrite (retryFuel_step c attempt Hle') in Hf.
      destruct (IH (attempt + 1) Hb Hr ltac:(lia))
        as (k & tr & Hk & -> & Hretried & Hfinal & Hcalls & Hsleeps).
      exists k, ([EvDo attempt (method call) urlStr; EvLog log; EvSleep wait]
                 ++ tr).
      split; [lia|]. split; [done|]. split; [|split; [done|split]].
      * intros a Ha. destruct (decide (a = attempt)) as [->|Hne].
        -- split; [done|]. by rewrite Ew.
        -- apply Hretried. lia.
      * simpl. rewrite Hcalls, (seqZ_cons attempt) by lia. simpl.
        do 3 f_equal; lia.
      * simpl. rewrite Hsleeps, (seqZ_cons attempt) by lia. simpl.
        rewrite Ew. simpl. do 3 f_equal; lia.
    + exists attempt, [EvDo attempt (method call) urlStr].
      split; [lia|]. split; [apply executeWithRetryFuel_final; auto|].
      split; [intros a Ha; lia|]. split; [by right|].
      replace (attempt - attempt + 1) with 1 by lia.
      replace (attempt - attempt) with 0 by lia. done.
Qed.

Lemma countDo_transportCalls (tr : list Event) :
  countDo tr = length (transportCalls tr).
Proof.
  induction tr as [|e tr IH]; [done|].
  rewrite countDo_cons, IH. by destruct e.
Qed.

(** X19.  What the retry loop returns.  When the request can be built, the
    loop returns the answer of the first attempt [k] that is final: the
    first whose answer is not retried (no network error, no 429, no status
    of 500 or more), or the first attempt beyond [maxRetries].  The
    transport is called once per attempt from 1 to [k], each time with the
    method and the URL of the call, and between two attempts the loop
    sleeps the wait of the attempt that failed. *)
Theorem executeWithRetry_first_final c call urlStr :
  bodyMarshals call = true -> requestBuilds call = true ->
  exists k tr,
    1 <= k /\
    executeWithRetry c call urlStr 1 = Some (lastAnswer (Do call k), tr) /\
    (forall a, 1 <= a < k ->
       a <= maxRetries c /\ retryWait a (Do call a) <> None) /\
    (maxRetries c < k \/ retryWait k (Do call k) = None) /\
    transportCalls tr = map (fun a => (a, method call, urlStr)) (seqZ 1 k) /\
    countDo tr = Z.to_nat k /\
    sleeps tr
    = map (fun a => default 0 (retryWait a (Do call a))) (seqZ 1 (k - 1)).
Proof.
  intros Hb Hr.
  destruct (executeWithRetryFuel_shape c call urlStr (retryFuel c 1) 1 Hb Hr)
    as (k & tr & Hk & E & Hretried & Hfinal & Hcalls & Hsleeps); [done|].
  replace (k - 1 + 1) with k in Hcalls by lia.
  exists k, tr. repeat split; try done.
  - by apply Hretried.
  - by apply Hretried.
  - rewrite countDo_transportCalls, Hcalls, length_map, length_seqZ. done.
Qed.

End RetryShape.

(** ** The live path *)

Section LiveFacts.

Context {V : Type}.
Variable jsonMarshal : V -> option string.
Variable jsonUnmarshal : string -> option V.
Variable jsonErrorBody : string -> option ErrorBody.
Variable StatusText : Z -> string.

Implicit Types (c : Client (V:=V)) (call : Call) (tr : list Event).

Lemma checkVersionOnce_settings c resp c1 evs :
  checkVersionOnce c resp = inr (c1, evs) ->
  settings c1 = settings c /\ cache c1 = cache c /\ countDo evs = 0%nat.
Proof.
  unfold checkVersionOnce. destruct (negb (apiVersionChecked c)).
  - destruct (negb (String.eqb (HeaderGet resp "X-API-Version") "")).
    + destruct (CheckAPIVersionCompatibility _) as [[e|] logs]; [done|].
      intros H. inversion H; subst. repeat split.
      rewrite countDo_cons. simpl. clear.
      induction logs as [|l logs IH]; [done|]. simpl.
      by rewrite countDo_cons, IH.
    + intros H. by inversion H.
  - intros H. by inversion H.
Qed.

(** The live path, case by case. *)
Lemma requestLive_cases c call urlStr cacheKey :
  exists r tr0,
    executeWithRetry c call urlStr 1 = Some (r, tr0) /\
    match r with
    | inl e =>
        requestLive jsonUnmarshal jsonErrorBody StatusText c call urlStr cacheKey
        = Some (failed e, c, tr0)
    | inr resp =>
        exists c1 evs,
          checkVersionOnce c resp = inr (c1, evs) /\
          settings c1 = settings c /\ cache c1 = cache c /\
          countDo evs = 0%nat /\
          requestLive jsonUnmarshal jsonErrorBody StatusText c call urlStr
            cacheKey
          = match Body resp with
            | None =>
                Some (failed (Errorf "failed to read response" "io"), c1,
                      tr0 ++ evs)
            | Some respBody =>
                if 400 <=? StatusCode resp then
                  Some (failed (parseErrorResponse jsonErrorBody StatusText
                                  resp respBody), c1, tr0 ++ evs)
                else
                  match jsonUnmarshal respBody with
                  | None =>
                      Some (failed (Errorf "failed to parse response" "json"),
                            c1, tr0 ++ evs)
                  | Some result =>
                      Some (mkOutcome None (Some result),
                            withCache c1
                              (cacheResponse c1 call cacheKey result resp),
                            tr0 ++ evs)
                  end
            end
    end.
Proof.
  destruct (executeWithRetry_total c call urlStr 1) as (r & tr0 & E).
  exists r, tr0. split; [done|]. unfold requestLive. rewrite E.
  destruct r as [e|resp]; [done|].
  destruct (checkVersionOnce_spec c resp) as (c1 & evs & Ec & _).
  exists c1, evs. rewrite Ec.
  destruct (checkVersionOnce_settings _ _ _ _ Ec) as (Hs & Hc & Hd).
  repeat split; done.
Qed.

Lemma cacheResponse_maxEntries c call key result resp :
  maxEntries (cacheResponse c call key result resp) = maxEntries (cache c).
Proof.
  unfold cacheResponse.
  destruct (String.eqb (method call) "GET" && cacheOn c); [|done].
  destruct (CreateCacheEntry _ _ _) as [entry|]; [|done].
  apply (runOp_maxEntries (cache c) (OpSet key entry)).
Qed.

Lemma cacheResponse_other c call key result resp k e :
  k <> key ->
  store (cacheResponse c call key result resp) !! k = Some e ->
  store (cache c) !! k = Some e.
Proof.
  intros Hne. unfold cacheResponse.
  destruct (String.eqb (method call) "GET" && cacheOn c); [|done].
  destruct (CreateCacheEntry _ _ _) as [entry|]; [|done].
  intros Hk. apply Set_lookup in Hk as [Hk|(-> & _)]; done.
Qed.

Lemma cacheResponse_off c call key result resp :
  method call <> "GET" \/ cacheOn c = false ->
  cacheResponse c call key result resp = cache c.
Proof.
  intros H. unfold cacheResponse.
  destruct (String.eqb (method call) "GET") eqn:E; [|done].
  apply String.eqb_eq in E. destruct H as [H|H]; [done|]. by rewrite H.
Qed.

(** What the live path leaves behind. *)
Lemma requestLive_keeps c call urlStr cacheKey out c1 tr :
  requestLive jsonUnmarshal jsonErrorBody StatusText c call urlStr cacheKey
  = Some (out, c1, tr) ->
  settings c1 = settings c /\
  maxEntries (cache c1) = maxEntries (cache c) /\
  (err out <> None -> cache c1 = cache c) /\
  (method call <> "GET" \/ cacheOn c = false -> cache c1 = cache c) /\
  (forall k e, k <> cacheKey -> store (cache c1) !! k = Some e ->
               store (cache c) !! k = Some e).
Proof.
  destruct (requestLive_cases c call urlStr cacheKey) as (r & tr0 & E & H).
  destruct r as [e|resp].
  { rewrite H. intros H'. inversion H'; subst. repeat split; done. }
  destruct H as (c2 & evs & _ & Hs & Hc & _ & ->).
  destruct (Body resp) as [respBody|].
  2: { intros H'. inversion H'; subst. rewrite Hs, Hc. repeat split; done. }
  destruct (400 <=? StatusCode resp).
  { intros H'. inversion H'; subst. rewrite Hs, Hc. repeat split; done. }
  destruct (jsonUnmarshal respBody) as [result|].
  2: { intros H'. inversion H'; subst. rewrite Hs, Hc. repeat split; done. }
  intros H'. inversion H'; subst. simpl.
  split; [done|]. split; [by rewrite cacheResponse_maxEntries, Hc|].
  split; [done|]. split.
  - intros Hoff. rewrite cacheResponse_off; [done|].
    unfold settings in Hs. inversion Hs. destruct Hoff; [by left|right; congruence].
  - intros k e Hne Hk. rewrite <- Hc. by eapply cacheResponse_other.
Qed.

(** Whenever the request can be built the live path calls the transport. *)
Lemma requestLive_calls c call urlStr cacheKey out c1 tr :
  bodyMarshals call = true -> requestBuilds call = true ->
  requestLive jsonUnmarshal jsonErrorBody StatusText c call urlStr cacheKey
  = Some (out, c1, tr) ->
  (1 <= countDo tr)%nat.
Proof.
  intros Hb Hr.
  destruct (executeWithRetryFuel_shape c call urlStr (retryFuel c 1) 1 Hb Hr)
    as (k & tr0 & Hk & E & _ & _ & Hcalls & _); [done|].
  assert (Hn : (1 <= countDo tr0)%nat).
  { rewrite countDo_transportCalls, Hcalls, length_map, length_seqZ. lia. }
  unfold requestLive, executeWithRetry. rewrite E.
  destruct (lastAnswer (Do call k)) as [e|resp].
  { intros H. inversion H; subst. lia. }
  destruct (checkVersionOnce c resp) as [[e evs]|[c2 evs]].
  { intros H. inversion H; subst. rewrite countDo_app. lia. }
  destruct (Body resp) as [respBody|];
    [|intros H; inversion H; subst; rewrite countDo_app; lia].
  destruct (400 <=? StatusCode resp);
    [intros H; inversion H; subst; rewrite countDo_app; lia|].
  destruct (jsonUnmarshal respBody);
    intros H; inversion H; subst; rewrite countDo_app; lia.
Qed.

End LiveFacts.

(** ** The pipeline and the cache *)

Lemma transportCalls_app (tr1 tr2 : list Event) :
  transportCalls (tr1 ++ tr2) = transportCalls tr1 ++ transportCalls tr2.
Proof.
  induction tr1 as [|e tr1 IH]; [done|]. destruct e; simpl; by rewrite ?IH.
Qed.

Lemma transportCalls_none (evs : list Event) :
  countDo evs = 0%nat -> transportCalls evs = [].
Proof.
  induction evs as [|e evs IH]; [done|].
  rewrite countDo_cons. destruct e; simpl; try done; intros H; apply IH; lia.
Qed.

Section PipelineMore.

Context {V : Type}.
Variable jsonMarshal : V -> option string.
Variable jsonUnmarshal : string -> option V.
Variable jsonErrorBody : string -> option ErrorBody.
Variable StatusText : Z -> string.

Implicit Types (c : Client (V:=V)) (call : Call) (tr : list Event).

Lemma requestWithOptions_live c call :
  method call <> "GET" \/ cacheOn c = false \/ skipCache call = true ->
  requestWithOptions jsonMarshal jsonUnmarshal jsonErrorBody StatusText c call
  = requestLive jsonUnmarshal jsonErrorBody StatusText c call
      (baseURL c +:+ path call) (keyOf c (method call) (path call)).
Proof.
  intros H. unfold requestWithOptions, keyOf.
  destruct (String.eqb (method call) "GET") eqn:E; [|done].
  apply String.eqb_eq in E.
  destruct H as [H|[H|H]]; [done|by rewrite H|].
  rewrite H. by rewrite andb_false_r.
Qed.

(** The calls of the transport on the live path: the attempts from 1 on,
    each with the method and the URL of the call. *)
Lemma requestLive_transport c call urlStr cacheKey out c1 tr :
  bodyMarshals call = true -> requestBuilds call = true ->
  requestLive jsonUnmarshal jsonErrorBody StatusText c call urlStr cacheKey
  = Some (out, c1, tr) ->
  exists k, 1 <= k /\
    transportCalls tr = map (fun a => (a, method call, urlStr)) (seqZ 1 k).
Proof.
  intros Hb Hr.
  destruct (executeWithRetryFuel_shape c call urlStr (retryFuel c 1) 1 Hb Hr)
    as (k & tr0 & Hk & E & _ & _ & Hcalls & _); [done|].
  replace (k - 1 + 1) with k in Hcalls by lia.
  destruct (requestLive_cases jsonUnmarshal jsonErrorBody StatusText c call
              urlStr cacheKey) as (r & tr0' & E' & H).
  unfold executeWithRetry in E'. rewrite E in E'. inversion E'; subst r tr0'.
  exists k. split; [done|].
  destruct (lastAnswer (Do call k)) as [e|resp].
  { rewrite H in H0. by inversion H0; subst. }
  destruct H as (c2 & evs & _ & _ & _ & Hd & H). rewrite H in H0.
  assert (transportCalls (tr0 ++ evs)
          = map (fun a => (a, method call, urlStr)) (seqZ 1 k)) as Happ.
  { by rewrite transportCalls_app, (transportCalls_none evs Hd), app_nil_r. }
  destruct (Body resp) as [respBody|]; [|by inversion H0; subst].
  destruct (400 <=? StatusCode resp); [by inversion H0; subst|].
  destruct (jsonUnmarshal respBody); by inversion H0; subst.
Qed.

(** A usable entry in the cache answers the call. *)
Lemma requestWithOptions_hit c call entry m data :
  method call = "GET" -> cacheOn c = true -> skipCache call = false ->
  Get (nowLookup call) (keyOf c (method call) (path call)) (cache c)
  = (Some entry, m) ->
  jsonMarshal (Value entry) = Some data ->
  requestWithOptions jsonMarshal jsonUnmarshal jsonErrorBody StatusText c call
  = Some (match jsonUnmarshal data with
          | Some result => mkOutcome None (Some result)
          | None => failed (DecodeError "json")
          end, withCache c m, []).
Proof.
  intros Hm Hon Hskip Hget Hdata. unfold requestWithOptions.
  unfold keyOf in Hget. rewrite Hm, Hon, Hskip. simpl.
  rewrite Hm in Hget. rewrite Hget, Hdata.
  by destruct (jsonUnmarshal data).
Qed.

(** X20.  Requests that bypass the cache.  A request whose method is not
    GET, a request of a client with caching off, and a request made with
    skipCache are not answered from the cache: they take the live path, and
    call the transport whenever the request can be built.  The first two
    leave the cache as it is, whatever the response. *)
Theorem requestWithOptions_bypass c call :
  method call <> "GET" \/ cacheOn c = false \/ skipCache call = true ->
  exists out c1 tr,
    requestWithOptions jsonMarshal jsonUnmarshal jsonErrorBody StatusText c call
    = Some (out, c1, tr) /\
    requestLive jsonUnmarshal jsonErrorBody StatusText c call
      (baseURL c +:+ path call) (keyOf c (method call) (path call))
    = Some (out, c1, tr) /\
    (bodyMarshals call = true -> requestBuilds call = true ->
     (1 <= countDo tr)%nat) /\
    (method call <> "GET" \/ cacheOn c = false -> cache c1 = cache c).
Proof.
  intros H. rewrite (requestWithOptions_live c call H).
  destruct (requestLive_checkStep jsonUnmarshal jsonErrorBody StatusText c call
              (baseURL c +:+ path call) (keyOf c (method call) (path call)))
    as (out & c1 & tr & E & _).
  exists out, c1, tr. split; [done|]. split; [done|]. split.
  - intros Hb Hr. by eapply requestLive_calls.
  - intros Hoff. by eapply requestLive_keeps.
Qed.

Lemma requestWithOptions_total c call :
  exists out c1 tr,
    requestWithOptions jsonMarshal jsonUnmarshal jsonErrorBody StatusText c call
    = Some (out, c1, tr).
Proof.
  destruct (requestWithOptions_checkStep jsonMarshal jsonUnmarshal
              jsonErrorBody StatusText c call) as (out & c1 & tr & E & _).
  by exists out, c1, tr.
Qed.

(** X21.  What a call leaves behind.  Every call returns.  No call changes
    the settings of the client or the capacity of its cache.  Under every
    key but its own, an entry found after the call was there before it.  A
    call that fails writes nothing: it leaves the cache as it was, but for
    the entry of its own key when the lookup found it expired and deleted
    it. *)
Theorem requestWithOptions_keeps c call :
  match requestWithOptions jsonMarshal jsonUnmarshal jsonErrorBody StatusText
          c call with
  | None => False
  | Some (out, c1, tr) =>
      settings c1 = settings c /\
      maxEntries (cache c1) = maxEntries (cache c) /\
      (forall k e, k <> keyOf c (method call) (path call) ->
         store (cache c1) !! k = Some e -> store (cache c) !! k = Some e) /\
      (err out <> None ->
       cache c1 = cache c \/
       cache c1 = Delete (keyOf c (method call) (path call)) (cache c))
  end.
Proof.
  destruct (requestWithOptions_total c call) as (out & c1 & tr & E).
  rewrite E. revert E.
  unfold requestWithOptions. fold (keyOf c (method call) (path call)).
  set (key := keyOf c (method call) (path call)).
  set (urlStr := baseURL c +:+ path call).
  assert (Hlive : forall m,
    m = cache c \/ m = Delete key (cache c) ->
    requestLive jsonUnmarshal jsonErrorBody StatusText (withCache c m) call
      urlStr key = Some (out, c1, tr) ->
    settings c1 = settings c /\
    maxEntries (cache c1) = maxEntries (cache c) /\
    (forall k e, k <> key ->
       store (cache c1) !! k = Some e -> store (cache c) !! k = Some e) /\
    (err out <> None -> cache c1 = cache c \/ cache c1 = Delete key (cache c))).
  { intros m Hm E. apply requestLive_keeps in E as (Hs & Hmax & Herr & _ & Hk).
    simpl in Hmax, Herr, Hk. split; [done|]. split; [|split].
    - rewrite Hmax. by destruct Hm as [-> | ->].
    - intros k e Hne H. specialize (Hk k e Hne H).
      destruct Hm as [-> | ->]; [done|]. simpl in Hk.
      by apply lookup_delete_Some in Hk as [_ Hk].
    - intros He. rewrite (Herr He). done. }
  destruct (String.eqb (method call) "GET" && cacheOn c && negb (skipCache call)).
  - pose proof (Get_cases (nowLookup call) key (cache c)) as Hg.
    destruct (Get (nowLookup call) key (cache c)) as [[entry|] m];
      simpl in Hg; [|by apply Hlive].
    destruct (jsonMarshal (Value entry)) as [data|]; [|by apply Hlive].
    assert (Hhit : forall o, Some (o, withCache c m, @nil Event)
                             = Some (out, c1, tr) ->
      settings c1 = settings c /\
      maxEntries (cache c1) = maxEntries (cache c) /\
      (forall k e, k <> key ->
         store (cache c1) !! k = Some e -> store (cache c) !! k = Some e) /\
      (err out <> None ->
       cache c1 = cache c \/ cache c1 = Delete key (cache c))).
    { intros o E. inversion E; subst. simpl. split; [done|].
      split; [by destruct Hg as [-> | ->]|]. split; [|done].
      intros k e Hne H. destruct Hg as [-> | ->]; [done|]. simpl in H.
      by apply lookup_delete_Some in H as [_ H]. }
    destruct (jsonUnmarshal data); apply Hhit.
  - intros E. apply (Hlive (cache c)); [by left|].
    by destruct c.
Qed.

(** X22.  A response is cached, then served.  A GET of a client with
    caching on that goes to the network (skipCache, or nothing usable in
    the cache), is answered at once with a status below 400, a body that
    decodes and a Cache-Control header that allows caching, succeeds after
    one call of the transport and stores the entry under its key.  The same
    GET, made again before the entry expires, is then answered from the
    cache, with the stored value marshalled and decoded again, and the
    transport is not called. *)
Theorem response_cached_then_served c call resp body result entry :
  method call = "GET" -> cacheOn c = true ->
  requestBuilds call = true -> bodyMarshals call = true ->
  skipCache call = true \/
  fst (Get (nowLookup call) (keyOf c "GET" (path call)) (cache c)) = None ->
  Do call 1 = DoResponse resp -> StatusCode resp < 400 ->
  Body resp = Some body -> jsonUnmarshal body = Some result ->
  CreateCacheEntry (nowStore call) result (HeaderGet resp "Cache-Control")
  = Some entry ->
  exists c1 tr,
    requestWithOptions jsonMarshal jsonUnmarshal jsonErrorBody StatusText c call
    = Some (mkOutcome None (Some result), c1, tr) /\
    countDo tr = 1%nat /\
    store (cache c1) !! keyOf c "GET" (path call) = Some entry /\
    forall call2 data,
      method call2 = "GET" -> path call2 = path call ->
      skipCache call2 = false -> nowLookup call2 <= ExpiresAt entry ->
      jsonMarshal result = Some data ->
      exists c2,
        requestWithOptions jsonMarshal jsonUnmarshal jsonErrorBody StatusText
          c1 call2
        = Some (match jsonUnmarshal data with
                | Some r => mkOutcome None (Some r)
                | None => failed (DecodeError "json")
                end, c2, []) /\
        cache c2 = cache c1.
Proof.
  intros Hm Hon Hr Hb Hmiss Hdo Hst Hbody Hdec Hentry.
  set (key := keyOf c "GET" (path call)).
  set (urlStr := baseURL c +:+ path call).
  assert (Hlive : forall m,
    exists c1 tr,
      requestLive jsonUnmarshal jsonErrorBody StatusText (withCache c m) call
        urlStr key
      = Some (mkOutcome None (Some result), c1, tr) /\
      countDo tr = 1%nat /\ store (cache c1) !! key = Some entry /\
      settings c1 = settings c).
  { intros m.
    assert (Hfin : retryWait 1 (Do call 1) = None).
    { rewrite Hdo. simpl.
      destruct (StatusCode resp =? 429) eqn:E1; [lia|].
      destruct (500 <=? StatusCode resp) eqn:E2; [lia|done]. }
    pose proof (executeWithRetryFuel_final (withCache c m) call urlStr
                  (retryFuel (withCache c m) 1) 1 Hb Hr (or_intror Hfin)) as E.
    rewrite Hdo in E. simpl lastAnswer in E.
    unfold requestLive, executeWithRetry. rewrite E.
    destruct (checkVersionOnce_spec (withCache c m) resp)
      as (c1 & evs & Ec & _).
    rewrite Ec. destruct (checkVersionOnce_settings _ _ _ _ Ec) as (Hs & Hc & Hd).
    rewrite Hbody. assert ((400 <=? StatusCode resp) = false) as -> by lia.
    rewrite Hdec. eexists _, _. split; [done|].
    split; [by rewrite countDo_app, Hd, countDo_cons|].
    simpl. unfold cacheResponse. rewrite Hm.
    assert (cacheOn c1 = cacheOn c) as -> by (inversion Hs; done).
    rewrite Hon. simpl. rewrite Hentry.
    apply CreateCacheEntry_Some in Hentry as (_ & _ & Hns & Hcc & _).
    split; [|done]. unfold Set_. rewrite Hcc, Hns.
    destruct (evict _ _ _) as [st ord]. simpl. apply lookup_insert_eq. }
  assert (Hfirst : exists c1 tr,
    requestWithOptions jsonMarshal jsonUnmarshal jsonErrorBody StatusText c call
    = Some (mkOutcome None (Some result), c1, tr) /\
    countDo tr = 1%nat /\ store (cache c1) !! key = Some entry /\
    settings c1 = settings c).
  { unfold requestWithOptions. rewrite Hm, Hon. simpl.
    fold (keyOf c "GET" (path call)). fold key. fold urlStr.
    destruct (skipCache call) eqn:Es; simpl.
    - destruct (Hlive (cache c)) as (c1 & tr & E & H).
      exists c1, tr. split; [|done]. rewrite <- E. by destruct c.
    - destruct Hmiss as [?|Hmiss]; [done|]. fold key in Hmiss.
      destruct (Get (nowLookup call) key (cache c)) as [[e|] m]; [done|].
      apply Hlive. }
  destruct Hfirst as (c1 & tr & E & Hn & Hk & Hs).
  exists c1, tr. split; [done|]. split; [done|]. split; [done|].
  intros call2 data Hm2 Hp2 Hskip2 Hnow Hdata.
  exists (withCache c1 (cache c1)). split; [|done].
  unfold requestWithOptions. rewrite Hm2, Hskip2, Hp2. simpl.
  assert (baseURL c1 = baseURL c /\ authHash c1 = authHash c /\
          cacheOn c1 = cacheOn c) as (-> & -> & ->) by (inversion Hs; done).
  rewrite Hon. simpl. fold (keyOf c "GET" (path call)). fold key.
  unfold Get. rewrite Hk.
  destruct (ExpiresAt entry <? nowLookup call2) eqn:En; [lia|].
  apply CreateCacheEntry_Some in Hentry as (_ & _ & _ & _ & Hv & _).
  rewrite Hv, Hdata. by destruct (jsonUnmarshal data).
Qed.

End PipelineMore.

(** ** The services *)

Section ServiceFacts.

Context {V : Type}.
Variable jsonMarshal : V -> option string.
Variable jsonUnmarshal : string -> option V.
Variable jsonErrorBody : string -> option ErrorBody.
Variable StatusText : Z -> string.

Implicit Types (c : Client (V:=V)) (call : Call) (w : Answers).

(** Into a nil result nothing decodes: no path of the pipeline ends
    without an error. *)
Lemma requestInto_nil c call :
  exists out c1 tr,
    requestInto jsonMarshal jsonUnmarshal jsonErrorBody StatusText false c call
    = Some (out, c1, tr) /\ err out <> None.
Proof.
  unfold requestInto, requestWithOptions.
  set (urlStr := baseURL c +:+ path call).
  set (key := GenerateCacheKey (method call) urlStr (authHash c)).
  assert (Hlive : forall c0, exists out c1 tr,
    requestLive unmarshalNil jsonErrorBody StatusText c0 call urlStr key
    = Some (out, c1, tr) /\ err out <> None).
  { intros c0.
    destruct (requestLive_cases (V:=V) unmarshalNil jsonErrorBody StatusText c0
                call urlStr key) as (r & tr0 & _ & H).
    destruct r as [e|resp]; [by eexists _, _, _|].
    destruct H as (c1 & evs & _ & _ & _ & _ & ->).
    destruct (Body resp) as [b|]; [|by eexists _, _, _].
    destruct (400 <=? StatusCode resp); by eexists _, _, _. }
  destruct (String.eqb (method call) "GET" && cacheOn c && negb (skipCache call));
    [|apply Hlive].
  destruct (Get (nowLookup call) key (cache c)) as [[entry|] m]; [|apply Hlive].
  destruct (jsonMarshal (Value entry)) as [data|]; [|apply Hlive].
  by eexists _, _, _.
Qed.

Lemma request_nil_success c (verb path : string) (hasBody : bool) w resp b :
  verb <> "GET" -> builds w = true -> (hasBody = true -> marshals w = true) ->
  answer w 1 = DoResponse resp -> StatusCode resp < 400 ->
  Body resp = Some b ->
  exists c1 tr,
    request jsonMarshal jsonUnmarshal jsonErrorBody StatusText c verb path
      hasBody false w
    = Some (failed (Errorf "failed to parse response" "json"), c1, tr) /\
    transportCalls tr = [(1, verb, baseURL c +:+ path)] /\
    cache c1 = cache c.
Proof.
  intros Hm Hr Hb Hdo Hst Hbody. unfold request, requestInto.
  rewrite requestWithOptions_live by (by left). simpl.
  set (call := callOf verb path hasBody false w).
  assert (Hfin : retryWait 1 (Do call 1) = None).
  { simpl. rewrite Hdo. simpl.
    destruct (StatusCode resp =? 429) eqn:E1; [lia|].
    destruct (500 <=? StatusCode resp) eqn:E2; [lia|done]. }
  assert (Hb' : bodyMarshals call = true).
  { simpl. destruct hasBody; [by rewrite Hb|done]. }
  pose proof (executeWithRetryFuel_final c call (baseURL c +:+ path)
                (retryFuel c 1) 1 Hb' Hr (or_intror Hfin)) as E.
  simpl Do in E. rewrite Hdo in E. simpl lastAnswer in E.
  unfold requestLive, executeWithRetry. rewrite E.
  destruct (checkVersionOnce_spec c resp) as (c1 & evs & Ec & _ & Ht & Hf).
  rewrite Ec. destruct (checkVersionOnce_settings _ _ _ _ Ec) as (Hs & Hc & Hd).
  rewrite Hbody. assert ((400 <=? StatusCode resp) = false) as -> by lia.
  simpl. eexists _, _. split; [done|]. split; [|done].
  simpl. f_equal. by apply transportCalls_none.
Qed.

(** X23.  The methods without a result.  [SchemasService.Delete],
    [SitesService.Delete], [KeysService.Revoke], [LLMService.DeleteKey] and
    [LLMService.SetChain] pass a nil result, into which the response is
    decoded all the same: they return an error on every path.  When the
    server answers the first attempt with a status below 400, the request
    has reached it, once, and the method returns the error
    [failed to parse response]. *)
Theorem no_result_never_succeeds c (id : string) w :
  Forall (fun r => exists out c1 tr, r = Some (out, c1, tr) /\ err out <> None)
    [SchemasService_Delete jsonMarshal jsonUnmarshal jsonErrorBody StatusText
       c id w;
     SitesService_Delete jsonMarshal jsonUnmarshal jsonErrorBody StatusText
       c id w;
     KeysService_Revoke jsonMarshal jsonUnmarshal jsonErrorBody StatusText
       c id w;
     LLMService_DeleteKey jsonMarshal jsonUnmarshal jsonErrorBody StatusText
       c id w;
     LLMService_SetChain jsonMarshal jsonUnmarshal jsonErrorBody StatusText
       c w] /\
  (forall resp b,
     builds w = true -> answer w 1 = DoResponse resp ->
     StatusCode resp < 400 -> Body resp = Some b ->
     exists c1 tr,
       SchemasService_Delete jsonMarshal jsonUnmarshal jsonErrorBody StatusText
         c id w
       = Some (failed (Errorf "failed to parse response" "json"), c1, tr) /\
       transportCalls tr
       = [(1, "DELETE", baseURL c +:+ "/api/v1/schemas/" +:+ id)]).
Proof.
  split.
  - repeat constructor; apply requestInto_nil.
  - intros resp b Hr Hdo Hst Hbody.
    destruct (request_nil_success c "DELETE" ("/api/v1/schemas/" +:+ id) false
                w resp b) as (c1 & tr & E & Hcalls & _); try done.
    by exists c1, tr.
Qed.

(** X24.  Writes do not invalidate cached reads.  When the cache of a
    client holds a usable entry for [SchemasService.Get] of a schema, an
    Update or a Delete of that schema through the same client leaves the
    entry where it is: the next Get is answered from the cache as before,
    without calling the transport. *)
Theorem update_keeps_cached_read c (id : string) w entry m data :
  cacheOn c = true ->
  Get (lookupTime w) (keyOf c "GET" ("/api/v1/schemas/" +:+ id)) (cache c)
  = (Some entry, m) ->
  jsonMarshal (Value entry) = Some data ->
  let served :=
    match jsonUnmarshal data with
    | Some result => mkOutcome None (Some result)
    | None => failed (DecodeError "json")
    end in
  (exists c0,
     SchemasService_Get jsonMarshal jsonUnmarshal jsonErrorBody StatusText
       c id w = Some (served, c0, [])) /\
  forall wu,
    (exists out1 c1 tr1 c2,
       SchemasService_Update jsonMarshal jsonUnmarshal jsonErrorBody StatusText
         c id wu = Some (out1, c1, tr1) /\
       SchemasService_Get jsonMarshal jsonUnmarshal jsonErrorBody StatusText
         c1 id w = Some (served, c2, [])) /\
    (exists out1 c1 tr1 c2,
       SchemasService_Delete jsonMarshal jsonUnmarshal jsonErrorBody StatusText
         c id wu = Some (out1, c1, tr1) /\
       SchemasService_Get jsonMarshal jsonUnmarshal jsonErrorBody StatusText
         c1 id w = Some (served, c2, [])).
Proof.
  intros Hon Hget Hdata served.
  assert (Hhit : forall c',
    settings c' = settings c -> cache c' = cache c ->
    exists c2,
      SchemasService_Get jsonMarshal jsonUnmarshal jsonErrorBody StatusText
        c' id w = Some (served, c2, [])).
  { intros c' Hs Hc. exists (withCache c' m).
    unfold SchemasService_Get, request, requestInto.
    apply requestWithOptions_hit with (entry := entry); try done.
    - simpl. inversion Hs. congruence.
    - simpl. unfold keyOf in *. inversion Hs. rewrite Hc. congruence. }
  split; [by apply Hhit|]. intros wu.
  assert (Hwrite : forall (verb : string) (hasBody hasResult : bool),
    verb <> "GET" ->
    exists out1 c1 tr1 c2,
      request jsonMarshal jsonUnmarshal jsonErrorBody StatusText c verb
        ("/api/v1/schemas/" +:+ id) hasBody hasResult wu
      = Some (out1, c1, tr1) /\
      SchemasService_Get jsonMarshal jsonUnmarshal jsonErrorBody StatusText
        c1 id w = Some (served, c2, [])).
  { intros verb hasBody hasResult Hm. unfold request, requestInto.
    rewrite requestWithOptions_live by (by left).
    set (call := callOf verb ("/api/v1/schemas/" +:+ id) hasBody false wu).
    destruct (requestLive_checkStep
                (if hasResult then jsonUnmarshal else unmarshalNil)
                jsonErrorBody StatusText c call
                (baseURL c +:+ path call) (keyOf c (method call) (path call)))
      as (out1 & c1 & tr1 & E & _).
    rewrite E.
    apply requestLive_keeps in E as (Hs & _ & _ & Hoff & _).
    destruct (Hhit c1 Hs (Hoff (or_introl Hm))) as (c2 & E2).
    by exists out1, c1, tr1, c2. }
  split; by apply Hwrite.
Qed.

(** X25.  Jobs are read live.  [JobsService.Get] and
    [JobsService.GetResults] skip the cache lookup: whatever the cache
    holds, the first thing they do, when the request can be built, is to
    call the transport with GET on the URL of the job. *)
Theorem JobsService_Get_live c (id : string) (merge : bool) w :
  builds w = true ->
  (exists out c1 tr k,
     JobsService_Get jsonMarshal jsonUnmarshal jsonErrorBody StatusText c id w
     = Some (out, c1, tr) /\ 1 <= k /\
     transportCalls tr
     = map (fun a => (a, "GET", baseURL c +:+ "/api/v1/jobs/" +:+ id))
           (seqZ 1 k)) /\
  (exists out c1 tr k,
     JobsService_GetResults jsonMarshal jsonUnmarshal jsonErrorBody StatusText
       c id merge w
     = Some (out, c1, tr) /\ 1 <= k /\
     transportCalls tr
     = map (fun a => (a, "GET",
                      baseURL c +:+
                      (if merge
                       then "/api/v1/jobs/" +:+ id +:+ "/results?merge=true"
                       else "/api/v1/jobs/" +:+ id +:+ "/results")))
           (seqZ 1 k)).
Proof.
  intros Hr.
  assert (Hskip : forall p,
    exists out c1 tr k,
      requestInto jsonMarshal jsonUnmarshal jsonErrorBody StatusText true c
        (callOf "GET" p false true w) = Some (out, c1, tr) /\ 1 <= k /\
      transportCalls tr = map (fun a => (a, "GET", baseURL c +:+ p)) (seqZ 1 k)).
  { intros p. unfold requestInto.
    rewrite requestWithOptions_live by (right; by right).
    set (call := callOf "GET" p false true w).
    destruct (requestLive_checkStep jsonUnmarshal jsonErrorBody StatusText c
                call (baseURL c +:+ path call)
                (keyOf c (method call) (path call)))
      as (out & c1 & tr & E & _).
    destruct (requestLive_transport jsonUnmarshal jsonErrorBody StatusText
                c call _ _ out c1 tr eq_refl Hr E) as (k & Hk & Hcalls).
    by exists out, c1, tr, k. }
  split; [apply Hskip|].
  unfold JobsService_GetResults. destruct merge.
  - rewrite !append_assoc. apply Hskip.
  - apply Hskip.
Qed.

End ServiceFacts.

(** ** Paths and error texts *)

(** X26.  The path of a job listing.  A limit or an offset that is not
    positive is left out of the query; with neither there is no query
    string.  [JobsService.List] builds the path that the earlier
    [JobsClient.List] builds for the same limit and offset, and for no
    options the path it builds for zero. *)
Theorem JobsService_List_path_agrees (limit offset : Z) :
  JobsService_List_path limit offset
  = JobsClient_List_path (Some (limit, offset)) /\
  JobsClient_List_path None = JobsService_List_path 0 0 /\
  (limit <= 0 -> offset <= 0 ->
   JobsService_List_path limit offset = "/api/v1/jobs") /\
  (0 < limit -> offset <= 0 ->
   JobsService_List_path limit offset
   = "/api/v1/jobs?limit=" +:+ formatInt limit) /\
  (limit <= 0 -> 0 < offset ->
   JobsService_List_path limit offset
   = "/api/v1/jobs?offset=" +:+ formatInt offset) /\
  (0 < limit -> 0 < offset ->
   JobsService_List_path limit offset
   = "/api/v1/jobs?limit=" +:+ formatInt limit +:+ "&offset=" +:+
     formatInt offset).
Proof.
  unfold JobsService_List_path, JobsClient_List_path.
  split; [|split; [done|]].
  - destruct (0 <? limit) eqn:El, (0 <? offset) eqn:Eo; try done.
  - repeat split; intros Hl Ho.
    + assert ((0 <? limit) = false) as -> by lia.
      by assert ((0 <? offset) = false) as -> by lia.
    + assert ((0 <? limit) = true) as -> by lia.
      by assert ((0 <? offset) = false) as -> by lia.
    + assert ((0 <? limit) = false) as -> by lia.
      by assert ((0 <? offset) = true) as -> by lia.
    + assert ((0 <? limit) = true) as -> by lia.
      assert ((0 <? offset) = true) as -> by lia.
      simpl. rewrite !append_assoc. done.
Qed.

(** X27.  The text of a classified error.  For the statuses 400, 401, 403,
    404 and 429 the text of the error that the classifier returns is the
    message alone, the [error] field of the body or the text of the status
    code: the [detail] of the body is not kept.  For every other status it
    is the message, followed by a colon and the detail when the body has
    one. *)
Theorem ErrorText_classified
  (jsonErrorBody : string -> option ErrorBody) (StatusText : Z -> string)
  (resp : Response) (body : string) :
  let e := parseErrorResponse jsonErrorBody StatusText resp body in
  let decoded := default zeroErrorBody (jsonErrorBody body) in
  let msg := if String.eqb (ebError decoded) "" then StatusText (StatusCode resp)
             else ebError decoded in
  ErrorText e
  = match tableVariant (StatusCode resp) with
    | Generic =>
        if String.eqb (ebDetail decoded) "" then msg
        else msg +:+ ": " +:+ ebDetail decoded
    | _ => msg
    end.
Proof.
  simpl. unfold parseErrorResponse, tableVariant.
  destruct (StatusCode resp =? 400); [done|].
  destruct (StatusCode resp =? 401); [done|].
  destruct (StatusCode resp =? 403); [done|].
  destruct (StatusCode resp =? 404); [done|].
  destruct (StatusCode resp =? 429); [done|].
  simpl. unfold RefyneError_Error. simpl.
  by destruct (String.eqb (ebDetail _) "").
Qed.

(** ** The properties with premises, at concrete inputs *)

Lemma twoKeys_invariant : orderMatchesStore twoKeys.
Proof.
  unfold twoKeys.
  apply (runOps_invariant
           [OpSet "key1" (freshEntry "v1"); OpSet "key2" (freshEntry "v2")]
           (mkCache ∅ [] 2)); simpl; [lia|]. split.
  - split; [apply NoDup_nil_2|]. intros k. simpl. rewrite lookup_empty.
    split; [inversion 1 | by intros [? ?]].
  - unfold withinCapacity, Size. simpl. rewrite map_size_empty. lia.
Qed.

Lemma Set_Get_roundtrip_witness :
  Get 1700000000 "key3" (Set_ "key3" (freshEntry "v3") twoKeys)
  = (Some (freshEntry "v3"), Set_ "key3" (freshEntry "v3") twoKeys).
Proof.
  refine (proj1 (proj2 (Set_Get_roundtrip twoKeys "key3" (freshEntry "v3")
                          eq_refl)) 1700000000 _).
  simpl. lia.
Defined.

Lemma Set_at_capacity_witness :
  Set_ "key2" (freshEntry "v2'") twoKeys
  = mkCache (<["key2" := freshEntry "v2'"]> (delete "key1" (store twoKeys)))
            (if decide ("key2" ∈ ["key2"]) then ["key2"] else ["key2"] ++ ["key2"])
            (maxEntries twoKeys).
Proof.
  refine (proj1 (Set_at_capacity twoKeys "key2" "key1" (freshEntry "v2'")
                   ["key2"] twoKeys_invariant _ _ _ eq_refl)).
  - vm_compute. reflexivity.
  - vm_compute. reflexivity.
  - vm_compute. discriminate.
Defined.

Lemma Set_without_capacity_witness :
  Set_ "key" (freshEntry "v") (mkCache ∅ [] 0)
  = mkCache {["key" := freshEntry "v"]} ["key"] 0.
Proof.
  refine (proj1 (Set_without_capacity (mkCache ∅ [] 0) "key" (freshEntry "v")
                   _ _ eq_refl)).
  - split; [apply NoDup_nil_2|]. intros k. simpl. rewrite lookup_empty.
    split; [inversion 1 | by intros [? ?]].
  - simpl. lia.
Defined.

Lemma cached_freshness_window_witness :
  exists m,
    MaxAge (ParseCacheControl "max-age=3600, stale-while-revalidate=60")
    = Some m /\
    (inRange64 (1700000000 + m) ->
     (forall t, t <= 1700000000 + m ->
        Get t "key" (Set_ "key"
                       (mkEntry "value" 1700003600
                          (mkDirectives false false false (Some 3600) (Some 60)))
                       (mkCache ∅ [] 2))
        = (Some (mkEntry "value" 1700003600
                   (mkDirectives false false false (Some 3600) (Some 60))),
           Set_ "key"
             (mkEntry "value" 1700003600
                (mkDirectives false false false (Some 3600) (Some 60)))
             (mkCache ∅ [] 2)))).
Proof.
  destruct (cached_freshness_window 1700000000 "value"
              "max-age=3600, stale-while-revalidate=60"
              (mkEntry "value" 1700003600
                 (mkDirectives false false false (Some 3600) (Some 60)))
              (mkCache ∅ [] 2) "key") as (m & Hm & H).
  - vm_compute. reflexivity.
  - exists m. split; [exact Hm|]. intros Hr. exact (proj1 (H Hr)).
Defined.

Lemma executeWithRetry_first_final_witness :
  exists k tr,
    1 <= k /\
    executeWithRetry newClient downCall "u" 1
    = Some (lastAnswer (Do downCall k), tr) /\
    (forall a, 1 <= a < k ->
       a <= maxRetries newClient /\ retryWait a (Do downCall a) <> None) /\
    (maxRetries newClient < k \/ retryWait k (Do downCall k) = None) /\
    transportCalls tr = map (fun a => (a, method downCall, "u")) (seqZ 1 k) /\
    countDo tr = Z.to_nat k /\
    sleeps tr
    = map (fun a => default 0 (retryWait a (Do downCall a))) (seqZ 1 (k - 1)).
Proof.
  exact (executeWithRetry_first_final newClient downCall "u" eq_refl eq_refl).
Defined.

Lemma requestWithOptions_bypass_witness :
  exists out c1 tr,
    requestWithOptions marshalText unmarshalObject (fun _ => None)
      (fun _ => EmptyString) staleShapeClient postCall
    = Some (out, c1, tr) /\
    (1 <= countDo tr)%nat /\ cache c1 = cache staleShapeClient.
Proof.
  destruct (requestWithOptions_bypass marshalText unmarshalObject
              (fun _ => None) (fun _ => EmptyString) staleShapeClient postCall)
    as (out & c1 & tr & E & _ & Hcalls & Hcache).
  - left. simpl. discriminate.
  - exists out, c1, tr. split; [exact E|]. split.
    + apply Hcalls; reflexivity.
    + apply Hcache. left. simpl. discriminate.
Defined.

Lemma response_cached_then_served_witness :
  exists c1 tr,
    requestWithOptions marshalText unmarshalObject (fun _ => None)
      (fun _ => EmptyString) newClient cacheableCall
    = Some (mkOutcome None (Some "{}"), c1, tr) /\
    countDo tr = 1%nat /\
    store (cache c1) !! keyOf newClient "GET" (path cacheableCall)
    = Some cachedEntry.
Proof.
  destruct (response_cached_then_served marshalText unmarshalObject
              (fun _ => None) (fun _ => EmptyString) newClient cacheableCall
              cacheableResponse "{}" "{}" cachedEntry)
    as (c1 & tr & E & Hn & Hk & _).
  - reflexivity.
  - reflexivity.
  - reflexivity.
  - reflexivity.
  - right. vm_compute. reflexivity.
  - reflexivity.
  - simpl. lia.
  - reflexivity.
  - reflexivity.
  - vm_compute. reflexivity.
  - exists c1, tr. split; [exact E|]. split; [exact Hn|exact Hk].
Defined.

Lemma update_keeps_cached_read_witness :
  exists out1 c1 tr1 c2,
    SchemasService_Update marshalText unmarshalObject (fun _ => None)
      (fun _ => EmptyString) schemaClient "s1" okAnswers
    = Some (out1, c1, tr1) /\
    SchemasService_Get marshalText unmarshalObject (fun _ => None)
      (fun _ => EmptyString) c1 "s1" okAnswers
    = Some (mkOutcome None (Some "{}"), c2, []).
Proof.
  destruct (update_keeps_cached_read marshalText unmarshalObject
              (fun _ => None) (fun _ => EmptyString) schemaClient "s1"
              okAnswers (freshEntry "{}") (cache schemaClient) "{}")
    as (_ & H).
  - reflexivity.
  - vm_compute. reflexivity.
  - reflexivity.
  - exact (proj1 (H okAnswers)).
Defined.

Lemma JobsService_Get_live_witness :
  exists out c1 tr k,
    JobsService_Get marshalText unmarshalObject (fun _ => None)
      (fun _ => EmptyString) newClient "j1" okAnswers
    = Some (out, c1, tr) /\ 1 <= k /\
    transportCalls tr
    = map (fun a => (a, "GET", baseURL newClient +:+ "/api/v1/jobs/" +:+ "j1"))
          (seqZ 1 k).
Proof.
  exact (proj1 (JobsService_Get_live marshalText unmarshalObject
                  (fun _ => None) (fun _ => EmptyString) newClient "j1" false
                  okAnswers eq_refl)).
Defined.

(** ** The earlier client and the later one *)

Section LegacyFacts.

Context {V : Type}.
Variable jsonUnmarshal : string -> option V.
Variable jsonErrorBody : string -> option ErrorBody.
Variable StatusText : Z -> string.

Implicit Types (cl : Legacy.Client) (c : Client (V:=V)) (call : Call).

Lemma Legacy_final cl call hasResult fuel attempt :
  bodyMarshals call = true -> requestBuilds call = true ->
  Legacy.maxRetries cl < attempt \/ retryWait attempt (Do call attempt) = None ->
  Legacy.requestWithRetryFuel jsonUnmarshal jsonErrorBody StatusText fuel cl
    call hasResult attempt
  = Some (Legacy.finish jsonUnmarshal jsonErrorBody StatusText hasResult
            (Do call attempt),
          [EvDo attempt (method call) (Legacy.baseURL cl +:+ path call)]).
Proof.
  intros Hb Hr Hlast. unfold retryWait in Hlast.
  assert (Hno : forall resp, Do call attempt = DoResponse resp ->
    (StatusCode resp =? 429) && (attempt <=? Legacy.maxRetries cl) = false /\
    (500 <=? StatusCode resp) && (attempt <=? Legacy.maxRetries cl) = false).
  { intros resp E. rewrite E in Hlast. destruct Hlast as [Hlast|Hlast].
    - assert ((attempt <=? Legacy.maxRetries cl) = false) as -> by lia.
      by rewrite !andb_false_r.
    - destruct (StatusCode resp =? 429); [done|].
      destruct (500 <=? StatusCode resp); done. }
  unfold Legacy.finish. destruct fuel; simpl; rewrite Hb, Hr; simpl.
  all: destruct (Do call attempt) as [err|resp] eqn:Ed.
  all: try (destruct Hlast as [Hlast|Hlast]; [|done];
            by assert ((attempt <=? Legacy.maxRetries cl) = false) as -> by lia).
  all: destruct (Body resp) as [respBody|]; [|done].
  all: destruct (Hno resp eq_refl) as [H1 H2]; rewrite ?H1, ?H2.
  all: destruct (400 <=? StatusCode resp); [reflexivity|].
  all: destruct (hasResult && negb (String.eqb respBody "")); [|reflexivity].
  all: by destruct (jsonUnmarshal respBody).
Qed.

Lemma Legacy_again cl call hasResult fuel attempt wait :
  bodyMarshals call = true -> requestBuilds call = true ->
  attempt <= Legacy.maxRetries cl ->
  (forall resp, Do call attempt = DoResponse resp -> Body resp <> None) ->
  retryWait attempt (Do call attempt) = Some wait ->
  exists log,
    Legacy.requestWithRetryFuel jsonUnmarshal jsonErrorBody StatusText (S fuel)
      cl call hasResult attempt
    = option_map
        (prepend [EvDo attempt (method call) (Legacy.baseURL cl +:+ path call);
                  EvLog log; EvSleep wait])
        (Legacy.requestWithRetryFuel jsonUnmarshal jsonErrorBody StatusText fuel
           cl call hasResult (attempt + 1)).
Proof.
  intros Hb Hr Hle Hread Hw. unfold retryWait in Hw.
  assert ((attempt <=? Legacy.maxRetries cl) = true) as E by lia.
  simpl. rewrite Hb, Hr, E. simpl.
  destruct (Do call attempt) as [err|resp].
  - inversion Hw; subst. eauto.
  - destruct (Body resp) as [respBody|] eqn:Eb; [|by destruct (Hread resp)].
    rewrite !andb_true_r. destruct (StatusCode resp =? 429).
    + inversion Hw; subst. eauto.
    + destruct (500 <=? StatusCode resp); [|done].
      inversion Hw; subst. eauto.
Qed.

Lemma Legacy_shape cl call hasResult fuel : forall attempt,
  bodyMarshals call = true -> requestBuilds call = true ->
  (forall a resp, Do call a = DoResponse resp -> Body resp <> None) ->
  (Z.to_nat (Legacy.maxRetries cl - attempt + 1) <= fuel)%nat ->
  exists k tr,
    attempt <= k /\
    Legacy.requestWithRetryFuel jsonUnmarshal jsonErrorBody StatusText fuel cl
      call hasResult attempt
    = Some (Legacy.finish jsonUnmarshal jsonErrorBody StatusText hasResult
              (Do call k), tr) /\
    (forall a, attempt <= a < k ->
       a <= Legacy.maxRetries cl /\ retryWait a (Do call a) <> None) /\
    (Legacy.maxRetries cl < k \/ retryWait k (Do call k) = None) /\
    transportCalls tr
    = map (fun a => (a, method call, Legacy.baseURL cl +:+ path call))
          (seqZ attempt (k - attempt + 1)) /\
    sleeps tr
    = map (fun a => default 0 (retryWait a (Do call a)))
          (seqZ attempt (k - attempt)).
Proof.
  induction fuel as [|fuel IH]; intros attempt Hb Hr Hread Hf.
  - assert (Legacy.maxRetries cl < attempt) as Hlast by lia.
    exists attempt, [EvDo attempt (method call) (Legacy.baseURL cl +:+ path call)].
    split; [lia|]. split; [apply Legacy_final; auto|].
    split; [intros a Ha; lia|]. split; [by left|].
    replace (attempt - attempt + 1) with 1 by lia.
    replace (attempt - attempt) with 0 by lia. done.
  - destruct (decide (Legacy.maxRetries cl < attempt)) as [Hgt|Hle];
      [|destruct (retryWait attempt (Do call attempt)) as [wait|] eqn:Ew].
    + exists attempt,
        [EvDo attempt (method call) (Legacy.baseURL cl +:+ path call)].
      split; [lia|]. split; [apply Legacy_final; auto|].
      split; [intros a Ha; lia|]. split; [by left|].
      replace (attempt - attempt + 1) with 1 by lia.
      replace (attempt - attempt) with 0 by lia. done.
    + assert (attempt <= Legacy.maxRetries cl) as Hle' by lia.
      destruct (Legacy_again cl call hasResult fuel attempt wait Hb Hr Hle'
                  (Hread attempt) Ew) as (log & ->).
      destruct (IH (attempt + 1) Hb Hr Hread ltac:(lia))
        as (k & tr & Hk & -> & Hretried & Hfinal & Hcalls & Hsleeps).
      exists k,
        ([EvDo attempt (method call) (Legacy.baseURL cl +:+ path call);
          EvLog log; EvSleep wait] ++ tr).
      split; [lia|]. split; [done|]. split; [|split; [done|split]].
      * intros a Ha. destruct (decide (a = attempt)) as [->|Hne].
        -- split; [done|]. by rewrite Ew.
        -- apply Hretried. lia.
      * simpl. rewrite Hcalls, (seqZ_cons attempt) by lia. simpl.
        do 3 f_equal; lia.
      * simpl. rewrite Hsleeps, (seqZ_cons attempt) by lia. simpl.
        rewrite Ew. simpl. do 3 f_equal; lia.
    + exists attempt,
        [EvDo attempt (method call) (Legacy.baseURL cl +:+ path call)].
      split; [lia|]. split; [apply Legacy_final; auto|].
      split; [intros a Ha; lia|]. split; [by right|].
      replace (attempt - attempt + 1) with 1 by lia.
      replace (attempt - attempt) with 0 by lia. done.
Qed.

(** X28.  The two retry loops.  For the same base URL and the same
    [maxRetries], and as long as the body of every response can be read,
    [requestWithRetry] of the earlier client and [executeWithRetry] of the
    later one stop at the same attempt: they make the same calls of the
    transport and sleep the same waits.  The earlier loop returns what
    [finish] makes of the answer of that attempt. *)
Theorem Legacy_same_attempts cl c call hasResult :
  Legacy.maxRetries cl = maxRetries c -> Legacy.baseURL cl = baseURL c ->
  bodyMarshals call = true -> requestBuilds call = true ->
  (forall a resp, Do call a = DoResponse resp -> Body resp <> None) ->
  exists k tr tr',
    1 <= k /\
    Legacy.request jsonUnmarshal jsonErrorBody StatusText cl call hasResult
    = Some (Legacy.finish jsonUnmarshal jsonErrorBody StatusText hasResult
              (Do call k), tr) /\
    executeWithRetry c call (baseURL c +:+ path call) 1
    = Some (lastAnswer (Do call k), tr') /\
    transportCalls tr = transportCalls tr' /\
    sleeps tr = sleeps tr'.
Proof.
  intros Hmax Hurl Hb Hr Hread.
  destruct (Legacy_shape cl call hasResult
              (Z.to_nat (Legacy.maxRetries cl - 1 + 1)) 1 Hb Hr Hread)
    as (k & tr & Hk & E & Hretried & Hfinal & Hcalls & Hsleeps); [done|].
  destruct (executeWithRetryFuel_shape c call (baseURL c +:+ path call)
              (retryFuel c 1) 1 Hb Hr)
    as (k' & tr' & Hk' & E' & Hretried' & Hfinal' & Hcalls' & Hsleeps');
    [done|].
  assert (k' = k) as ->.
  { rewrite Hmax in Hretried, Hfinal.
    destruct (Z.lt_trichotomy k k') as [Hlt|[Heq|Hgt]]; [|done|].
    - destruct (Hretried' k ltac:(lia)) as [H1 H2].
      destruct Hfinal as [?|?]; [lia|done].
    - destruct (Hretried k' ltac:(lia)) as [H1 H2].
      destruct Hfinal' as [?|?]; [lia|done]. }
  exists k, tr, tr'. split; [done|]. split; [exact E|]. split; [exact E'|].
  rewrite Hcalls, Hcalls', Hsleeps, Hsleeps', Hurl. done.
Qed.

(** X29.  What the earlier client decodes.  The earlier loop decodes the
    body of a response below 400 only into a result that is not nil, and
    only when the body is not empty: with a nil result, or an empty body,
    the response is a success without a value.  So [SchemasClient.Delete],
    which passes a nil result, succeeds when the server answers the first
    attempt below 400, after one DELETE. *)
Theorem Legacy_decodes_when cl (id : string) (w : Answers) :
  (forall resp b hasResult,
     StatusCode resp < 400 -> Body resp = Some b ->
     Legacy.finish jsonUnmarshal jsonErrorBody StatusText hasResult
       (DoResponse resp)
     = if hasResult && negb (String.eqb b "") then
         match jsonUnmarshal b with
         | Some result => Legacy.mkOutcome None (Some result)
         | None => Legacy.failed (Legacy.Errorf "failed to parse response" "json")
         end
       else Legacy.mkOutcome None None) /\
  (forall resp b,
     builds w = true -> answer w 1 = DoResponse resp ->
     StatusCode resp < 400 -> Body resp = Some b ->
     Legacy.SchemasClient_Delete jsonUnmarshal jsonErrorBody StatusText cl id w
     = Some (Legacy.mkOutcome None None,
             [EvDo 1 "DELETE"
                (Legacy.baseURL cl +:+ "/api/v1/schemas/" +:+ id)])).
Proof.
  split.
  - intros resp b hasResult Hst Hb. simpl. rewrite Hb.
    by assert ((400 <=? StatusCode resp) = false) as -> by lia.
  - intros resp b Hr Hdo Hst Hb.
    unfold Legacy.SchemasClient_Delete, Legacy.request, Legacy.requestWithRetry.
    rewrite Legacy_final; try done.
    + simpl. rewrite Hdo. simpl. rewrite Hb.
      by assert ((400 <=? StatusCode resp) = false) as -> by lia.
    + right. simpl. rewrite Hdo. simpl.
      destruct (StatusCode resp =? 429) eqn:E1; [lia|].
      destruct (500 <=? StatusCode resp) eqn:E2; [lia|done].
Qed.

End LegacyFacts.

(** X30.  The two classifiers.  For every status and body, [parseError] of
    the earlier client and [parseErrorResponse] of the later one choose the
    same row of the table and give the error the same message, status and
    detail, and a validation error the same field errors.  They differ in
    what else the error carries and prints: the earlier rate-limit error
    has no retry-after (the header is not read), and the texts of the
    earlier typed errors start with the name of their kind. *)
Theorem parseError_agrees
  (jsonErrorBody : string -> option ErrorBody) (StatusText : Z -> string)
  (resp : Response) (body : string) :
  let old := Legacy.parseError jsonErrorBody StatusText (StatusCode resp) body in
  let new := parseErrorResponse jsonErrorBody StatusText resp body in
  Legacy.variantOf old = variantOf new /\
  Legacy.Message (Legacy.baseOf old) = Message (baseOf new) /\
  Legacy.Status (Legacy.baseOf old) = Status (baseOf new) /\
  Legacy.Detail (Legacy.baseOf old) = Detail (baseOf new) /\
  (forall a fields, old = Legacy.ValidationError a fields ->
     fieldErrorsOf new = Some fields) /\
  (forall a ra, old = Legacy.RateLimitError a ra -> ra = 0) /\
  Legacy.ErrorText old
  = match variantOf new with
    | Validation => "validation error: "
    | Authentication => "authentication error: "
    | Forbidden => "forbidden: "
    | NotFound => "not found: "
    | RateLimit => "rate limit exceeded: "
    | _ => ""
    end +:+ ErrorText new.
Proof.
  simpl. unfold Legacy.parseError, parseErrorResponse.
  destruct (StatusCode resp =? 400) eqn:E400.
  { apply Z.eqb_eq in E400. simpl. rewrite E400.
    repeat split; try done; intros; congruence. }
  destruct (StatusCode resp =? 401) eqn:E401.
  { apply Z.eqb_eq in E401. simpl. rewrite E401. repeat split; done. }
  destruct (StatusCode resp =? 403) eqn:E403.
  { apply Z.eqb_eq in E403. simpl. rewrite E403. repeat split; done. }
  destruct (StatusCode resp =? 404) eqn:E404.
  { apply Z.eqb_eq in E404. simpl. rewrite E404. repeat split; done. }
  destruct (StatusCode resp =? 429) eqn:E429.
  { apply Z.eqb_eq in E429. simpl. rewrite E429.
    repeat split; try done; intros; congruence. }
  simpl. repeat split; done.
Qed.

Lemma Legacy_same_attempts_witness :
  exists k tr tr',
    1 <= k /\
    Legacy.request unmarshalObject (fun _ => None) (fun _ => EmptyString)
      (Legacy.NewClient "key") downCall true
    = Some (Legacy.finish unmarshalObject (fun _ => None) (fun _ => EmptyString)
              true (Do downCall k), tr) /\
    executeWithRetry newClient downCall
      (baseURL newClient +:+ path downCall) 1
    = Some (lastAnswer (Do downCall k), tr') /\
    transportCalls tr = transportCalls tr' /\
    sleeps tr = sleeps tr'.
Proof.
  apply (Legacy_same_attempts unmarshalObject (fun _ => None)
           (fun _ => EmptyString) (Legacy.NewClient "key") newClient downCall
           true); try reflexivity.
  intros a resp H. discriminate.
Defined.
